(** * The collection store of [src/lib/sdk.ts] (class [UniversalSDK])

    A shallow embedding of the record store that [UniversalSDK] keeps in a
    GitHub repository: [get], [save], [insert], [bulkInsert], [update],
    [delete], [validateSchema] and [queryBuilder], followed by the
    properties of the specification that concern them; then the methods
    around the store, [init], [listCollections], [register], [login],
    [getCurrentUser] and [destroySession], and what the code of all of them
    guarantees besides.

    Conventions of the model.
    - A JavaScript object used as a record is a finite map from field names
      to values ([gmap string value]): its own properties.  Its prototype is
      [Object.prototype], and where the code looks a name up that is not
      known beforehand ([item[field]], [field in item],
      [this.auditLog[collection]]) the members that every object inherits
      ([constructor], [toString], [__proto__], ...) are found as they are in
      JavaScript.
    - The values of records are those that JSON carries, and [undefined]:
      no functions, no accessors, no objects of other classes.
    - Numbers are the integers a double represents exactly (magnitude below
      2^53).  A conversion or comparison whose result would leave that range,
      or that depends on a part of JavaScript not modelled here, makes the
      operation end in [Unmodelled] instead of inventing an answer; so
      nothing is said about identifiers from 2^53 on, where the code goes on
      counting with doubles that no longer tell neighbours apart.
    - Strings are made of the characters up to U+00FF, the ones [btoa]
      encodes and [atob] returns; on them [btoa] and [atob] are each other's
      inverse and never throw.  A collection that holds a character beyond
      U+00FF, on which [btoa] throws inside [save], is outside the model.
    - An [async] method is modelled by the sequence of its effects; what
      other clients and the network do between two requests is given by the
      list [pending] of the state.
    - [this.sessionStore] is handed to [login] and [destroySession] and
      comes back from them, instead of being a field of the state. *)

From stdpp Require Import gmap strings list sorting pretty.
From Stdlib Require Import ZArith Ascii DecimalString DecimalN.

Set Default Proof Using "Type".
#[local] Set Warnings "-register-all".
#[local] Open Scope Z_scope.

(** ** JavaScript values *)

(** The values that records are made of: what JSON carries, and
    [undefined]. *)
Inductive value :=
  | VUndefined
  | VNull
  | VBool (b : bool)
  | VNum (n : Z)
  | VStr (s : string)
  | VArr (items : list value)
  | VObj (fields : gmap string value).

(** A record of a collection ([T] in the source): its own fields.  Its
    prototype is [Object.prototype]. *)
Abbreviation record := (gmap string value).

(** The names that every object inherits from [Object.prototype]. *)
Definition Object_prototype_members : list string :=
  [ "constructor"; "__defineGetter__"; "__defineSetter__"; "hasOwnProperty";
    "__lookupGetter__"; "__lookupSetter__"; "isPrototypeOf";
    "propertyIsEnumerable"; "toString"; "valueOf"; "__proto__";
    "toLocaleString" ].

Definition inherited (name : string) : bool :=
  bool_decide (name ∈ Object_prototype_members).

(** [item.name] for a name that [Object.prototype] does not define, as
    are all the names that the source writes out ([id], [uid], [email],
    [password], [role], [businessName]): the field of the record, else
    [undefined]. *)
Definition prop (item : record) (field : string) : value :=
  default VUndefined (item !! field).

(** What [item[field]] gives for a name that is not known beforehand: a
    value that the record holds ([undefined] when it has no such field),
    or the member of [Object.prototype] of that name, which is a function,
    or under [__proto__] the prototype itself. *)
Inductive member :=
  | Held (v : value)
  | Builtin (name : string).

Definition member_of (item : record) (field : string) : member :=
  match item !! field with
  | Some v => Held v
  | None => if inherited field then Builtin field else Held VUndefined
  end.

(** [field in item]: own or inherited. *)
Definition has_field (field : string) (item : record) : bool :=
  bool_decide (is_Some (item !! field)) || inherited field.

(** [{ ...a, ...b }]: the fields of [b] win. *)
Definition spread (a b : record) : record := b ∪ a.

(** What [JSON.stringify] keeps of a field: one holding [undefined] is left
    out; inside an array [undefined] is written as [null]. *)
Fixpoint json (v : value) : value :=
  match v with
  | VUndefined => VNull
  | VArr items => VArr (json <$> items)
  | VObj fields =>
      VObj (omap (λ x, match x with VUndefined => None | _ => Some (json x) end)
                 fields)
  | _ => v
  end.

Definition json_field (v : value) : option value :=
  match v with VUndefined => None | _ => Some (json v) end.

(** [JSON.parse (JSON.stringify item)] for a record. *)
Definition json_record (item : record) : record := omap json_field item.

(** [JSON.parse (atob (btoa (JSON.stringify data)))] for a collection. *)
Definition json_records (data : list record) : list record :=
  json_record <$> data.

(** ** Numbers and the conversions the store relies on *)

Inductive number := NaN | Int (z : Z).

Definition safe_integer (z : Z) : bool := Z.abs z <? 2 ^ 53.

Definition exact (z : Z) : option number :=
  if safe_integer z then Some (Int z) else None.

Definition is_digit (c : ascii) : bool :=
  let n := nat_of_ascii c in ((48 <=? n) && (n <=? 57))%nat.

Definition is_space (c : ascii) : bool :=
  let n := nat_of_ascii c in ((n =? 32) || ((9 <=? n) && (n <=? 13)))%nat.

Definition is_ascii (c : ascii) : bool := (nat_of_ascii c <? 128)%nat.

Fixpoint all_chars (p : ascii → bool) (s : string) : bool :=
  match s with
  | EmptyString => true
  | String c rest => p c && all_chars p rest
  end.

Fixpoint trim_start (s : string) : string :=
  match s with
  | String c rest => if is_space c then trim_start rest else s
  | EmptyString => s
  end.

Fixpoint trim_end (s : string) : string :=
  match s with
  | EmptyString => EmptyString
  | String c rest =>
      match trim_end rest with
      | EmptyString => if is_space c then EmptyString else String c EmptyString
      | kept => String c kept
      end
  end.

(** [s.trim()], for the white space of ASCII. *)
Definition trim (s : string) : string := trim_end (trim_start s).

(** The value of a non-empty run of decimal digits. *)
Definition digits (s : string) : option Z :=
  match s with
  | EmptyString => None
  | _ => if all_chars is_digit s
         then (λ d, Z.of_N (N.of_uint d)) <$> NilEmpty.uint_of_string s
         else None
  end.

(** Can a numeric literal start with this character?  A digit, the dot of a
    fraction, the [I] of [Infinity]; a byte outside ASCII may belong to a
    white-space character that [trim] did not see. *)
Definition starts_numeral (c : ascii) : bool :=
  is_digit c || bool_decide (c = "."%char) || bool_decide (c = "I"%char)
  || negb (is_ascii c).

(** The literal after an optional sign. *)
Definition unsigned_literal (s : string) (sign : Z) : option number :=
  match s with
  | EmptyString => Some NaN
  | String c _ =>
      if starts_numeral c
      then n ← digits s; exact (sign * n)
      else Some NaN
  end.

(** [Number(s)] for a string.  Decimal integers, the empty string and text
    that cannot start a numeral are decided here; every other form (a
    fraction, an exponent, a radix prefix, [Infinity], digits followed by
    something else) is left undecided ([None]). *)
Definition string_to_number (s : string) : option number :=
  match trim s with
  | EmptyString => Some (Int 0)
  | String c rest =>
      if bool_decide (c = "+"%char) then unsigned_literal rest 1
      else if bool_decide (c = "-"%char) then unsigned_literal rest (-1)
      else unsigned_literal (String c rest) 1
  end.

(** Unary plus, [+v]. *)
Definition to_number (v : value) : option number :=
  match v with
  | VUndefined => Some NaN
  | VNull => Some (Int 0)
  | VBool b => Some (Int (if b then 1 else 0))
  | VNum n => exact n
  | VStr s => string_to_number s
  | VArr _ | VObj _ => None
  end.

(** [n.toString()] for an integer. *)
Definition toString (n : Z) : option string :=
  if safe_integer n
  then Some (match n with
             | Z.neg p => "-" +:+ NilEmpty.string_of_uint (Pos.to_uint p)
             | _ => NilEmpty.string_of_uint (N.to_uint (Z.to_N n))
             end)
  else None.

(** [+x.id || 0]: [NaN] and [0] are falsy. *)
Definition id_or_zero (x : record) : option Z :=
  n ← to_number (prop x "id");
  Some (match n with NaN => 0 | Int z => z end).

(** [Math.max(0, ...ns)]. *)
Definition Math_max0 (ns : list Z) : Z := foldr Z.max 0 ns.

(** [Math.max(0, ...arr.map(x => +x.id || 0)) + 1]. *)
Definition next_id (arr : list record) : option Z :=
  ns ← mapM id_or_zero arr;
  Some (Math_max0 ns + 1).

(** [message.includes(needle)]. *)
Definition includes (needle message : string) : bool :=
  bool_decide (is_Some (String.index 0 needle message)).

(** The test by which [get] takes a failed read for a missing collection:
    [error.message.includes('404') || error.message.includes('empty')]. *)
Definition treated_as_missing (message : string) : bool :=
  includes "404" message || includes "empty" message.

(** ** Comparison and sorting *)

(** [a < b] on the values for which [<] is a total order the model covers:
    two safe integers, or two ASCII strings (compared by code unit).  With
    [undefined], or across kinds, [<] is not a total order and what
    [Array.prototype.sort] returns is up to the engine. *)
Definition js_lt (a b : value) : option bool :=
  match a, b with
  | VNum x, VNum y =>
      if safe_integer x && safe_integer y then Some (x <? y) else None
  | VStr s, VStr t =>
      if all_chars is_ascii s && all_chars is_ascii t
      then Some (String.ltb s t) else None
  | _, _ => None
  end.

(** [a < b] on what two reads gave; a comparison with a member of
    [Object.prototype] is not covered either. *)
Definition member_lt (a b : member) : option bool :=
  match a, b with
  | Held x, Held y => js_lt x y
  | _, _ => None
  end.

Inductive direction := asc | desc.

(** The comparator that [exec] hands to [results.sort]. *)
Definition compareFn (sortField : string) (sortDir : direction)
    (a b : record) : option Z :=
  let aVal := member_of a sortField in
  let bVal := member_of b sortField in
  match member_lt bVal aVal, member_lt aVal bVal with
  | Some above, Some below =>
      Some match sortDir with
           | asc => if above then 1 else if below then -1 else 0
           | desc => if below then 1 else if above then -1 else 0
           end
  | _, _ => None
  end.

(** [Array.prototype.sort] is stable: an element goes behind everything
    that does not compare greater than it. *)
Fixpoint sort_insert {A} (cmp : A → A → option Z) (x : A) (sorted : list A)
    : option (list A) :=
  match sorted with
  | [] => Some [x]
  | y :: rest =>
      c ← cmp y x;
      if 0 <? c then Some (x :: y :: rest)
      else (y ::.) <$> sort_insert cmp x rest
  end.

Definition Array_sort {A} (cmp : A → A → option Z) (l : list A)
    : option (list A) :=
  foldl (λ (acc : option (list A)) x, sorted ← acc; sort_insert cmp x sorted)
        (Some []) l.

(** ** Configuration and state *)

Record SchemaDefinition := {
  required : option (list string);
  types : option (gmap string string);
  defaults : option record;
}.

(** The fields of [UniversalSDKConfig] that the store reads. *)
Record UniversalSDKConfig := {
  basePath : option string;
  schemas : option (gmap string SchemaDefinition);
}.

Record AuditLogEntry := {
  action : string;
  data : record;
  timestamp : Z;
}.

(** How a method ends. *)
Inductive outcome (A : Type) :=
  | Returned (a : A)
  | Thrown (message : string)
  | Unmodelled.
Arguments Returned {A} a.
Arguments Thrown {A} message.
Arguments Unmodelled {A}.

(** The object that [queryBuilder] returns: the variables its four closures
    share.  [query] is the promise of [this.get(collection)], given by the
    way it settles. *)
Record QueryBuilder := {
  collection_of : string;
  query : outcome (list record);
  filters : list (record → bool);
  sortField : option string;
  sortDir : direction;
  projectionFields : option (list string);
}.

(** A file of the repository: the collection it holds and the version the
    repository gave it. *)
Record blob := {
  content : list record;
  sha : nat;
}.

(** What happens outside between two requests of this client. *)
Inductive event :=
  | Quiet
  | Fault (message : string)
  | Commit (path : string) (data : list record).

(** The requests this client has sent: for a read the version that came
    back, for a write the version it named, the version the file had when
    the write arrived, and whether the write was accepted. *)
Inductive call :=
  | CGet (path : string) (observed : option nat)
  | CPut (path : string) (data : list record) (expected : option nat)
         (found : option nat) (accepted : bool).

Record state := {
  auditLog : gmap string (list AuditLogEntry);
  builders : list QueryBuilder;
  remote : gmap string blob;
  revision : nat;
  pending : list event;
  trace : list call;
  uuid_source : nat → string;
  uuid_drawn : nat;
  clock : Z;
}.

Definition with_auditLog (log : gmap string (list AuditLogEntry)) (σ : state) :=
  {| auditLog := log; builders := builders σ; remote := remote σ;
     revision := revision σ; pending := pending σ; trace := trace σ;
     uuid_source := uuid_source σ; uuid_drawn := uuid_drawn σ;
     clock := clock σ |}.

Definition with_builders (bs : list QueryBuilder) (σ : state) :=
  {| auditLog := auditLog σ; builders := bs; remote := remote σ;
     revision := revision σ; pending := pending σ; trace := trace σ;
     uuid_source := uuid_source σ; uuid_drawn := uuid_drawn σ;
     clock := clock σ |}.

Definition with_pending (evs : list event) (σ : state) :=
  {| auditLog := auditLog σ; builders := builders σ; remote := remote σ;
     revision := revision σ; pending := evs; trace := trace σ;
     uuid_source := uuid_source σ; uuid_drawn := uuid_drawn σ;
     clock := clock σ |}.

Definition log_call (c : call) (σ : state) :=
  {| auditLog := auditLog σ; builders := builders σ; remote := remote σ;
     revision := revision σ; pending := pending σ; trace := trace σ ++ [c];
     uuid_source := uuid_source σ; uuid_drawn := uuid_drawn σ;
     clock := clock σ |}.

(** A write that the repository accepts: the file gets the data as JSON
    holds them and a version never given before. *)
Definition store (path : string) (data : list record) (σ : state) :=
  {| auditLog := auditLog σ; builders := builders σ;
     remote := <[path := {| content := json_records data;
                            sha := S (revision σ) |}]> (remote σ);
     revision := S (revision σ); pending := pending σ; trace := trace σ;
     uuid_source := uuid_source σ; uuid_drawn := uuid_drawn σ;
     clock := clock σ |}.

Definition draw_uuid (σ : state) :=
  {| auditLog := auditLog σ; builders := builders σ; remote := remote σ;
     revision := revision σ; pending := pending σ; trace := trace σ;
     uuid_source := uuid_source σ; uuid_drawn := S (uuid_drawn σ);
     clock := clock σ |}.

(** ** Methods as state transformers *)

Definition M (A : Type) : Type := state → state * outcome A.

#[export] Instance M_ret : MRet M := λ A a σ, (σ, Returned a).

#[export] Instance M_bind : MBind M := λ A B k m σ,
  match m σ with
  | (σ1, Returned a) => k a σ1
  | (σ1, Thrown message) => (σ1, Thrown message)
  | (σ1, Unmodelled) => (σ1, Unmodelled)
  end.

Definition throw {A} (message : string) : M A := λ σ, (σ, Thrown message).

(** [try { body } catch (error) { handler error.message }]. *)
Definition try_catch {A} (body : M A) (handler : string → M A) : M A := λ σ,
  match body σ with
  | (σ1, Thrown message) => handler message σ1
  | r => r
  end.

(** A conversion the model does not decide ends the method. *)
Definition decided {A} (o : option A) : M A := λ σ,
  match o with
  | Some a => (σ, Returned a)
  | None => (σ, Unmodelled)
  end.

(** [crypto.randomUUID()]. *)
Definition randomUUID : M string := λ σ,
  (draw_uuid σ, Returned (uuid_source σ (uuid_drawn σ))).

(** ** The repository *)

Definition not_found_text : string := "404 Not Found".
Definition conflict_text : string := "409 Conflict".

(** The message of the [TypeError] for calling [push] where there is none;
    the wording is the engine's, here V8's. *)
Definition not_a_function_text : string :=
  "this.auditLog[collection].push is not a function".

(** Modelled from the spec: the contents API of the repository, the
    BlobStore collaborator of the specification, is not part of the source.
    Before a request is served the next pending event takes place: another
    client's commit lands, or the request fails with the event's message. *)
Definition arrive (σ : state) : state * option string :=
  match pending σ with
  | [] => (σ, None)
  | Quiet :: rest => (with_pending rest σ, None)
  | Fault message :: rest => (with_pending rest σ, Some message)
  | Commit path data :: rest => (store path data (with_pending rest σ), None)
  end.

(** Modelled from the spec: a write is refused when it names a version that
    is not the file's current one; without a version it is unconditional. *)
Definition accepts (current : option blob) (expected : option nat) : bool :=
  match expected, current with
  | None, _ => true
  | Some e, Some b => bool_decide (sha b = e)
  | Some _, None => false
  end.

(** The body of a [PUT]; the commit message and the branch play no part. *)
Record put_body := {
  body_content : list record;
  body_sha : option nat;
}.

Inductive http_method := GET | PUT (body : put_body).

(** Modelled from the spec: [read] fails with NotFound on a path that does
    not exist, and [write] fails with Conflict on a version mismatch.
    [request] throws the text of the response that is not [ok]. *)
Definition request (path : string) (method : http_method) : M blob := λ σ,
  let '(σ1, fault) := arrive σ in
  match method with
  | GET =>
      match fault with
      | Some message => (log_call (CGet path None) σ1, Thrown message)
      | None =>
          match remote σ1 !! path with
          | Some b => (log_call (CGet path (Some (sha b))) σ1, Returned b)
          | None => (log_call (CGet path None) σ1, Thrown not_found_text)
          end
      end
  | PUT body =>
      let d := body_content body in
      let e := body_sha body in
      let found := sha <$> remote σ1 !! path in
      match fault with
      | Some message =>
          (log_call (CPut path d e found false) σ1, Thrown message)
      | None =>
          if accepts (remote σ1 !! path) e
          then let σ2 := store path d σ1 in
               (log_call (CPut path d e found true) σ2,
                Returned {| content := json_records d; sha := revision σ2 |})
          else (log_call (CPut path d e found false) σ1, Thrown conflict_text)
      end
  end.

(** ** The methods of [UniversalSDK] *)

(** [x.id === key || x.uid === key], for a [key] that is a string. *)
Definition strict_eq (v : value) (key : string) : bool :=
  match v with
  | VStr s => bool_decide (s = key)
  | _ => false
  end.

(** The predicate of [find] and [findIndex] in [getItem], [update] and
    [delete]. *)
Definition matches (key : string) (x : record) : bool :=
  strict_eq (prop x "id") key || strict_eq (prop x "uid") key.

(** [arr.findIndex(x => x.id === key || x.uid === key)]. *)
Definition findIndex (key : string) (arr : list record) : option nat :=
  fst <$> list_find (λ x, Is_true (matches key x)) arr.

(** [!(field in item) || item[field] === undefined || item[field] === null]. *)
Definition is_missing (field : string) (item : record) : bool :=
  negb (has_field field item)
  || match member_of item field with
     | Held VUndefined | Held VNull => true
     | _ => false
     end.

(** [`Required field '${field}' is missing in ${collection}`]. *)
Definition required_message (field collection : string) : string :=
  "Required field '" +:+ field +:+ "' is missing in " +:+ collection.

Definition set_query (q : outcome (list record)) (b : QueryBuilder) :=
  {| collection_of := collection_of b; query := q; filters := filters b;
     sortField := sortField b; sortDir := sortDir b;
     projectionFields := projectionFields b |}.

Definition push_filter (fn : record → bool) (b : QueryBuilder) :=
  {| collection_of := collection_of b; query := query b;
     filters := filters b ++ [fn];
     sortField := sortField b; sortDir := sortDir b;
     projectionFields := projectionFields b |}.

Definition set_sort (field : string) (dir : direction) (b : QueryBuilder) :=
  {| collection_of := collection_of b; query := query b; filters := filters b;
     sortField := Some field; sortDir := dir;
     projectionFields := projectionFields b |}.

Definition set_projection (fields : list string) (b : QueryBuilder) :=
  {| collection_of := collection_of b; query := query b; filters := filters b;
     sortField := sortField b; sortDir := sortDir b;
     projectionFields := Some fields |}.

(** [if (sortField)]: [null] and the empty string are falsy. *)
Definition truthy (field : option string) : option string :=
  match field with
  | Some f => if bool_decide (f = "") then None else Some f
  | None => None
  end.

(** An object that [exec] returns: its own fields.  A projection can hold
    members of [Object.prototype]; a record holds none. *)
Abbreviation object := (gmap string member).

(** A record as such an object. *)
Definition held (item : record) : object := Held <$> item.

(** The prototype of the object that a projection builds: none, or what
    was read from the record under [__proto__]; [Object.prototype] at
    first. *)
Inductive prototype :=
  | Null_prototype
  | Prototype (m : member).

Definition Object_prototype : prototype := Prototype (Builtin "__proto__").

(** Does an assignment to [__proto__] reach the accessor of
    [Object.prototype]?  Not when the object has a field of that name, nor
    when its prototype is [null] or an object that has such a field (as an
    object that [JSON.parse] built can). *)
Definition reaches_accessor (own : object) (proto : prototype) : bool :=
  match own !! "__proto__", proto with
  | Some _, _ => false
  | None, Null_prototype => false
  | None, Prototype (Held (VObj fields)) =>
      bool_decide (fields !! "__proto__" = None)
  | None, Prototype _ => true
  end.

(** What the accessor does with the value assigned: an object or [null]
    becomes the prototype, anything else is ignored. *)
Definition set_prototype (v : member) (proto : prototype) : prototype :=
  match v with
  | Held VNull => Null_prototype
  | Held (VObj _) | Held (VArr _) | Builtin _ => Prototype v
  | Held _ => proto
  end.

(** [projected[field] = v] on the object that the projection builds, given
    by its own fields and its prototype.  The assignment makes or replaces
    a field, except where it reaches the accessor [__proto__]. *)
Definition assign (field : string) (v : member) (o : object * prototype)
    : object * prototype :=
  if bool_decide (field = "__proto__") && reaches_accessor o.1 o.2
  then (o.1, set_prototype v o.2)
  else (<[field := v]> o.1, o.2).

(** The object that the projection builds from [item]: its own fields. *)
Definition projected (fields : list string) (item : record) : object :=
  (foldl (λ o field, assign field (member_of item field) o)
     (∅, Object_prototype) fields).1.

(** [results], or [results.map(item => projected)]. *)
Definition apply_projection (fields : option (list string))
    (results : list record) : list object :=
  match fields with
  | Some fs => projected fs <$> results
  | None => held <$> results
  end.

(** ** Users and sessions *)

(** [Session] and the parameter of [login]. *)
Record Session := {
  token : string;
  user : record;
  created : Z;
}.

Record Credentials := {
  email : string;
  password : string;
}.

(** [a === b] for a value read from a parsed record and a value of the
    caller: primitives are compared by type and value; two arrays or
    objects are never the same object. *)
Definition strict_equals (a b : value) : bool :=
  match a, b with
  | VUndefined, VUndefined | VNull, VNull => true
  | VBool x, VBool y => bool_decide (x = y)
  | VNum x, VNum y => bool_decide (x = y)
  | VStr x, VStr y => bool_decide (x = y)
  | _, _ => false
  end.

(** Whether a value counts as true. *)
Definition truthy_value (v : value) : bool :=
  match v with
  | VUndefined | VNull => false
  | VBool b => b
  | VNum n => negb (n =? 0)
  | VStr s => negb (bool_decide (s = ""))
  | VArr _ | VObj _ => true
  end.

(** [v || d]. *)
Definition or_else (v d : value) : value :=
  if truthy_value v then v else d.

(** [Date.now()]. *)
Definition Date_now : M Z := λ σ, (σ, Returned (clock σ)).

(** [for (const x of l) await f(x)]. *)
Fixpoint for_each {A} (l : list A) (f : A → M ()) : M () :=
  match l with
  | [] => mret ()
  | x :: rest => _ ← f x; for_each rest f
  end.

(** ** Directory listings *)

(** [s] without the prefix [p], if it starts with it. *)
Fixpoint strip_prefix (p s : string) : option string :=
  match p, s with
  | EmptyString, _ => Some s
  | String a p', String b s' =>
      if Ascii.eqb a b then strip_prefix p' s' else None
  | String _ _, EmptyString => None
  end.

(** [name.endsWith(suffix)]. *)
Fixpoint endsWith (suffix name : string) : bool :=
  bool_decide (name = suffix)
  || match name with
     | EmptyString => false
     | String _ rest => endsWith suffix rest
     end.

(** [name.replace(pattern, '')] for a pattern that is a string, not empty:
    the first occurrence goes. *)
Fixpoint replace_first (pattern name : string) : string :=
  match strip_prefix pattern name with
  | Some rest => rest
  | None =>
      match name with
      | EmptyString => EmptyString
      | String c rest => String c (replace_first pattern rest)
      end
  end.

(** A path up to its first [/]. *)
Fixpoint first_segment (s : string) : string :=
  match s with
  | EmptyString => EmptyString
  | String c rest =>
      if Ascii.eqb c "/" then EmptyString else String c (first_segment rest)
  end.

(** What the contents API answers for a path: a file, or the names of the
    entries of a directory. *)
Inductive contents :=
  | File (b : blob)
  | Directory (names : list string).

(** Modelled from the spec: the entries of a directory are the files right
    under it and the directories that hold a file further down. *)
Definition entries (directory : string) (files : gmap string blob)
    : list string :=
  remove_dups
    (omap (λ path, first_segment <$> strip_prefix (directory +:+ "/") path)
          (map_to_list files).*1).

(** Modelled from the spec: [list] of the BlobStore collaborator, which the
    source reaches through [request] on the path of a directory.  A path with
    nothing under it does not exist. *)
Definition request_contents (path : string) : M contents := λ σ,
  let '(σ1, fault) := arrive σ in
  match fault with
  | Some message => (log_call (CGet path None) σ1, Thrown message)
  | None =>
      match remote σ1 !! path with
      | Some b => (log_call (CGet path (Some (sha b))) σ1, Returned (File b))
      | None =>
          match entries path (remote σ1) with
          | [] => (log_call (CGet path None) σ1, Thrown not_found_text)
          | names => (log_call (CGet path None) σ1, Returned (Directory names))
          end
      end
  end.

Module UniversalSDK.
Section methods.
Context (config : UniversalSDKConfig).

(** [this.basePath = config.basePath || "db"]. *)
Definition this_basePath : string :=
  match basePath config with
  | Some s => if bool_decide (s = "") then "db" else s
  | None => "db"
  end.

(** [this.schemas = config.schemas || {}].  Under the name of a member of
    [Object.prototype] for which the configuration has no schema,
    [this.schemas[collection]] finds that member, which has no [required]
    and no [defaults]: the code goes on as it does without a schema. *)
Definition this_schemas : gmap string SchemaDefinition :=
  default ∅ (schemas config).

(** [`${this.basePath}/${collection}.json`]. *)
Definition collection_path (collection : string) : string :=
  this_basePath +:+ "/" +:+ collection +:+ ".json".

(** [save] reads the file for its [sha], whatever the outcome of the read,
    and writes the collection with that [sha] if there is one.  Between the
    two, [btoa] encodes the JSON text of the collection; it throws on a
    character beyond U+00FF, which the strings of the model do not have. *)
Definition save (collection : string) (data : list record) : M () :=
  sha ← try_catch
           (head ← request (collection_path collection) GET;
            mret (Some (sha head)))
           (λ _, mret None);
  _ ← request (collection_path collection)
        (PUT {| body_content := data; body_sha := sha |});
  mret ().

(** [initializeCollection] saves the empty collection and only warns when
    that fails. *)
Definition initializeCollection (collection : string) : M () :=
  try_catch (save collection []) (λ _, mret ()).

(** [get] parses the content of the file; an error whose message contains
    "404" or "empty" makes it create the collection and return [[]]. *)
Definition get (collection : string) : M (list record) :=
  try_catch
    (res ← request (collection_path collection) GET;
     mret (json_records (content res)))
    (λ message,
       if includes "404" message || includes "empty" message
       then _ ← initializeCollection collection; mret []
       else throw message).

(** [arr.find(x => x.id === key || x.uid === key) || null]. *)
Definition getItem (collection key : string) : M (option record) :=
  arr ← get collection;
  mret (snd <$> list_find (λ x, Is_true (matches key x)) arr).

(** The loop of [validateSchema] over [schema.required]. *)
Fixpoint check_required (collection : string) (fields : list string)
    (item : record) : M () :=
  match fields with
  | [] => mret ()
  | field :: rest =>
      if is_missing field item
      then throw (required_message field collection)
      else check_required collection rest item
  end.

(** [validateSchema] does nothing without a schema or without [required]. *)
Definition validateSchema (collection : string) (item : record) : M () :=
  match this_schemas !! collection with
  | None => mret ()
  | Some schema =>
      match required schema with
      | Some fields => check_required collection fields item
      | None => mret ()
      end
  end.

(** [_audit] appends [{ action, data, timestamp: Date.now() }] to the log
    of the collection; [clock] is what [Date.now()] returns.  The log is
    looked up with [this.auditLog[collection]]: for a collection without a
    log of its own that is named like a member of [Object.prototype], the
    lookup finds that member, no log is made, and calling its [push]
    throws. *)
Definition _audit (collection : string) (data : record) (action : string)
    : M () := λ σ,
  let entry := {| action := action; data := data; timestamp := clock σ |} in
  match auditLog σ !! collection with
  | Some entries =>
      (with_auditLog (<[collection := entries ++ [entry]]> (auditLog σ)) σ,
       Returned ())
  | None =>
      if inherited collection
      then (σ, Thrown not_a_function_text)
      else (with_auditLog (<[collection := [entry]]> (auditLog σ)) σ,
            Returned ())
  end.

(** [if (schema?.defaults) item = { ...schema.defaults, ...item }]. *)
Definition with_defaults (collection : string) (item : record) : record :=
  match this_schemas !! collection ≫= defaults with
  | Some d => spread d item
  | None => item
  end.

(** [{ uid, id, ...item }]. *)
Definition new_item (uid id : string) (item : record) : record :=
  spread {[ "uid" := VStr uid; "id" := VStr id ]} item.

(** [insert]: fetch, merge the defaults, validate, number, mint, append,
    save, audit. *)
Definition insert (collection : string) (item : record) : M record :=
  arr ← get collection;
  let item := with_defaults collection item in
  _ ← validateSchema collection item;
  n ← decided (next_id arr);
  id ← decided (toString n);
  uid ← randomUUID;
  let newItem := new_item uid id item in
  _ ← save collection (arr ++ [newItem]);
  _ ← _audit collection newItem "insert";
  mret newItem.

(** The [for] loop of [bulkInsert]; it returns [arr] and [results]. *)
Fixpoint bulkInsert_loop (collection : string) (items : list record)
    (nextId : Z) (arr results : list record)
    : M (list record * list record) :=
  match items with
  | [] => mret (arr, results)
  | item :: rest =>
      let processedItem := with_defaults collection item in
      _ ← validateSchema collection processedItem;
      uid ← randomUUID;
      id ← decided (toString nextId);
      let newItem := new_item uid id processedItem in
      bulkInsert_loop collection rest (nextId + 1)
        (arr ++ [newItem]) (results ++ [newItem])
  end.

(** [bulkInsert]: one fetch, the loop, one [save]; no audit. *)
Definition bulkInsert (collection : string) (items : list record)
    : M (list record) :=
  arr ← get collection;
  nextId ← decided (next_id arr);
  '(arr, results) ← bulkInsert_loop collection items nextId arr [];
  _ ← save collection arr;
  mret results.

(** [update]: [arr[index] = { ...arr[index], ...updates }], or [null] when
    [findIndex] gives [-1]. *)
Definition update (collection key : string) (updates : record)
    : M (option record) :=
  arr ← get collection;
  match findIndex key arr with
  | None => mret None
  | Some index =>
      let merged := spread (default ∅ (arr !! index)) updates in
      _ ← save collection (<[index := merged]> arr);
      _ ← _audit collection merged "update";
      mret (Some merged)
  end.

(** [delete]: [arr.splice(index, 1)], or [false] when [findIndex] gives
    [-1]. *)
Definition delete (collection key : string) : M bool :=
  arr ← get collection;
  match findIndex key arr with
  | None => mret false
  | Some index =>
      let deleted := default ∅ (arr !! index) in
      _ ← save collection (base.delete index arr);
      _ ← _audit collection deleted "delete";
      mret true
  end.

(** [queryBuilder] calls [this.get(collection)] at once and keeps the
    promise; the object it returns is the new entry of [builders]. *)
Definition queryBuilder (collection : string) : M nat := λ σ,
  let '(σ1, q) := get collection σ in
  let b := {| collection_of := collection; query := q; filters := [];
              sortField := None; sortDir := asc;
              projectionFields := None |} in
  (with_builders (builders σ1 ++ [b]) σ1, Returned (length (builders σ1))).

(** A method of the builder [qb] that changes one of its variables and
    then returns [this.queryBuilder(collection)]. *)
Definition chain (qb : nat) (change : QueryBuilder → QueryBuilder)
    : M nat := λ σ,
  match builders σ !! qb with
  | None => (σ, Unmodelled)
  | Some b =>
      queryBuilder (collection_of b)
        (with_builders (<[qb := change b]> (builders σ)) σ)
  end.

Definition where_ (qb : nat) (fn : record → bool) : M nat :=
  chain qb (push_filter fn).

Definition sort (qb : nat) (field : string) (dir : direction) : M nat :=
  chain qb (set_sort field dir).

Definition project (qb : nat) (fields : list string) : M nat :=
  chain qb (set_projection fields).

(** [exec] awaits the promise kept in [query].  Without filters
    [results] is the very array the promise holds, and [results.sort]
    sorts it in place. *)
Definition exec (qb : nat) : M (list object) := λ σ,
  match builders σ !! qb with
  | None => (σ, Unmodelled)
  | Some b =>
      match query b with
      | Returned fetched =>
          let results :=
            foldl (λ rs fn, List.filter fn rs) fetched (filters b) in
          match truthy (sortField b) with
          | Some field =>
              match Array_sort (compareFn field (sortDir b)) results with
              | Some sorted =>
                  let σ1 :=
                    match filters b with
                    | [] => with_builders
                              (<[qb := set_query (Returned sorted) b]>
                                 (builders σ)) σ
                    | _ => σ
                    end in
                  (σ1, Returned (apply_projection (projectionFields b) sorted))
              | None => (σ, Unmodelled)
              end
          | None =>
              (σ, Returned (apply_projection (projectionFields b) results))
          end
      | Thrown message => (σ, Thrown message)
      | Unmodelled => (σ, Unmodelled)
      end
  end.
(** [listCollections]: the names of the [.json] entries of the base
    directory, without their first [.json]. *)
Definition listCollections : M (list string) :=
  try_catch
    (res ← request_contents this_basePath;
     match res with
     | Directory names =>
         mret (replace_first ".json" <$> List.filter (endsWith ".json") names)
     | File _ => mret []
     end)
    (λ message,
       if includes "empty" message || includes "404" message
       then throw "Repository is empty"
       else throw message).

Definition adminUser : record :=
  {[ "email" := VStr "admin@platform.com";
     "password" := VStr "admin123";
     "name" := VStr "Platform Admin";
     "role" := VStr "admin";
     "roles" := VArr [VStr "admin"];
     "verified" := VBool true;
     "onboardingCompleted" := VBool true ]}.

Definition category (name slug description : string) : record :=
  {[ "name" := VStr name; "slug" := VStr slug;
     "description" := VStr description ]}.

Definition categories : list record :=
  [ category "Electronics" "electronics" "Latest gadgets and electronics";
    category "Fashion" "fashion" "Trending fashion items";
    category "Home & Garden" "home-garden"
      "Home improvement and garden supplies";
    category "Sports" "sports" "Sports equipment and accessories";
    category "Books" "books" "Books and educational materials" ].

Definition helpArticle (title content category slug : string) : record :=
  {[ "title" := VStr title; "content" := VStr content;
     "category" := VStr category; "slug" := VStr slug;
     "isPublished" := VBool true ]}.

Definition helpArticles : list record :=
  [ helpArticle "Getting Started Guide"
      "Welcome to our platform! This guide will help you get started."
      "getting-started" "getting-started-guide";
    helpArticle "How to Create Your First Product"
      "Learn how to list your first product on our marketplace."
      "seller-guide" "create-first-product" ].

(** [initializeSampleData] inserts the administrator, the categories and
    the help articles, and only warns when one of the inserts throws. *)
Definition initializeSampleData : M () :=
  try_catch
    (_ ← insert "users" adminUser;
     _ ← for_each categories
           (λ category, _ ← insert "categories" category; mret ());
     _ ← for_each helpArticles
           (λ article, _ ← insert "help_articles" article; mret ());
     mret ())
    (λ _, mret ()).

Definition basicCollections : list string :=
  [ "users"; "products"; "orders"; "reviews"; "sellers";
    "carts"; "wishlists"; "notifications"; "categories";
    "stores"; "affiliates"; "wallets"; "transactions";
    "crowdCheckouts"; "posts"; "comments"; "liveStreams";
    "blogs"; "pages"; "help_articles"; "returns_refunds";
    "shipping_info"; "contact_submissions"; "marketing_campaigns";
    "affiliate_links"; "commissions"; "product_variants";
    "product_bundles"; "product_addons" ].

(** [init] lists the collections; when that fails for a repository that is
    empty it creates the basic collections and the sample data. *)
Definition init : M () :=
  try_catch
    (_ ← listCollections; mret ())
    (λ message,
       if includes "empty" message || includes "404" message
       then _ ← for_each basicCollections initializeCollection;
            initializeSampleData
       else throw message).

(** The object literal of [register]; the fields of [userData] come last. *)
Definition new_user (userData : record) : record :=
  let role := or_else (prop userData "role") (VStr "customer") in
  spread {[ "email" := prop userData "email";
            "password" := prop userData "password";
            "verified" := VBool false;
            "role" := role;
            "roles" := VArr [role];
            "onboardingCompleted" := VBool false;
            "walletBalance" := VNum 0;
            "businessName" :=
              or_else (prop userData "businessName") (VStr "") ]}
         userData.

(** [register] refuses an [email] that a stored user has. *)
Definition register (userData : record) : M record :=
  users ← get "users";
  match List.find (λ u, strict_equals (prop u "email") (prop userData "email"))
                  users with
  | Some _ => throw "User already exists"
  | None => insert "users" (new_user userData)
  end.

(** [login] finds the first user with the [email] and the [password], mints
    a token and keeps the session under it; the session store comes in and
    goes out. *)
Definition login (credentials : Credentials)
    (sessionStore : gmap string Session)
    : M (Session * gmap string Session) :=
  users ← get "users";
  match List.find (λ u, strict_eq (prop u "email") (email credentials)
                        && strict_eq (prop u "password") (password credentials))
                  users with
  | None => throw "Invalid credentials"
  | Some user =>
      token ← randomUUID;
      created ← Date_now;
      let session := {| token := token; user := user; created := created |} in
      mret (session, <[token := session]> sessionStore)
  end.

(** [users.length > 0 ? users[0] : null]. *)
Definition getCurrentUser : M (option record) :=
  users ← get "users";
  mret (head users).

(** [delete this.sessionStore[token]]. *)
Definition destroySession (token : string)
    (sessionStore : gmap string Session) : gmap string Session :=
  base.delete token sessionStore.
End methods.
End UniversalSDK.

(** ** Notions used in the statements *)

(** A measure for recursion through the fields of nested objects. *)
Fixpoint value_size (v : value) : nat :=
  match v with
  | VArr items => S (foldr (λ x n, value_size x + n)%nat 0%nat items)
  | VObj fields => S (map_fold (λ _ x n, value_size x + n)%nat 0%nat fields)
  | _ => 1%nat
  end.

(** The part of the state that the repository and the network make up. *)
Definition same_repository (σ σ' : state) : Prop :=
  remote σ' = remote σ ∧ revision σ' = revision σ
  ∧ pending σ' = pending σ ∧ trace σ' = trace σ.

(** The part that belongs to this client. *)
Definition same_client (σ σ' : state) : Prop :=
  auditLog σ' = auditLog σ ∧ builders σ' = builders σ
  ∧ uuid_source σ' = uuid_source σ ∧ uuid_drawn σ' = uuid_drawn σ
  ∧ clock σ' = clock σ.

(** The audit log of the collection can be appended to: the collection has
    a log of its own, or its name is not one that [Object.prototype]
    defines. *)
Definition audits (σ : state) (collection : string) : Prop :=
  is_Some (auditLog σ !! collection) ∨ inherited collection = false.

(** The records of a collection as the repository holds them. *)
Definition stored_records (σ : state) (path : string) : list record :=
  default [] (content <$> remote σ !! path).

(** The [id] fields of a collection, record by record. *)
Definition record_ids (data : list record) : list (option value) :=
  (λ x : record, x !! "id") <$> data.

Definition is_write (c : call) : bool :=
  match c with
  | CPut _ _ _ _ _ => true
  | CGet _ _ => false
  end.

(** The number of writes among the requests sent. *)
Definition writes (t : list call) : nat := length (List.filter is_write t).

(** ** Mutating operations *)

(** The four operations that change a collection. *)
Inductive mutation :=
  | Insert (item : record)
  | BulkInsert (items : list record)
  | Update (key : string) (updates : record)
  | Delete (key : string).

(** Run a method for its effects. *)
Definition discard {A} (m : M A) : M () := _ ← m; mret ().

Definition mutate (config : UniversalSDKConfig) (collection : string)
    (m : mutation) : M () :=
  match m with
  | Insert item => discard (UniversalSDK.insert config collection item)
  | BulkInsert items => discard (UniversalSDK.bulkInsert config collection items)
  | Update key updates =>
      discard (UniversalSDK.update config collection key updates)
  | Delete key => discard (UniversalSDK.delete config collection key)
  end.

(** The outcome of a method run for its effects. *)
Definition forget {A} (r : outcome A) : outcome () :=
  match r with
  | Returned _ => Returned ()
  | Thrown message => Thrown message
  | Unmodelled => Unmodelled
  end.

(** A candidate that [validateSchema] lets through. *)
Definition passes_validation (config : UniversalSDKConfig)
    (collection : string) (candidate : record) : Prop :=
  ∀ σ, UniversalSDK.validateSchema config collection candidate σ
       = (σ, Returned ()).

(** What a mutating operation does once [get] has returned: nothing that
    the repository sees, or one [save]; it ends as that [save] does, unless
    [save] returns and [_audit] then throws. *)
Definition one_save {A} (config : UniversalSDKConfig) (collection : string)
    (σ1 σ' : state) (r : outcome A) : Prop :=
  same_repository σ1 σ'
  ∨ ∃ data σp σs rs,
      same_repository σ1 σp
      ∧ UniversalSDK.save config collection data σp = (σs, rs)
      ∧ same_repository σs σ'
      ∧ (rs = forget r
         ∨ rs = Returned () ∧ inherited collection = true
           ∧ forget r = Thrown not_a_function_text).

(** The record that the loop of [bulkInsert] builds for the item at
    position [i]. *)
Definition numbered (config : UniversalSDKConfig) (collection : string)
    (σ : state) (nextId : Z) (i : nat) (item r : record) : Prop :=
  ∃ id, toString (nextId + Z.of_nat i) = Some id
        ∧ r = UniversalSDK.new_item
                (uuid_source σ (uuid_drawn σ + i)%nat) id
                (UniversalSDK.with_defaults config collection item).

(** ** Query builders *)

(** The builder that a chain call returns: nothing recorded. *)
Definition blank_builder (collection : string) (q : outcome (list record))
    : QueryBuilder :=
  {| collection_of := collection; query := q; filters := [];
     sortField := None; sortDir := asc; projectionFields := None |}.

(** The records that a builder holds, up to their order. *)
Definition same_records (q q' : outcome (list record)) : Prop :=
  match q, q' with
  | Returned l, Returned l' => l ≡ₚ l'
  | _, _ => q = q'
  end.

(** The order that a sort direction asks of two numbers. *)
Definition in_order (dir : direction) (m n : Z) : Prop :=
  match dir with
  | asc => m ≤ n
  | desc => n ≤ m
  end.

(** A field that holds a safe integer. *)
Definition integer_field (field : string) (x : record) : Prop :=
  ∃ n, prop x field = VNum n ∧ safe_integer n = true.

(** Records in the order of the integers of a field. *)
Definition ordered_by (field : string) (dir : direction) (l : list record)
    : Prop :=
  StronglySorted
    (λ x y, ∃ m n, prop x field = VNum m ∧ prop y field = VNum n
                   ∧ in_order dir m n) l.

(** ** Invariants of the state *)

(** A method that only moves the state along a relation, however it ends. *)
Definition moves_along (R : relation state) {A} (m : M A) : Prop :=
  ∀ σ σ' r, m σ = (σ', r) → R σ σ'.

(** The files of [σ] are files of [σ']. *)
Definition keeps_files (σ σ' : state) : Prop :=
  ∀ path, is_Some (remote σ !! path) → is_Some (remote σ' !! path).

(** The audit log of a collection. *)
Definition log_of (σ : state) (collection : string) : list AuditLogEntry :=
  default [] (auditLog σ !! collection).

(** Every audit log of [σ'] starts with the one of [σ]. *)
Definition log_grows (σ σ' : state) : Prop :=
  ∀ collection, log_of σ collection `prefix_of` log_of σ' collection.

Definition call_path (c : call) : string :=
  match c with
  | CGet path _ => path
  | CPut path _ _ _ _ => path
  end.

(** The requests sent between [σ] and [σ'] all name [path]. *)
Definition sends_to (path : string) (σ σ' : state) : Prop :=
  ∃ sent, trace σ' = trace σ ++ sent ∧ Forall (λ c, call_path c = path) sent.

(** With nothing pending, nothing is pending afterwards and only the file
    at [path] may have changed. *)
Definition changes_only (path : string) (σ σ' : state) : Prop :=
  pending σ = [] →
  pending σ' = [] ∧ ∀ other, other ≠ path → remote σ' !! other = remote σ !! other.

(** With nothing pending, nothing is pending afterwards. *)
Definition stays_quiet (σ σ' : state) : Prop :=
  pending σ = [] → pending σ' = [].

(** The collection as [get] reads it from the repository. *)
Definition collection_at (config : UniversalSDKConfig) (σ : state)
    (collection : string) : list record :=
  json_records
    (stored_records σ (UniversalSDK.collection_path config collection)).

(** The entry that [_audit] writes in the state [σ]. *)
Definition audit_entry (σ : state) (action : string) (data : record)
    : AuditLogEntry :=
  {| action := action; data := data; timestamp := clock σ |}.

(** Nothing was added to the audit log, and the clock reads the same. *)
Definition same_log (σ σ' : state) : Prop :=
  auditLog σ' = auditLog σ ∧ clock σ' = clock σ.

(** A name without a dot and without a slash. *)
Definition plain_name (s : string) : bool :=
  all_chars (λ c, negb (Ascii.eqb c "." || Ascii.eqb c "/")) s.

(** The test of [login] on one user. *)
Definition signs_in (credentials : Credentials) (u : record) : bool :=
  strict_eq (prop u "email") (email credentials)
  && strict_eq (prop u "password") (password credentials).

(** The [uid] fields of a collection, record by record. *)
Definition record_uids (data : list record) : list (option value) :=
  (λ x : record, x !! "uid") <$> data.

(** ** Example states *)

Definition example_config : UniversalSDKConfig :=
  {| basePath := None;
     schemas := Some {[ "users" := {| required := Some ["email"];
                                      types := None;
                                      defaults := None |} ]} |}.

(** A repository without files, and nothing happening around it. *)
Definition new_state : state :=
  {| auditLog := ∅; builders := []; remote := ∅; revision := 0;
     pending := []; trace := [];
     uuid_source := λ n, "uuid-" +:+ pretty n; uuid_drawn := 0;
     clock := 0 |}.

(** A repository that holds one collection, and the events to come. *)
Definition state_with (path : string) (records : list record)
    (events : list event) : state :=
  {| auditLog := ∅; builders := [];
     remote := {[ path := {| content := records; sha := 1 |} ]};
     revision := 1; pending := events; trace := [];
     uuid_source := λ n, "uuid-" +:+ pretty n; uuid_drawn := 0;
     clock := 0 |}.

(** The records of the example of the specification. *)
Definition three_records : list record :=
  [ {[ "a" := VNum 3 ]}; {[ "a" := VNum 1 ]}; {[ "a" := VNum 2 ]} ].

(** [r => r.a > 1]. *)
Definition a_above_1 (r : record) : bool :=
  match prop r "a" with
  | VNum n => 1 <? n
  | _ => false
  end.

(** ** Statements of the specification that the code does not meet *)

(** C1 as the specification states it: the write of a mutating operation
    names the version that the operation's first fetch of the collection
    observed, and fails with the conflict error if the file is no longer at
    that version when the write arrives. *)
Definition write_names_initial_version (config : UniversalSDKConfig)
    (σ : state) (collection : string) (m : mutation) : Prop :=
  let path := UniversalSDK.collection_path config collection in
  ∀ σ' r v rest,
    mutate config collection m σ = (σ', r) →
    trace σ' = trace σ ++ CGet path (Some v) :: rest →
    ∀ data expected found accepted,
      CPut path data expected found accepted ∈ rest →
      expected = Some v
      ∧ (found ≠ Some v → accepted = false ∧ r = Thrown conflict_text).

(** C2 as the specification states it, at its own example: the chained
    calls on the records [{a:3},{a:1},{a:2}]. *)
Definition chained_examples_hold (config : UniversalSDKConfig) : Prop :=
  let σ := state_with (UniversalSDK.collection_path config "items")
             three_records [] in
  ((qb ← UniversalSDK.queryBuilder config "items";
    qb ← UniversalSDK.sort config qb "a" asc;
    UniversalSDK.exec qb) σ).2
  = Returned
      (held <$> [ {[ "a" := VNum 1 ]}; {[ "a" := VNum 2 ]}; {[ "a" := VNum 3 ]} ])
  ∧ ((qb ← UniversalSDK.queryBuilder config "items";
      qb ← UniversalSDK.where_ config qb a_above_1;
      qb ← UniversalSDK.project config qb ["a"];
      UniversalSDK.exec qb) σ).2
    = Returned (held <$> [ {[ "a" := VNum 2 ]}; {[ "a" := VNum 3 ]} ]).

(** C3 as the specification states it: creating the builder fetches
    nothing, and every [exec] sends a fetch of its own. *)
Definition fetch_waits_for_exec (config : UniversalSDKConfig) (σ : state)
    (collection : string) : Prop :=
  let path := UniversalSDK.collection_path config collection in
  ∀ σ1 qb,
    UniversalSDK.queryBuilder config collection σ = (σ1, Returned qb) →
    trace σ1 = trace σ
    ∧ ∀ σ2 r, UniversalSDK.exec qb σ1 = (σ2, r) →
        ∃ o, trace σ2 = trace σ1 ++ [CGet path o].

(** C4 as the specification states it: the record that [insert] returns has
    the next number as its [id], and afterwards no two records of the
    collection share an [id]. *)
Definition insert_numbers_the_record (config : UniversalSDKConfig)
    (σ : state) (collection : string) (item : record) : Prop :=
  let path := UniversalSDK.collection_path config collection in
  ∀ σ' newItem,
    UniversalSDK.insert config collection item σ = (σ', Returned newItem) →
    ∃ ns id,
      mapM id_or_zero (stored_records σ path) = Some ns
      ∧ toString (Math_max0 ns + 1) = Some id
      ∧ newItem !! "id" = Some (VStr id)
      ∧ NoDup (record_ids (stored_records σ' path)).

(** C5 as the specification states it: the records that [bulkInsert]
    returns carry the run of numbers that starts at the next id, in the
    order of the items, and the operation performs exactly one write. *)
Definition bulkInsert_writes_once (config : UniversalSDKConfig)
    (σ : state) (collection : string) (items : list record) : Prop :=
  let path := UniversalSDK.collection_path config collection in
  ∀ σ' results,
    UniversalSDK.bulkInsert config collection items σ = (σ', Returned results) →
    (∃ start, next_id (stored_records σ path) = Some start
              ∧ ∀ i r, results !! i = Some r →
                  ∃ id, toString (start + Z.of_nat i) = Some id
                        ∧ r !! "id" = Some (VStr id))
    ∧ writes (trace σ') = S (writes (trace σ)).

(** C6 as the specification states it: [get] on a collection that was never
    written returns the empty sequence and leaves the file of the empty
    collection behind, and a read that fails for another reason than the
    file being absent fails the call. *)
Definition get_creates_or_fails (config : UniversalSDKConfig) (σ : state)
    (collection : string) : Prop :=
  let path := UniversalSDK.collection_path config collection in
  (remote σ !! path = None →
     ∃ σ' b, UniversalSDK.get config collection σ = (σ', Returned [])
             ∧ remote σ' !! path = Some b ∧ content b = [])
  ∧ (∀ σ1 msg,
       request path GET σ = (σ1, Thrown msg) → msg ≠ not_found_text →
       UniversalSDK.get config collection σ = (σ1, Thrown msg)).

(** C7 as the specification states it: a required field is missing on the
    candidate, so [insert] fails with the error that names the collection
    and a missing field, and the repository is not written. *)
Definition missing_field_leaves_repository (config : UniversalSDKConfig)
    (σ : state) (collection : string) (item : record) : Prop :=
  ∀ schema fields f,
    UniversalSDK.this_schemas config !! collection = Some schema →
    required schema = Some fields →
    f ∈ fields →
    is_missing f (UniversalSDK.with_defaults config collection item) = true →
    ∃ σ' g,
      UniversalSDK.insert config collection item σ
      = (σ', Thrown (required_message g collection))
      ∧ remote σ' = remote σ.


(** * Properties of the value model *)

Lemma value_size_item (items : list value) (x : value) :
  x ∈ items → (value_size x < value_size (VArr items))%nat.
Proof.
  induction 1 as [x l | x y l _ IH]; simpl in *; lia.
Qed.

Lemma value_size_field (fields : gmap string value) (k : string) (x : value) :
  fields !! k = Some x → (value_size x < value_size (VObj fields))%nat.
Proof.
  intros Hk. simpl.
  rewrite (map_fold_delete_L _ _ k x fields); [lia | | done].
  intros. lia.
Qed.

Lemma json_field_json (v : value) : json_field (json v) = Some (json (json v)).
Proof. by destruct v. Qed.

Lemma json_idempotent (v : value) : json (json v) = json v.
Proof.
  remember (value_size v) as n eqn:Hn.
  revert v Hn. induction (lt_wf n) as [n _ IH]. intros v ->.
  destruct v as [| | b | z | s | items | fields]; simpl; try done.
  - f_equal. rewrite <- list_fmap_compose. apply list_fmap_ext.
    intros i x Hx. simpl.
    eapply IH; [| done]. apply value_size_item. by eapply list_elem_of_lookup_2.
  - f_equal. apply map_eq. intros k. rewrite !lookup_omap.
    destruct (fields !! k) as [x|] eqn:Hk; simpl; [| done].
    destruct x as [| | b | z | s | items | fs]; simpl; try done.
    + f_equal. change (json (json (VArr items)) = json (VArr items)).
      eapply IH; [| done]. by eapply value_size_field.
    + f_equal. change (json (json (VObj fs)) = json (VObj fs)).
      eapply IH; [| done]. by eapply value_size_field.
Qed.

Lemma json_field_idempotent (v : value) :
  json_field v ≫= json_field = json_field v.
Proof.
  destruct v; try done;
    cbn [json_field mbind option_bind];
    by rewrite json_field_json, json_idempotent.
Qed.

Lemma json_record_idempotent (item : record) :
  json_record (json_record item) = json_record item.
Proof.
  apply map_eq. intros k. unfold json_record. rewrite !lookup_omap.
  destruct (item !! k) as [x|]; simpl; [| done].
  apply json_field_idempotent.
Qed.

Lemma json_records_idempotent (data : list record) :
  json_records (json_records data) = json_records data.
Proof.
  unfold json_records. rewrite <- list_fmap_compose.
  apply list_fmap_ext. intros i x _. apply json_record_idempotent.
Qed.

(** * Properties of the conversions *)

Lemma is_digit_not_space (c : ascii) : is_digit c = true → is_space c = false.
Proof.
  unfold is_digit, is_space. intros H.
  apply andb_true_iff in H as [H1 H2].
  apply Nat.leb_le in H1, H2.
  apply orb_false_iff. split.
  - apply Nat.eqb_neq. lia.
  - apply andb_false_iff. right. apply Nat.leb_gt. lia.
Qed.

Lemma trim_end_no_space (s : string) :
  all_chars (λ c, negb (is_space c)) s = true → trim_end s = s.
Proof.
  induction s as [| c rest IH]; simpl; [done |].
  intros [Hc Hrest]%andb_true_iff. rewrite IH by done.
  destruct rest; [| done].
  by apply negb_true_iff in Hc as ->.
Qed.

Lemma all_chars_impl (p q : ascii → bool) (s : string) :
  (∀ c, p c = true → q c = true) →
  all_chars p s = true → all_chars q s = true.
Proof.
  intros Hpq. induction s as [| c rest IH]; simpl; [done |].
  intros [Hc Hrest]%andb_true_iff. by rewrite (Hpq c Hc), IH.
Qed.

Lemma trim_digits (s : string) : all_chars is_digit s = true → trim s = s.
Proof.
  intros Hs. unfold trim.
  assert (trim_start s = s) as ->.
  { destruct s as [| c rest]; simpl in *; [done |].
    apply andb_true_iff in Hs as [Hc _].
    by rewrite (is_digit_not_space c Hc). }
  apply trim_end_no_space. revert Hs. apply all_chars_impl.
  intros c Hc. by rewrite (is_digit_not_space c Hc).
Qed.

Lemma string_of_uint_digits (d : Decimal.uint) :
  all_chars is_digit (NilEmpty.string_of_uint d) = true.
Proof. induction d; simpl; try done; by rewrite IHd. Qed.

Lemma string_of_uint_nonempty (d : Decimal.uint) :
  d ≠ Decimal.Nil → NilEmpty.string_of_uint d ≠ EmptyString.
Proof. by destruct d. Qed.

Lemma N_to_uint_nonnil (n : N) : N.to_uint n ≠ Decimal.Nil.
Proof.
  destruct n as [| p]; simpl; [done |]. apply DecimalPos.Unsigned.to_uint_nonnil.
Qed.

Lemma digits_decimal (d : Decimal.uint) :
  d ≠ Decimal.Nil →
  digits (NilEmpty.string_of_uint d) = Some (Z.of_N (N.of_uint d)).
Proof.
  intros Hd. unfold digits.
  destruct (NilEmpty.string_of_uint d) eqn:Hs.
  - by apply string_of_uint_nonempty in Hs.
  - by rewrite <- Hs, string_of_uint_digits, NilEmpty.usu.
Qed.

(** A decimal numeral without sign reads back as the number it renders. *)
Lemma string_to_number_decimal (n : Z) :
  0 ≤ n → safe_integer n = true →
  string_to_number (NilEmpty.string_of_uint (N.to_uint (Z.to_N n)))
  = Some (Int n).
Proof.
  intros Hn Hsafe. set (d := N.to_uint (Z.to_N n)).
  pose proof (string_of_uint_digits d) as Hd.
  pose proof (digits_decimal d (N_to_uint_nonnil _)) as Hval.
  pose proof (string_of_uint_nonempty d (N_to_uint_nonnil _)) as Hne.
  unfold string_to_number. rewrite (trim_digits _ Hd).
  destruct (NilEmpty.string_of_uint d) as [| c rest] eqn:Hs; [done |].
  assert (is_digit c = true) as Hc.
  { simpl in Hd. by apply andb_true_iff in Hd as [? _]. }
  assert (c ≠ "+"%char ∧ c ≠ "-"%char) as [Hplus Hminus].
  { split; intros ->; done. }
  rewrite !bool_decide_eq_false_2 by done.
  unfold unsigned_literal, starts_numeral. rewrite Hc, Hval. simpl.
  unfold d. rewrite DecimalN.Unsigned.of_to, Z2N.id by done.
  unfold exact. replace (1 * n) with n by lia. by rewrite Hsafe.
Qed.

Lemma toString_to_number (n : Z) (s : string) :
  0 ≤ n → toString n = Some s → to_number (VStr s) = Some (Int n).
Proof.
  unfold toString. intros Hn Hs.
  destruct (safe_integer n) eqn:Hsafe; [| done].
  destruct n as [| p | p]; [| | lia]; injection Hs as <-.
  - by apply (string_to_number_decimal 0).
  - by apply (string_to_number_decimal (Z.pos p)).
Qed.

Lemma Math_max0_nonneg (ns : list Z) : 0 ≤ Math_max0 ns.
Proof. induction ns; simpl; lia. Qed.

Lemma Math_max0_bound (ns : list Z) (n : Z) : n ∈ ns → n ≤ Math_max0 ns.
Proof. induction 1; simpl; lia. Qed.

(** What [+x.id || 0] is for the ids the store meets: a record without [id]
    counts as 0, an [id] that is a decimal numeral counts as its number,
    and an [id] whose text cannot start a numeral counts as 0. *)
Lemma id_or_zero_absent (x : record) : x !! "id" = None → id_or_zero x = Some 0.
Proof. intros Hid. unfold id_or_zero, prop. by rewrite Hid. Qed.

Lemma id_or_zero_decimal (x : record) (n : Z) (s : string) :
  0 ≤ n → toString n = Some s → x !! "id" = Some (VStr s) →
  id_or_zero x = Some n.
Proof.
  intros Hn Hs Hid. unfold id_or_zero, prop. rewrite Hid. simpl default.
  by rewrite (toString_to_number n s Hn Hs).
Qed.

Lemma id_or_zero_text (x : record) (s rest : string) (c : ascii) :
  x !! "id" = Some (VStr s) → trim s = String c rest →
  c ≠ "+"%char → c ≠ "-"%char → starts_numeral c = false →
  id_or_zero x = Some 0.
Proof.
  intros Hid Htrim Hplus Hminus Hc. unfold id_or_zero, prop.
  rewrite Hid. simpl. unfold string_to_number. rewrite Htrim.
  rewrite !bool_decide_eq_false_2 by done.
  unfold unsigned_literal. by rewrite Hc.
Qed.

(** * Running a method *)

Lemma bind_run {A B} (m : M A) (k : A → M B) (σ σ1 : state) (a : A) :
  m σ = (σ1, Returned a) → (m ≫= k) σ = k a σ1.
Proof. unfold mbind, M_bind. by intros ->. Qed.

Lemma bind_thrown {A B} (m : M A) (k : A → M B) (σ σ1 : state) (msg : string) :
  m σ = (σ1, Thrown msg) → (m ≫= k) σ = (σ1, Thrown msg).
Proof. unfold mbind, M_bind. by intros ->. Qed.

Lemma bind_unmodelled {A B} (m : M A) (k : A → M B) (σ σ1 : state) :
  m σ = (σ1, Unmodelled) → (m ≫= k) σ = (σ1, Unmodelled).
Proof. unfold mbind, M_bind. by intros ->. Qed.

Lemma bind_returned_inv {A B} (m : M A) (k : A → M B) (σ σ' : state) (b : B) :
  (m ≫= k) σ = (σ', Returned b) →
  ∃ σ1 a, m σ = (σ1, Returned a) ∧ k a σ1 = (σ', Returned b).
Proof.
  unfold mbind, M_bind. destruct (m σ) as [σ1 [a | msg |]]; [eauto | done..].
Qed.

Lemma decided_returned_inv {A} (o : option A) (σ σ' : state) (a : A) :
  decided o σ = (σ', Returned a) → o = Some a ∧ σ' = σ.
Proof. unfold decided. destruct o; naive_solver. Qed.

Lemma bind_inv {A B} (m : M A) (k : A → M B) (σ σ' : state) (r : outcome B) :
  (m ≫= k) σ = (σ', r) →
  (∃ σ1 a, m σ = (σ1, Returned a) ∧ k a σ1 = (σ', r))
  ∨ (∃ msg, m σ = (σ', Thrown msg) ∧ r = Thrown msg)
  ∨ (m σ = (σ', Unmodelled) ∧ r = Unmodelled).
Proof.
  unfold mbind, M_bind. destruct (m σ) as [σ1 [a | msg |]].
  - left. eauto.
  - intros [= <- <-]. right. left. eauto.
  - intros [= <- <-]. right. right. eauto.
Qed.

Lemma decided_state {A} (o : option A) (σ σ' : state) (r : outcome A) :
  decided o σ = (σ', r) → σ' = σ.
Proof. unfold decided. by destruct o; intros [= <-]. Qed.

Lemma discard_inv {A} (m : M A) (σ σ' : state) (r : outcome ()) :
  discard m σ = (σ', r) → ∃ r0, m σ = (σ', r0) ∧ r = forget r0.
Proof.
  unfold discard, mbind, M_bind, mret, M_ret.
  destruct (m σ) as [σ1 [a | msg |]]; intros [= <- <-]; eauto.
Qed.

Lemma arrive_client (σ : state) : same_client σ (arrive σ).1.
Proof.
  unfold same_client, arrive.
  destruct (pending σ) as [| [| msg | path d] rest]; simpl; repeat split.
Qed.

Lemma arrive_trace (σ : state) : trace (arrive σ).1 = trace σ.
Proof.
  unfold arrive. by destruct (pending σ) as [| [| msg | path d] rest].
Qed.

Lemma arrive_fault (σ : state) (msg : string) :
  (arrive σ).2 = Some msg → Fault msg ∈ pending σ.
Proof.
  unfold arrive. destruct (pending σ) as [| [| msg' | path d] rest]; simpl;
    try done.
  intros [= ->]. left.
Qed.

Lemma arrive_pending (σ : state) : pending (arrive σ).1 = tail (pending σ).
Proof.
  unfold arrive. by destruct (pending σ) as [| [| msg | path d] rest] eqn:H.
Qed.

(** With nothing pending a request finds the repository as it is. *)
Lemma arrive_quiet (σ : state) : pending σ = [] → arrive σ = (σ, None).
Proof. unfold arrive. by intros ->. Qed.

(** What a read does: the next event takes place, the call is logged. *)
Lemma request_GET_inv (path : string) (σ σ' : state) (r : outcome blob) :
  request path GET σ = (σ', r) →
  ∃ o, σ' = log_call (CGet path o) (arrive σ).1
    ∧ ((∃ b, r = Returned b ∧ o = Some (sha b)
              ∧ remote (arrive σ).1 !! path = Some b)
       ∨ (∃ msg, r = Thrown msg ∧ o = None
              ∧ ((arrive σ).2 = Some msg
                 ∨ ((arrive σ).2 = None ∧ msg = not_found_text
                    ∧ remote (arrive σ).1 !! path = None)))).
Proof.
  unfold request. destruct (arrive σ) as [σ1 [msg |]]; simpl.
  - intros [= <- <-]. exists None. naive_solver.
  - destruct (remote σ1 !! path) as [b |] eqn:Hb; intros [= <- <-].
    + exists (Some (sha b)). naive_solver.
    + exists None. naive_solver.
Qed.

(** What a write does. *)
Lemma request_PUT_inv (path : string) (body : put_body) (σ σ' : state)
    (r : outcome blob) :
  request path (PUT body) σ = (σ', r) →
  let σw := (arrive σ).1 in
  let d := body_content body in
  let e := body_sha body in
  let found := sha <$> remote σw !! path in
  (∃ b, r = Returned b
        ∧ σ' = log_call (CPut path d e found true) (store path d σw)
        ∧ accepts (remote σw !! path) e = true)
  ∨ (∃ msg, r = Thrown msg
        ∧ σ' = log_call (CPut path d e found false) σw
        ∧ (msg = conflict_text ∧ accepts (remote σw !! path) e = false
           ∨ Fault msg ∈ pending σ)).
Proof.
  unfold request. pose proof (arrive_fault σ) as Hfault.
  destruct (arrive σ) as [σ1 [msg |]]; simpl in *.
  - intros [= <- <-]. naive_solver.
  - destruct (accepts (remote σ1 !! path) (body_sha body)) eqn:Hacc;
      intros [= <- <-]; naive_solver.
Qed.

(** [_audit] returns where the log can be appended to, and changes nothing
    but the log. *)
Lemma audit_returns (collection : string) (data : record) (action : string)
    (σ : state) :
  audits σ collection →
  ∃ σ', UniversalSDK._audit collection data action σ = (σ', Returned ())
        ∧ remote σ' = remote σ ∧ revision σ' = revision σ
        ∧ pending σ' = pending σ ∧ trace σ' = trace σ
        ∧ builders σ' = builders σ ∧ uuid_source σ' = uuid_source σ
        ∧ uuid_drawn σ' = uuid_drawn σ ∧ clock σ' = clock σ
        ∧ is_Some (auditLog σ' !! collection).
Proof.
  intros Haudits. unfold UniversalSDK._audit.
  destruct (auditLog σ !! collection) as [entries |] eqn:Hlog.
  - eexists. split; [done |]. simpl. rewrite lookup_insert_eq.
    by repeat split.
  - destruct Haudits as [[? Hsome] | ->]; [congruence |].
    eexists. split; [done |]. simpl. rewrite lookup_insert_eq.
    by repeat split.
Qed.

(** Otherwise it throws and changes nothing. *)
Lemma audit_inv (collection : string) (data : record) (action : string)
    (σ σ' : state) (r : outcome ()) :
  UniversalSDK._audit collection data action σ = (σ', r) →
  (r = Returned () ∧ audits σ collection
   ∧ σ' = with_auditLog
            (<[collection := log_of σ collection ++ [audit_entry σ action data]]>
               (auditLog σ)) σ)
  ∨ (r = Thrown not_a_function_text ∧ σ' = σ
     ∧ auditLog σ !! collection = None ∧ inherited collection = true).
Proof.
  unfold UniversalSDK._audit, audits, log_of, audit_entry.
  destruct (auditLog σ !! collection) as [entries |] eqn:Hlog.
  - intros [= <- <-]. left. eauto.
  - destruct (inherited collection); intros [= <- <-]; [by right | left; eauto].
Qed.

(** Either way it leaves everything but the log as it was. *)
Lemma audit_state (collection : string) (data : record) (action : string)
    (σ : state) :
  let σ' := (UniversalSDK._audit collection data action σ).1 in
  remote σ' = remote σ ∧ revision σ' = revision σ
  ∧ pending σ' = pending σ ∧ trace σ' = trace σ
  ∧ builders σ' = builders σ ∧ uuid_source σ' = uuid_source σ
  ∧ uuid_drawn σ' = uuid_drawn σ ∧ clock σ' = clock σ.
Proof.
  unfold UniversalSDK._audit.
  destruct (auditLog σ !! collection); [done |].
  by destruct (inherited collection).
Qed.

Lemma audit_remote (collection : string) (data : record) (action : string)
    (σ : state) :
  remote (UniversalSDK._audit collection data action σ).1 = remote σ.
Proof. apply audit_state. Qed.

Lemma audit_trace (collection : string) (data : record) (action : string)
    (σ : state) :
  trace (UniversalSDK._audit collection data action σ).1 = trace σ.
Proof. apply audit_state. Qed.

Lemma audit_pending (collection : string) (data : record) (action : string)
    (σ : state) :
  pending (UniversalSDK._audit collection data action σ).1 = pending σ.
Proof. apply audit_state. Qed.

Lemma audit_uuid_drawn (collection : string) (data : record)
    (action : string) (σ : state) :
  uuid_drawn (UniversalSDK._audit collection data action σ).1 = uuid_drawn σ.
Proof. apply audit_state. Qed.

Lemma audit_uuid_source (collection : string) (data : record)
    (action : string) (σ : state) :
  uuid_source (UniversalSDK._audit collection data action σ).1 = uuid_source σ.
Proof. apply audit_state. Qed.

Lemma audit_clock (collection : string) (data : record)
    (action : string) (σ : state) :
  clock (UniversalSDK._audit collection data action σ).1 = clock σ.
Proof. apply audit_state. Qed.

(** What it does where it returns. *)
Lemma audit_run_returned (collection : string) (data : record)
    (action : string) (σ : state) :
  audits σ collection →
  UniversalSDK._audit collection data action σ
  = (with_auditLog
       (<[collection := log_of σ collection ++ [audit_entry σ action data]]>
          (auditLog σ)) σ,
     Returned ()).
Proof.
  intros Haudits.
  destruct (UniversalSDK._audit collection data action σ) as [σ' r] eqn:Hrun.
  apply audit_inv in Hrun as [(-> & _ & ->) | (_ & _ & Hlog & Hname)]; [done |].
  destruct Haudits as [[? Hsome] | Hplain]; congruence.
Qed.

(** Once it has returned, it returns. *)
Lemma audits_after (collection : string) (entries : list AuditLogEntry)
    (σ : state) :
  audits (with_auditLog (<[collection := entries]> (auditLog σ)) σ) collection.
Proof. left. simpl. rewrite lookup_insert_eq. by eexists. Qed.

Lemma audit_repository (collection : string) (data : record)
    (action : string) (σ : state) :
  same_repository σ (UniversalSDK._audit collection data action σ).1.
Proof.
  destruct (audit_state collection data action σ) as (? & ? & ? & ? & _).
  by repeat split.
Qed.

Lemma audit_run_repository (collection : string) (data : record)
    (action : string) (σ σ' : state) (r : outcome ()) :
  UniversalSDK._audit collection data action σ = (σ', r) →
  same_repository σ σ'.
Proof.
  intros Hrun. pose proof (audit_repository collection data action σ) as H.
  by rewrite Hrun in H.
Qed.

Lemma audits_same_log (σ σ' : state) (collection : string) :
  auditLog σ' = auditLog σ → audits σ collection → audits σ' collection.
Proof. unfold audits. by intros ->. Qed.

Lemma same_client_trans (σ1 σ2 σ3 : state) :
  same_client σ1 σ2 → same_client σ2 σ3 → same_client σ1 σ3.
Proof.
  intros (Ha & Hb & Hs & Hd & Hc) (Ha' & Hb' & Hs' & Hd' & Hc').
  unfold same_client. by rewrite Ha', Hb', Hs', Hd', Hc'.
Qed.

Lemma tail_elem_of {A} (x : A) (l : list A) : x ∈ tail l → x ∈ l.
Proof. destruct l; [done |]. simpl. by right. Qed.

(** * [save] and [get] *)

(** The write of [save], sent from the state [σg] that its read left. *)
Lemma save_write_inv (path : string) (data : list record) (o : option nat)
    (σ σg σ' : state) (r : outcome ()) :
  same_client σ σg →
  trace σg = trace σ ++ [CGet path o] →
  pending σg = tail (pending σ) →
  (_ ← request path (PUT {| body_content := data; body_sha := o |});
   mret ()) σg = (σ', r) →
  ∃ found ok,
    trace σ' = trace σ ++ [CGet path o; CPut path data o found ok]
    ∧ same_client σ σ'
    ∧ (ok = true →
         r = Returned ()
         ∧ remote σ' !! path
           = Some {| content := json_records data; sha := revision σ' |}
         ∧ ∀ v, o = Some v → found = Some v)
    ∧ (ok = false →
         (∃ msg, r = Thrown msg
                 ∧ (msg = conflict_text ∨ Fault msg ∈ pending σ))
         ∧ sha <$> remote σ' !! path = found).
Proof.
  intros Hcg Htg Hpg. unfold mbind, M_bind, mret, M_ret.
  destruct (request path (PUT _) σg) as [σp rp] eqn:Hp.
  apply request_PUT_inv in Hp. simpl in Hp.
  destruct Hp as [(b & -> & -> & Hacc) | (msg & -> & -> & Hmsg)];
    intros [= <- <-].
  - eexists _, true. split_and!.
    + simpl. rewrite arrive_trace, Htg. by rewrite <- (assoc_L (++)).
    + eapply same_client_trans; [exact Hcg |]. apply arrive_client.
    + intros _. split_and!; [done | simpl; by rewrite lookup_insert_eq |].
      intros v ->. unfold accepts in Hacc.
      destruct (remote (arrive σg).1 !! path) as [b' |]; [| done].
      simpl. by apply bool_decide_eq_true in Hacc as ->.
    + done.
  - eexists _, false. split_and!.
    + simpl. rewrite arrive_trace, Htg. by rewrite <- (assoc_L (++)).
    + eapply same_client_trans; [exact Hcg |]. apply arrive_client.
    + done.
    + intros _. split; [| done]. exists msg. split; [done |].
      destruct Hmsg as [[-> _] | Hin]; [by left | right].
      apply tail_elem_of. by rewrite <- Hpg.
Qed.

Section store_lemmas.
Context (config : UniversalSDKConfig).
Abbreviation path_of := (UniversalSDK.collection_path config).
Abbreviation save := (UniversalSDK.save config).
Abbreviation get := (UniversalSDK.get config).

(** [save] sends a read and then a write that names the version the read
    came back with; the write takes effect only if the repository accepts
    it, and the file then holds the data as JSON renders them. *)
Lemma save_inv (collection : string) (data : list record) (σ σ' : state)
    (r : outcome ()) :
  save collection data σ = (σ', r) →
  ∃ o found ok,
    trace σ' = trace σ
               ++ [CGet (path_of collection) o;
                   CPut (path_of collection) data o found ok]
    ∧ same_client σ σ'
    ∧ (ok = true →
         r = Returned ()
         ∧ remote σ' !! path_of collection
           = Some {| content := json_records data; sha := revision σ' |}
         ∧ ∀ v, o = Some v → found = Some v)
    ∧ (ok = false →
         (∃ msg, r = Thrown msg
                 ∧ (msg = conflict_text ∨ Fault msg ∈ pending σ))
         ∧ sha <$> remote σ' !! path_of collection = found).
Proof.
  unfold UniversalSDK.save. intros Hsave.
  destruct (request (path_of collection) GET σ) as [σg rg] eqn:Hget.
  pose proof Hget as (o & -> & Ho)%request_GET_inv.
  exists o.
  apply (save_write_inv _ _ o σ
           (log_call (CGet (path_of collection) o) (arrive σ).1)).
  - apply arrive_client.
  - simpl. by rewrite arrive_trace.
  - apply arrive_pending.
  - unfold mbind, M_bind, mret, M_ret, try_catch in *.
    rewrite Hget in Hsave.
    destruct Ho as [(b & -> & -> & _) | (msg & -> & -> & _)]; done.
Qed.

Lemma save_never_unmodelled (collection : string) (data : list record)
    (σ : state) :
  (save collection data σ).2 ≠ Unmodelled.
Proof.
  destruct (save collection data σ) as [σ' r] eqn:Hsave.
  apply save_inv in Hsave as (o & found & [|] & _ & _ & Hok & Hno); simpl.
  - by destruct (Hok eq_refl) as [-> _].
  - by destruct (Hno eq_refl) as [(msg & -> & _) _].
Qed.

(** [initializeCollection] swallows whatever [save] throws. *)
Lemma initializeCollection_run (collection : string) (σ : state) :
  UniversalSDK.initializeCollection config collection σ
  = ((save collection [] σ).1, Returned ()).
Proof.
  unfold UniversalSDK.initializeCollection, try_catch.
  pose proof (save_never_unmodelled collection [] σ) as Hne.
  destruct (save collection [] σ) as [σ' [[] | msg |]]; done.
Qed.

Lemma get_found (collection : string) (σ σ1 : state) (b : blob) :
  request (path_of collection) GET σ = (σ1, Returned b) →
  get collection σ = (σ1, Returned (json_records (content b))).
Proof.
  intros Hreq. unfold UniversalSDK.get, try_catch, mbind, M_bind.
  by rewrite Hreq.
Qed.

Lemma get_failed (collection : string) (σ σ1 : state) (msg : string) :
  request (path_of collection) GET σ = (σ1, Thrown msg) →
  get collection σ
  = if treated_as_missing msg
    then ((save collection [] σ1).1, Returned [])
    else (σ1, Thrown msg).
Proof.
  intros Hreq. unfold UniversalSDK.get, try_catch, mbind, M_bind.
  rewrite Hreq. unfold treated_as_missing.
  destruct (includes "404" msg || includes "empty" msg); [| done].
  by rewrite initializeCollection_run.
Qed.

(** What [get] returns was parsed from JSON. *)
Lemma get_json (collection : string) (σ σ1 : state) (arr : list record) :
  get collection σ = (σ1, Returned arr) → json_records arr = arr.
Proof.
  destruct (request (path_of collection) GET σ) as [σg rg] eqn:Hreq.
  pose proof Hreq as (o & _ & [(b & -> & _) | (msg & -> & _)])%request_GET_inv.
  - rewrite (get_found _ _ _ _ Hreq). intros [= _ <-].
    apply json_records_idempotent.
  - rewrite (get_failed _ _ _ _ Hreq).
    destruct (treated_as_missing msg); by intros [= _ <-].
Qed.
End store_lemmas.

(** * Lookup by key *)

Lemma findIndex_None (key : string) (arr : list record) :
  findIndex key arr = None ↔ ∀ x, x ∈ arr → matches key x = false.
Proof.
  unfold findIndex. rewrite fmap_None, list_find_None, Forall_forall.
  split; intros H x Hx; specialize (H x Hx).
  - by destruct (matches key x).
  - rewrite H. by intros [].
Qed.

Lemma findIndex_Some (key : string) (arr : list record) (index : nat) :
  findIndex key arr = Some index →
  ∃ x, arr !! index = Some x ∧ matches key x = true
       ∧ ∀ j y, arr !! j = Some y → (j < index)%nat → matches key y = false.
Proof.
  unfold findIndex. intros ([i x] & Hfind & [= ->])%fmap_Some.
  apply list_find_Some in Hfind as (Hx & Hm & Hfirst).
  exists x. split_and!; [done | by destruct (matches key x) |].
  intros j y Hy Hj. specialize (Hfirst j y Hy Hj).
  by destruct (matches key y).
Qed.

(** * Update and delete of a key that is not there *)




(** * Validation *)

Lemma same_repository_refl (σ : state) : same_repository σ σ.
Proof. by unfold same_repository. Qed.

Lemma same_repository_trans (σ1 σ2 σ3 : state) :
  same_repository σ1 σ2 → same_repository σ2 σ3 → same_repository σ1 σ3.
Proof.
  intros (Hr & Hv & Hp & Ht) (Hr' & Hv' & Hp' & Ht').
  unfold same_repository. by rewrite Hr', Hv', Hp', Ht'.
Qed.

(** A field is missing when the candidate neither has it nor inherits it
    from [Object.prototype], or holds [undefined] or [null] in it. *)
Lemma is_missing_true (f : string) (item : record) :
  is_missing f item = true
  ↔ (item !! f = None ∧ inherited f = false)
    ∨ item !! f = Some VUndefined ∨ item !! f = Some VNull.
Proof.
  unfold is_missing, has_field, member_of.
  destruct (item !! f) as [v |]; simpl.
  - destruct v; naive_solver.
  - destruct (inherited f); naive_solver.
Qed.

(** So a required field named like a member of [Object.prototype] is
    there on every candidate that does not hold [undefined] or [null] in
    it. *)
Lemma inherited_field_is_not_missing :
  is_missing "toString" ∅ = false
  ∧ is_missing "email" ∅ = true
  ∧ is_missing "toString" {[ "toString" := VNull ]} = true.
Proof. vm_compute. done. Qed.

(** The loop stops at the first required field that is missing. *)
Lemma check_required_run (collection : string) (fields : list string)
    (item : record) (σ : state) :
  UniversalSDK.check_required collection fields item σ
  = (σ, match List.find (λ f, is_missing f item) fields with
        | Some g => Thrown (required_message g collection)
        | None => Returned ()
        end).
Proof.
  induction fields as [| f rest IH]; simpl; [done |].
  by destruct (is_missing f item).
Qed.

Section validation.
Context (config : UniversalSDKConfig) (collection : string).
Context (schema : SchemaDefinition) (fields : list string).
Hypothesis registered : UniversalSDK.this_schemas config !! collection = Some schema.
Hypothesis declared : required schema = Some fields.

Lemma validateSchema_throws (item : record) (f : string) (σ : state) :
  f ∈ fields → is_missing f item = true →
  ∃ g, g ∈ fields ∧ is_missing g item = true
       ∧ UniversalSDK.validateSchema config collection item σ
         = (σ, Thrown (required_message g collection)).
Proof using registered declared.
  intros Hf Hmiss. unfold UniversalSDK.validateSchema.
  rewrite registered, declared, check_required_run.
  destruct (List.find _ fields) as [g |] eqn:Hfind.
  - apply find_some in Hfind as [Hg Hgm]. exists g.
    by rewrite <- list_elem_of_In in Hg.
  - apply list_elem_of_In in Hf.
    by rewrite (find_none _ _ Hfind f Hf) in Hmiss.
Qed.

Lemma validateSchema_cases (item : record) (σ : state) :
  UniversalSDK.validateSchema config collection item σ = (σ, Returned ())
  ∧ (∀ f, f ∈ fields → is_missing f item = false)
  ∨ ∃ g, g ∈ fields ∧ is_missing g item = true
         ∧ UniversalSDK.validateSchema config collection item σ
           = (σ, Thrown (required_message g collection)).
Proof using registered declared.
  unfold UniversalSDK.validateSchema.
  rewrite registered, declared, check_required_run.
  destruct (List.find _ fields) as [g |] eqn:Hfind.
  - right. apply find_some in Hfind as [Hg Hgm]. exists g.
    by rewrite <- list_elem_of_In in Hg.
  - left. split; [done |]. intros f Hf. apply list_elem_of_In in Hf.
    apply (find_none _ _ Hfind f Hf).
Qed.

(** The loop of [bulkInsert] reaches the first record that fails and
    throws there; up to that point it has only drawn identifiers. *)
Lemma bulkInsert_loop_throws (items : list record) (nextId : Z)
    (arr results : list record) (σ : state) (item : record) (f : string) :
  item ∈ items → f ∈ fields →
  is_missing f (UniversalSDK.with_defaults config collection item) = true →
  0 ≤ nextId → safe_integer (nextId + Z.of_nat (length items)) = true →
  ∃ σ' item' g,
    item' ∈ items ∧ g ∈ fields
    ∧ is_missing g (UniversalSDK.with_defaults config collection item') = true
    ∧ UniversalSDK.bulkInsert_loop config collection items nextId arr results σ
      = (σ', Thrown (required_message g collection))
    ∧ same_repository σ σ'.
Proof using registered declared.
  intros Hitem Hf Hmiss. revert nextId arr results σ.
  induction items as [| head rest IH]; intros nextId arr results σ Hpos Hsafe.
  { by apply elem_of_nil in Hitem. }
  cbn [UniversalSDK.bulkInsert_loop].
  destruct (validateSchema_cases
              (UniversalSDK.with_defaults config collection head) σ)
    as [[Hok Hhead] | (g & Hg & Hgm & Hthrow)].
  - rewrite (bind_run _ _ _ _ _ Hok).
    apply elem_of_cons in Hitem as [-> | Hitem].
    { by rewrite (Hhead f Hf) in Hmiss. }
    unfold randomUUID at 1. unfold mbind at 1, M_bind at 1.
    assert (safe_integer nextId = true) as Hnow.
    { unfold safe_integer in *. apply Z.ltb_lt. apply Z.ltb_lt in Hsafe.
      cbn [length] in Hsafe. lia. }
    unfold toString. rewrite Hnow. unfold decided at 1.
    unfold mbind at 1, M_bind at 1.
    destruct (IH Hitem (nextId + 1) 
                (arr ++ [UniversalSDK.new_item
                           (uuid_source σ (uuid_drawn σ))
                           match nextId with
                           | Z.neg p => "-" +:+ NilEmpty.string_of_uint (Pos.to_uint p)
                           | _ => NilEmpty.string_of_uint (N.to_uint (Z.to_N nextId))
                           end
                           (UniversalSDK.with_defaults config collection head)])
                (results ++ [UniversalSDK.new_item
                           (uuid_source σ (uuid_drawn σ))
                           match nextId with
                           | Z.neg p => "-" +:+ NilEmpty.string_of_uint (Pos.to_uint p)
                           | _ => NilEmpty.string_of_uint (N.to_uint (Z.to_N nextId))
                           end
                           (UniversalSDK.with_defaults config collection head)])
                (draw_uuid σ))
      as (σ' & item' & g & Hin & Hg & Hgm & Hrun & Hrepo).
    { lia. }
    { cbn [length] in Hsafe.
      by replace (nextId + 1 + Z.of_nat (length rest))
        with (nextId + Z.of_nat (S (length rest))) by lia. }
    exists σ', item', g. split_and!; [by right | done | done | done |].
    eapply same_repository_trans; [| exact Hrepo]. done.
  - exists σ, head, g. split_and!; [by left | done | done | | done].
    by rewrite (bind_thrown _ _ _ _ _ Hthrow).
Qed.
End validation.

(** C7, as amended: when a field that the schema of the collection requires
    is missing on a candidate (after the defaults are merged in), [insert]
    and [bulkInsert] fail with the error that names the collection and a
    missing field, and they send no request after the fetch of [get]: no
    candidate is written.  (The fetch itself creates the file of a
    collection that does not exist.)  A field is missing when the candidate
    holds [undefined] or [null] in it, or when [in] does not find it: the
    candidate does not have it, and it is not a name that every object
    inherits from [Object.prototype].  For [bulkInsert] the identifiers of
    the batch are assumed to stay within the safe integers. *)
Theorem required_field_aborts (config : UniversalSDKConfig)
    (collection : string) (schema : SchemaDefinition) (fields : list string)
    (σ σ1 : state) (arr : list record) :
  UniversalSDK.this_schemas config !! collection = Some schema →
  required schema = Some fields →
  UniversalSDK.get config collection σ = (σ1, Returned arr) →
  (∀ item f,
     f ∈ fields →
     is_missing f (UniversalSDK.with_defaults config collection item) = true →
     ∃ g, g ∈ fields
          ∧ is_missing g (UniversalSDK.with_defaults config collection item)
            = true
          ∧ UniversalSDK.insert config collection item σ
            = (σ1, Thrown (required_message g collection)))
  ∧ (∀ items item f start,
       item ∈ items → f ∈ fields →
       is_missing f (UniversalSDK.with_defaults config collection item) = true →
       next_id arr = Some start →
       safe_integer (start + Z.of_nat (length items)) = true →
       ∃ σ' item' g,
         item' ∈ items ∧ g ∈ fields
         ∧ is_missing g (UniversalSDK.with_defaults config collection item')
           = true
         ∧ UniversalSDK.bulkInsert config collection items σ
           = (σ', Thrown (required_message g collection))
         ∧ same_repository σ1 σ')
  ∧ (∀ f candidate,
       is_missing f candidate = true
       ↔ (candidate !! f = None ∧ inherited f = false)
         ∨ candidate !! f = Some VUndefined ∨ candidate !! f = Some VNull).
Proof.
  intros Hschema Hreq Hget. split; [| split; [| apply is_missing_true]].
  - intros item f Hf Hmiss.
    destruct (validateSchema_throws config collection schema fields Hschema
                Hreq _ f σ1 Hf Hmiss) as (g & Hg & Hgm & Hthrow).
    exists g. split_and!; [done | done |].
    unfold UniversalSDK.insert. rewrite (bind_run _ _ _ _ _ Hget).
    by rewrite (bind_thrown _ _ _ _ _ Hthrow).
  - intros items item f start Hitem Hf Hmiss Hstart Hsafe.
    assert (0 ≤ start) as Hpos.
    { unfold next_id in Hstart.
      destruct (mapM id_or_zero arr) as [ns |]; [| done].
      injection Hstart as <-. pose proof (Math_max0_nonneg ns). lia. }
    destruct (bulkInsert_loop_throws config collection schema fields Hschema
                Hreq items start arr [] σ1 item f Hitem Hf Hmiss Hpos Hsafe)
      as (σ' & item' & g & Hin & Hg & Hgm & Hrun & Hrepo).
    exists σ', item', g. split_and!; [done | done | done | | done].
    unfold UniversalSDK.bulkInsert. rewrite (bind_run _ _ _ _ _ Hget).
    rewrite Hstart. unfold decided at 1. unfold mbind at 1, M_bind at 1.
    by rewrite (bind_thrown _ _ _ _ _ Hrun).
Qed.

Lemma required_field_aborts_witness :
  let σ := state_with "db/users.json" [] [] in
  let σ1 := (UniversalSDK.get example_config "users" σ).1 in
  ∃ g, g ∈ ["email"]
       ∧ UniversalSDK.insert example_config "users" {[ "name" := VStr "Ada" ]} σ
         = (σ1, Thrown (required_message g "users")).
Proof.
  intros σ σ1.
  destruct (proj1 (required_field_aborts example_config "users"
                     {| required := Some ["email"]; types := None;
                        defaults := None |}
                     ["email"] σ σ1 [] eq_refl eq_refl eq_refl)
              {[ "name" := VStr "Ada" ]} "email")
    as (g & Hg & _ & Hrun).
  - by left.
  - reflexivity.
  - by exists g.
Defined.

(** The ValidationError of an [insert] into a collection that was never
    written comes after [get] has created the file of the collection. *)
Lemma required_field_aborts_counterexample :
  ¬ missing_field_leaves_repository example_config new_state "users"
      {[ "name" := VStr "Ada" ]}.
Proof.
  intros H.
  destruct (H {| required := Some ["email"]; types := None; defaults := None |}
              ["email"] "email") as (σ' & g & Hrun & Hremote);
    [reflexivity | reflexivity | by left | reflexivity |].
  assert (remote (UniversalSDK.insert example_config "users"
                    {[ "name" := VStr "Ada" ]} new_state).1 !! "db/users.json"
          = Some {| content := []; sha := 1 |}) as Hfile
    by (vm_compute; reflexivity).
  rewrite Hrun in Hfile. simpl in Hfile. by rewrite Hremote in Hfile.
Qed.

(** * Writes that go through *)

Section writes.
Context (config : UniversalSDKConfig).
Abbreviation path_of := (UniversalSDK.collection_path config).
Abbreviation save := (UniversalSDK.save config).
Abbreviation get := (UniversalSDK.get config).

Lemma save_returned (collection : string) (data : list record) (σ σ' : state) :
  save collection data σ = (σ', Returned ()) →
  ∃ o found,
    trace σ' = trace σ
               ++ [CGet (path_of collection) o;
                   CPut (path_of collection) data o found true]
    ∧ same_client σ σ'
    ∧ remote σ' !! path_of collection
      = Some {| content := json_records data; sha := revision σ' |}.
Proof.
  intros (o & found & [|] & Htrace & Hclient & Hok & Hno)%save_inv.
  - exists o, found. by destruct (Hok eq_refl) as (_ & ? & _).
  - by destruct (Hno eq_refl) as [(msg & ? & _) _].
Qed.

(** With nothing pending [save] is accepted: the version it names is the
    one it has just read. *)
Lemma save_quiet (collection : string) (data : list record) (σ : state) :
  pending σ = [] →
  ∃ σ', save collection data σ = (σ', Returned ()) ∧ pending σ' = [].
Proof.
  intros Hquiet.
  unfold UniversalSDK.save, try_catch, mbind, M_bind, mret, M_ret, request.
  rewrite (arrive_quiet σ Hquiet).
  destruct (remote σ !! path_of collection) as [b |] eqn:Hb.
  - rewrite arrive_quiet by done. simpl. rewrite Hb. simpl.
    rewrite bool_decide_eq_true_2 by done. eauto.
  - rewrite arrive_quiet by done. simpl. rewrite Hb. simpl. eauto.
Qed.

Lemma validateSchema_state (collection : string) (item : record)
    (σ σ' : state) (r : outcome ()) :
  UniversalSDK.validateSchema config collection item σ = (σ', r) → σ' = σ.
Proof.
  unfold UniversalSDK.validateSchema.
  destruct (UniversalSDK.this_schemas config !! collection) as [schema |];
    [| by intros [= <-]].
  destruct (required schema) as [fields |]; [| by intros [= <-]].
  rewrite check_required_run. by intros [= <-].
Qed.

(** An [insert] that returns has validated, numbered and saved the record,
    and has entered it in the audit log. *)
Lemma insert_returned_run (collection : string) (item newItem : record)
    (σ σ1 σ' : state) (arr : list record) :
  get collection σ = (σ1, Returned arr) →
  UniversalSDK.insert config collection item σ = (σ', Returned newItem) →
  ∃ n id σs,
    next_id arr = Some n ∧ toString n = Some id
    ∧ newItem = UniversalSDK.new_item (uuid_source σ1 (uuid_drawn σ1)) id
                  (UniversalSDK.with_defaults config collection item)
    ∧ save collection (arr ++ [newItem]) (draw_uuid σ1) = (σs, Returned ())
    ∧ UniversalSDK._audit collection newItem "insert" σs = (σ', Returned ()).
Proof.
  intros Hget. unfold UniversalSDK.insert. rewrite (bind_run _ _ _ _ _ Hget).
  intros (σv & [] & Hvalid & Hrest)%bind_returned_inv.
  apply validateSchema_state in Hvalid as ->.
  apply bind_returned_inv in Hrest as (? & n & [Hn ->]%decided_returned_inv & Hrest).
  apply bind_returned_inv in Hrest as (? & id & [Hid ->]%decided_returned_inv & Hrest).
  apply bind_returned_inv in Hrest as (? & uid & [= <- <-] & Hrest).
  apply bind_returned_inv in Hrest as (σs & [] & Hsave & Hrest).
  apply bind_returned_inv in Hrest as (? & [] & Haudit & [= <- <-]).
  by exists n, id, σs.
Qed.

Lemma insert_returned_inv (collection : string) (item newItem : record)
    (σ σ1 σ' : state) (arr : list record) :
  get collection σ = (σ1, Returned arr) →
  UniversalSDK.insert config collection item σ = (σ', Returned newItem) →
  ∃ n id σs,
    next_id arr = Some n ∧ toString n = Some id
    ∧ newItem = UniversalSDK.new_item (uuid_source σ1 (uuid_drawn σ1)) id
                  (UniversalSDK.with_defaults config collection item)
    ∧ save collection (arr ++ [newItem]) (draw_uuid σ1) = (σs, Returned ())
    ∧ σ' = (UniversalSDK._audit collection newItem "insert" σs).1.
Proof.
  intros Hget Hrun.
  destruct (insert_returned_run _ _ _ _ _ _ _ Hget Hrun)
    as (n & id & σs & Hn & Hid & Hnew & Hsave & Haudit).
  exists n, id, σs. by rewrite Haudit.
Qed.

(** An [update] that finds its record and returns has saved the merge and
    has entered it in the audit log. *)
Lemma update_returned_run (collection key : string) (updates : record)
    (σ σ1 σ' : state) (arr : list record) (index : nat) (old : record)
    (r : option record) :
  get collection σ = (σ1, Returned arr) →
  findIndex key arr = Some index → arr !! index = Some old →
  UniversalSDK.update config collection key updates σ = (σ', Returned r) →
  ∃ σs,
    r = Some (spread old updates)
    ∧ save collection (<[index := spread old updates]> arr) σ1
      = (σs, Returned ())
    ∧ UniversalSDK._audit collection (spread old updates) "update" σs
      = (σ', Returned ()).
Proof.
  intros Hget Hindex Hold. unfold UniversalSDK.update.
  rewrite (bind_run _ _ _ _ _ Hget), Hindex, Hold. simpl default.
  intros (σs & [] & Hsave & Hrest)%bind_returned_inv.
  apply bind_returned_inv in Hrest as (? & [] & Haudit & [= <- <-]).
  by exists σs.
Qed.

Lemma update_returned_inv (collection key : string) (updates : record)
    (σ σ1 σ' : state) (arr : list record) (index : nat) (old : record)
    (r : option record) :
  get collection σ = (σ1, Returned arr) →
  findIndex key arr = Some index → arr !! index = Some old →
  UniversalSDK.update config collection key updates σ = (σ', Returned r) →
  ∃ σs,
    r = Some (spread old updates)
    ∧ save collection (<[index := spread old updates]> arr) σ1
      = (σs, Returned ())
    ∧ σ' = (UniversalSDK._audit collection (spread old updates) "update" σs).1.
Proof.
  intros Hget Hindex Hold Hrun.
  destruct (update_returned_run _ _ _ _ _ _ _ _ _ _ Hget Hindex Hold Hrun)
    as (σs & Hr & Hsave & Haudit).
  exists σs. by rewrite Haudit.
Qed.

(** With nothing pending, an [update] that finds its record returns. *)
Lemma update_returns (collection key : string) (updates : record)
    (σ σ1 : state) (arr : list record) (index : nat) (old : record) :
  get collection σ = (σ1, Returned arr) →
  findIndex key arr = Some index → arr !! index = Some old →
  pending σ1 = [] → audits σ1 collection →
  ∃ σ', UniversalSDK.update config collection key updates σ
        = (σ', Returned (Some (spread old updates))).
Proof.
  intros Hget Hindex Hold Hquiet Haudits.
  destruct (save_quiet collection (<[index := spread old updates]> arr) σ1
              Hquiet) as (σs & Hsave & _).
  pose proof Hsave as (_ & _ & _ & _ & (Hlog & _) & _)%save_inv.
  destruct (audit_returns collection (spread old updates) "update" σs)
    as (σ' & Haudit & _); [by eapply audits_same_log |].
  exists σ'. unfold UniversalSDK.update.
  rewrite (bind_run _ _ _ _ _ Hget), Hindex, Hold. simpl default.
  by rewrite (bind_run _ _ _ _ _ Hsave), (bind_run _ _ _ _ _ Haudit).
Qed.
End writes.

(** * Update *)

(** C9: an [update] that finds a record by its key returns the shallow
    merge of the patch over that record: a field that the patch names has
    the value of the patch (a nested object is replaced as a whole), every
    other field is the record's; the collection that is written has the
    merge, as JSON renders it, in the place of the record and every other
    record as it was read.  With nothing pending the update does return,
    when the collection is not named like a member of [Object.prototype]
    (for such a name the write is made and [_audit] then throws). *)
Theorem update_shallow_merge (config : UniversalSDKConfig)
    (collection key : string) (updates : record) (σ σ1 : state)
    (arr : list record) (index : nat) (old : record) :
  UniversalSDK.get config collection σ = (σ1, Returned arr) →
  findIndex key arr = Some index →
  arr !! index = Some old →
  let merged := spread old updates in
  (∀ f v, updates !! f = Some v → merged !! f = Some v)
  ∧ (∀ f, updates !! f = None → merged !! f = old !! f)
  ∧ (∀ σ' r,
       UniversalSDK.update config collection key updates σ = (σ', Returned r) →
       r = Some merged
       ∧ ∃ b, remote σ' !! UniversalSDK.collection_path config collection
              = Some b
              ∧ length (content b) = length arr
              ∧ content b !! index = Some (json_record merged)
              ∧ ∀ j, j ≠ index → content b !! j = arr !! j)
  ∧ (pending σ1 = [] → inherited collection = false →
       ∃ σ', UniversalSDK.update config collection key updates σ
             = (σ', Returned (Some merged))).
Proof.
  intros Hget Hindex Hold merged. split_and!.
  - intros f v Hf. unfold merged, spread. by apply lookup_union_Some_l.
  - intros f Hf. unfold merged, spread. by apply lookup_union_r.
  - intros σ' r Hrun.
    destruct (update_returned_inv config _ _ _ _ _ _ _ _ _ _ Hget Hindex Hold
                Hrun) as (σs & -> & Hsave & ->).
    split; [done |]. rewrite audit_remote.
    apply save_returned in Hsave as (o & found & _ & _ & Hfile).
    eexists. split; [exact Hfile |]. simpl. unfold json_records.
    rewrite length_fmap, length_insert. split_and!; [done | |].
    + rewrite list_lookup_fmap, list_lookup_insert_eq; [done |].
      by eapply lookup_lt_Some.
    + intros j Hj. rewrite list_lookup_fmap, list_lookup_insert_ne by done.
      rewrite <- list_lookup_fmap. fold (json_records arr).
      by rewrite (get_json config _ _ _ _ Hget).
  - intros Hquiet Hname. eapply update_returns; try done. by right.
Qed.

Lemma update_shallow_merge_witness :
  let old : record :=
    {[ "id" := VStr "1"; "name" := VStr "Ada";
       "address" := VObj {[ "city" := VStr "Lagos"; "zip" := VStr "100001" ]} ]} in
  let patch : record :=
    {[ "address" := VObj {[ "city" := VStr "Kano" ]} ]} in
  let σ := state_with "db/users.json" [old; {[ "id" := VStr "2" ]}] [] in
  ∃ σ', UniversalSDK.update example_config "users" "1" patch σ
        = (σ', Returned (Some (spread old patch))).
Proof.
  intros old patch σ.
  refine (proj2 (proj2 (proj2
            (update_shallow_merge example_config "users" "1" patch σ
               (UniversalSDK.get example_config "users" σ).1
               [old; {[ "id" := VStr "2" ]}] 0 old _ _ _))) _ _);
    reflexivity.
Defined.

(** * Bulk insert *)

Section bulk.
Context (config : UniversalSDKConfig) (collection : string).
Abbreviation path_of := (UniversalSDK.collection_path config).
Abbreviation save := (UniversalSDK.save config).
Abbreviation get := (UniversalSDK.get config).
Abbreviation with_defaults := (UniversalSDK.with_defaults config collection).

(** The loop of [bulkInsert] sends nothing. *)
Lemma bulkInsert_loop_repository (items : list record) (nextId : Z)
    (arr results : list record) (σ σ' : state)
    (r : outcome (list record * list record)) :
  UniversalSDK.bulkInsert_loop config collection items nextId arr results σ
  = (σ', r) →
  same_repository σ σ'.
Proof.
  revert nextId arr results σ.
  induction items as [| head rest IH]; intros nextId arr results σ.
  { by intros [= <- <-]. }
  cbn [UniversalSDK.bulkInsert_loop].
  intros [(σv & [] & Hv & H) | [(msg & Hv & ->) | [Hv ->]]]%bind_inv;
    apply validateSchema_state in Hv as ->; [| done ..].
  apply bind_inv in H as [(? & uid & [= <- <-] & H) | [(? & [=] & _) | [[=] _]]].
  apply bind_inv in H as [(? & id & Hid & H) | [(msg & Hid & ->) | [Hid ->]]];
    apply decided_state in Hid as ->; [| done ..].
  by apply IH in H.
Qed.

Lemma bulkInsert_loop_returned (items : list record) (nextId : Z)
    (arr results arr' results' : list record) (σ σ' : state) :
  UniversalSDK.bulkInsert_loop config collection items nextId arr results σ
  = (σ', Returned (arr', results')) →
  ∃ added,
    arr' = arr ++ added ∧ results' = results ++ added
    ∧ length added = length items
    ∧ same_repository σ σ'
    ∧ ∀ i item, items !! i = Some item →
        ∃ r, added !! i = Some r ∧ numbered config collection σ nextId i item r.
Proof.
  revert nextId arr results σ.
  induction items as [| head rest IH]; intros nextId arr results σ.
  { intros [= <- <- <-]. exists []. rewrite !app_nil_r.
    split_and!; done. }
  cbn [UniversalSDK.bulkInsert_loop].
  intros (σv & [] & Hvalid & Hrest)%bind_returned_inv.
  apply validateSchema_state in Hvalid as ->.
  apply bind_returned_inv in Hrest as (? & uid & [= <- <-] & Hrest).
  apply bind_returned_inv in Hrest
    as (? & id & [Hid ->]%decided_returned_inv & Hrest).
  apply IH in Hrest as (added & -> & -> & Hlen & Hrepo & Hadded).
  exists (UniversalSDK.new_item (uuid_source σ (uuid_drawn σ)) id
            (with_defaults head) :: added).
  rewrite <- !(assoc_L (++)). simpl. split_and!; try done.
  - by rewrite Hlen.
  - intros [| i] item Hitem; simpl in *.
    + injection Hitem as <-. eexists. split; [done |]. exists id.
      by rewrite Z.add_0_r, Nat.add_0_r.
    + destruct (Hadded i item Hitem) as (r & Hr & id' & Hid' & ->).
      exists (UniversalSDK.new_item
                (uuid_source σ (S (uuid_drawn σ) + i)%nat) id'
                (with_defaults item)).
      split; [done |]. exists id'. split.
      * by replace (nextId + Z.of_nat (S i)) with (nextId + 1 + Z.of_nat i)
          by lia.
      * by replace (uuid_drawn σ + S i)%nat with (S (uuid_drawn σ) + i)%nat
          by lia.
Qed.

Lemma bulkInsert_returned_inv (items results : list record) (σ σ1 σ' : state)
    (arr : list record) :
  get collection σ = (σ1, Returned arr) →
  UniversalSDK.bulkInsert config collection items σ = (σ', Returned results) →
  ∃ start σl,
    next_id arr = Some start
    ∧ length results = length items
    ∧ (∀ i item, items !! i = Some item →
         ∃ r, results !! i = Some r ∧ numbered config collection σ1 start i item r)
    ∧ same_repository σ1 σl
    ∧ save collection (arr ++ results) σl = (σ', Returned ()).
Proof.
  intros Hget. unfold UniversalSDK.bulkInsert.
  rewrite (bind_run _ _ _ _ _ Hget).
  intros (? & start & [Hstart ->]%decided_returned_inv & Hrest)%bind_returned_inv.
  apply bind_returned_inv in Hrest as (σl & [arr' results'] & Hloop & Hrest).
  apply bulkInsert_loop_returned in Hloop
    as (added & -> & Hres & Hlen & Hrepo & Hadded).
  simpl in Hres. subst results'.
  apply bind_returned_inv in Hrest as (σs & [] & Hsave & [= <- <-]).
  by exists start, σl.
Qed.

(** With nothing pending, a candidate that passes validation and a number
    that can be rendered, [insert] returns. *)
Lemma insert_returns (item : record) (σ σ1 : state) (arr : list record)
    (n : Z) (id : string) :
  get collection σ = (σ1, Returned arr) →
  passes_validation config collection (with_defaults item) →
  next_id arr = Some n → toString n = Some id →
  pending σ1 = [] → audits σ1 collection →
  ∃ σ', UniversalSDK.insert config collection item σ
        = (σ', Returned (UniversalSDK.new_item
                           (uuid_source σ1 (uuid_drawn σ1)) id
                           (with_defaults item))).
Proof.
  intros Hget Hvalid Hn Hid Hquiet Haudits. unfold UniversalSDK.insert.
  rewrite (bind_run _ _ _ _ _ Hget), (bind_run _ _ _ _ _ (Hvalid σ1)).
  rewrite Hn, (bind_run (decided (Some n)) _ σ1 σ1 n eq_refl).
  rewrite Hid, (bind_run (decided (Some id)) _ σ1 σ1 id eq_refl).
  rewrite (bind_run randomUUID _ σ1 (draw_uuid σ1) _ eq_refl).
  destruct (save_quiet config collection
              (arr ++ [UniversalSDK.new_item (uuid_source σ1 (uuid_drawn σ1)) id
                         (with_defaults item)])
              (draw_uuid σ1) Hquiet) as (σs & Hsave & _).
  rewrite (bind_run _ _ _ _ _ Hsave).
  pose proof Hsave as (_ & _ & _ & _ & (Hlog & _) & _)%save_inv.
  destruct (audit_returns collection
              (UniversalSDK.new_item (uuid_source σ1 (uuid_drawn σ1)) id
                 (with_defaults item)) "insert" σs)
    as (σ' & Haudit & _); [by eapply audits_same_log |].
  exists σ'. by rewrite (bind_run _ _ _ _ _ Haudit).
Qed.

Lemma bulkInsert_loop_returns (items : list record) (nextId : Z)
    (arr results : list record) (σ : state) :
  Forall (λ item, passes_validation config collection (with_defaults item))
    items →
  0 ≤ nextId → safe_integer (nextId + Z.of_nat (length items)) = true →
  ∃ σ' arr' results',
    UniversalSDK.bulkInsert_loop config collection items nextId arr results σ
    = (σ', Returned (arr', results')).
Proof.
  intros Hvalid. revert nextId arr results σ.
  induction Hvalid as [| head rest Hhead _ IH];
    intros nextId arr results σ Hpos Hsafe.
  { by eexists _, _, _. }
  cbn [UniversalSDK.bulkInsert_loop].
  rewrite (bind_run _ _ _ _ _ (Hhead σ)).
  unfold randomUUID at 1. unfold mbind at 1, M_bind at 1.
  assert (safe_integer nextId = true) as Hnow.
  { unfold safe_integer in *. apply Z.ltb_lt. apply Z.ltb_lt in Hsafe.
    cbn [length] in Hsafe. lia. }
  unfold toString. rewrite Hnow. unfold decided at 1.
  unfold mbind at 1, M_bind at 1.
  apply IH; [lia |]. cbn [length] in Hsafe.
  by replace (nextId + 1 + Z.of_nat (length rest))
    with (nextId + Z.of_nat (S (length rest))) by lia.
Qed.

Lemma bulkInsert_returns (items : list record) (σ σ1 : state)
    (arr : list record) (start : Z) :
  get collection σ = (σ1, Returned arr) →
  next_id arr = Some start →
  Forall (λ item, passes_validation config collection (with_defaults item))
    items →
  safe_integer (start + Z.of_nat (length items)) = true →
  pending σ1 = [] →
  ∃ σ' results,
    UniversalSDK.bulkInsert config collection items σ = (σ', Returned results).
Proof.
  intros Hget Hstart Hvalid Hsafe Hquiet.
  assert (0 ≤ start) as Hpos.
  { unfold next_id in Hstart.
    destruct (mapM id_or_zero arr) as [ns |]; [| done].
    injection Hstart as <-. pose proof (Math_max0_nonneg ns). lia. }
  destruct (bulkInsert_loop_returns items start arr [] σ1 Hvalid Hpos Hsafe)
    as (σl & arr' & results & Hloop).
  pose proof (bulkInsert_loop_repository _ _ _ _ _ _ _ Hloop)
    as (_ & _ & Hpending & _).
  destruct (save_quiet config collection arr' σl) as (σ' & Hsave & _).
  { by rewrite Hpending. }
  exists σ', results. unfold UniversalSDK.bulkInsert.
  rewrite (bind_run _ _ _ _ _ Hget), Hstart.
  unfold decided at 1. unfold mbind at 1, M_bind at 1.
  rewrite (bind_run _ _ _ _ _ Hloop). simpl.
  by rewrite (bind_run _ _ _ _ _ Hsave).
Qed.
End bulk.

(** * Identifiers *)

Lemma new_item_id (uid id : string) (item : record) :
  item !! "id" = None →
  UniversalSDK.new_item uid id item !! "id" = Some (VStr id).
Proof.
  intros Hid. unfold UniversalSDK.new_item, spread.
  rewrite lookup_union_r by done.
  rewrite lookup_insert_ne by done. apply lookup_insert_eq.
Qed.

Lemma new_item_uid (uid id : string) (item : record) :
  item !! "uid" = None →
  UniversalSDK.new_item uid id item !! "uid" = Some (VStr uid).
Proof.
  intros Hid. unfold UniversalSDK.new_item, spread.
  rewrite lookup_union_r by done. apply lookup_insert_eq.
Qed.

(** The fields of the caller come last in [{ uid, id, ...item }]. *)
Lemma new_item_caller (config : UniversalSDKConfig) (collection : string)
    (uid id k : string) (item : record) (v : value) :
  item !! k = Some v →
  UniversalSDK.new_item uid id
    (UniversalSDK.with_defaults config collection item) !! k = Some v.
Proof.
  intros Hk. unfold UniversalSDK.new_item, spread.
  apply lookup_union_Some_l. unfold UniversalSDK.with_defaults.
  destruct (_ ≫= defaults); [| done].
  by apply lookup_union_Some_l.
Qed.

Lemma json_record_lookup (item : record) (k : string) :
  json_record item !! k = item !! k ≫= json_field.
Proof. apply lookup_omap. Qed.

(** The number that [insert] hands out is no [id] of the collection. *)
Lemma next_id_fresh (arr : list record) (ns : list Z) (id : string)
    (x : record) :
  mapM id_or_zero arr = Some ns →
  toString (Math_max0 ns + 1) = Some id →
  x ∈ arr → x !! "id" ≠ Some (VStr id).
Proof.
  intros Hns Hid Hx Hsame.
  apply mapM_Some in Hns.
  apply list_elem_of_lookup in Hx as [i Hi].
  destruct (Forall2_lookup_l _ _ _ _ _ Hns Hi) as (n & Hn & Hzero).
  pose proof (Math_max0_nonneg ns) as Hpos.
  apply toString_to_number in Hid; [| lia].
  unfold id_or_zero, prop in Hzero. rewrite Hsame in Hzero. simpl in Hzero.
  simpl in Hid. rewrite Hid in Hzero. injection Hzero as <-.
  apply list_elem_of_lookup_2, Math_max0_bound in Hn. lia.
Qed.

(** C4, as amended: as long as the numbers of the existing ids and the
    next one are integers below 2^53, when the candidate (the partial with
    the defaults of the schema merged in) has no [id] of its own, the record
    that [insert] returns has as [id] the decimal rendering of one plus the
    greatest of the numbers of the existing ids (an id that is absent or not
    a number counts as 0); when it has no [uid] of its own, its [uid] is the
    one drawn by this call; and the collection that is written is the one
    read followed by the record, so that if no two records shared an [id]
    before, none do afterwards.  With nothing pending, [insert] does return
    for a candidate that passes validation, when the collection is not
    named like a member of [Object.prototype] (for such a name the record
    is written and [_audit] then throws). *)
Theorem insert_assigns_next_id (config : UniversalSDKConfig)
    (collection : string) (item : record) (σ σ1 : state) (arr : list record) :
  UniversalSDK.get config collection σ = (σ1, Returned arr) →
  let candidate := UniversalSDK.with_defaults config collection item in
  (∀ σ' newItem,
     UniversalSDK.insert config collection item σ = (σ', Returned newItem) →
     ∃ ns id,
       mapM id_or_zero arr = Some ns
       ∧ toString (Math_max0 ns + 1) = Some id
       ∧ (candidate !! "id" = None → newItem !! "id" = Some (VStr id))
       ∧ (candidate !! "uid" = None →
            newItem !! "uid" = Some (VStr (uuid_source σ1 (uuid_drawn σ1))))
       ∧ uuid_drawn σ' = S (uuid_drawn σ1)
       ∧ ∃ b, remote σ' !! UniversalSDK.collection_path config collection
              = Some b
              ∧ content b = arr ++ [json_record newItem]
              ∧ (candidate !! "id" = None →
                   NoDup (record_ids arr) → NoDup (record_ids (content b))))
  ∧ (∀ ns id,
       passes_validation config collection candidate →
       mapM id_or_zero arr = Some ns →
       toString (Math_max0 ns + 1) = Some id →
       pending σ1 = [] → inherited collection = false →
       ∃ σ' newItem,
         UniversalSDK.insert config collection item σ = (σ', Returned newItem)).
Proof.
  intros Hget candidate. split.
  - intros σ' newItem Hrun.
    destruct (insert_returned_inv config _ _ _ _ _ _ _ Hget Hrun)
      as (n & id & σs & Hn & Hid & -> & Hsave & ->).
    unfold next_id in Hn.
    destruct (mapM id_or_zero arr) as [ns |] eqn:Hns; [| done].
    injection Hn as <-. exists ns, id. fold candidate in Hsave |- *.
    apply save_returned in Hsave as (o & found & _ & Hclient & Hfile).
    rewrite audit_uuid_drawn, audit_remote.
    split_and!; [done | done | apply new_item_id | apply new_item_uid | |].
    + destruct Hclient as (_ & _ & _ & Hdrawn & _). simpl. by rewrite Hdrawn.
    + eexists. split; [exact Hfile |]. simpl. unfold json_records.
      rewrite fmap_app. fold (json_records arr).
      rewrite (get_json config _ _ _ _ Hget). split; [done |].
      intros Hcand Hnodup. unfold record_ids. rewrite fmap_app.
      apply NoDup_app. split_and!; [done | | apply NoDup_singleton].
      intros v Hv. simpl. rewrite json_record_lookup.
      rewrite (new_item_id _ _ _ Hcand). simpl.
      intros ->%list_elem_of_singleton.
      apply list_elem_of_fmap in Hv as (x & Hxid & Hx).
      by eapply next_id_fresh.
  - intros ns id Hvalid Hns Hid Hquiet Hname.
    destruct (insert_returns config collection item σ σ1 arr
                (Math_max0 ns + 1) id Hget Hvalid) as (σ' & Hrun);
      [by unfold next_id; rewrite Hns | done | done | by right |].
    eauto.
Qed.

Lemma insert_assigns_next_id_witness :
  let arr : list record :=
    [ {[ "id" := VStr "4" ]}; {[ "id" := VStr "draft" ]}; {[ "name" := VStr "Bo" ]} ] in
  let σ := state_with "db/items.json" arr [] in
  let run := UniversalSDK.insert example_config "items" {[ "name" := VStr "Ada" ]} σ in
  ∃ newItem ns id,
    run.2 = Returned newItem
    ∧ mapM id_or_zero arr = Some ns
    ∧ toString (Math_max0 ns + 1) = Some id
    ∧ newItem !! "id" = Some (VStr id)
    ∧ newItem !! "uid" = Some (VStr (uuid_source σ 0%nat)).
Proof.
  intros arr σ run.
  assert (run.2 = Returned {[ "uid" := VStr "uuid-0"; "id" := VStr "5";
                              "name" := VStr "Ada" ]}) as Hrun
    by (vm_compute; reflexivity).
  destruct run as [σ' r] eqn:Hinsert. simpl in Hrun. subst r.
  destruct (proj1 (insert_assigns_next_id example_config "items" _ σ
                     (UniversalSDK.get example_config "items" σ).1 arr
                     eq_refl) σ' _ Hinsert)
    as (ns & id & Hns & Hid & Hnew & Huid & _).
  eexists _, ns, id. split_and!; [done | done | done | |].
  - by apply Hnew.
  - by apply Huid.
Defined.

(** A partial that brings its own [id] keeps it: the record returned does
    not carry the next number, and the collection ends up with two records
    of the same [id]. *)
Lemma insert_assigns_next_id_counterexample :
  ¬ insert_numbers_the_record example_config
      (state_with "db/items.json" [ {[ "id" := VStr "1" ]} ] [])
      "items" {[ "id" := VStr "1"; "name" := VStr "Ada" ]}.
Proof.
  intros H.
  set (σ := state_with "db/items.json" [ {[ "id" := VStr "1" ]} ] []) in *.
  set (item := ({[ "id" := VStr "1"; "name" := VStr "Ada" ]} : record)) in *.
  assert (record_ids
            (stored_records (UniversalSDK.insert example_config "items" item σ).1
               "db/items.json")
          = [Some (VStr "1"); Some (VStr "1")]) as Hids
    by (vm_compute; reflexivity).
  assert (∃ newItem,
            (UniversalSDK.insert example_config "items" item σ).2
            = Returned newItem) as [newItem Hrun]
    by (eexists; vm_compute; reflexivity).
  destruct (UniversalSDK.insert example_config "items" item σ) as [σ' r] eqn:Hinsert.
  simpl in Hids, Hrun. subst r.
  destruct (H σ' newItem Hinsert) as (ns & id & _ & _ & _ & Hnodup).
  change (UniversalSDK.collection_path example_config "items")
    with "db/items.json" in Hnodup.
  rewrite Hids in Hnodup. apply NoDup_cons in Hnodup as [Hnotin _].
  apply Hnotin. left.
Qed.

(** * Bulk insert allocates a run *)

(** C5, as amended: as long as the numbers of the existing ids and those
    of the batch are integers below 2^53, a [bulkInsert] that returns has
    numbered the whole batch from the one collection that [get] returned:
    the record at position [i] of the result is built from the item at
    position [i] with the number [start + i], where [start] is one plus the
    greatest number among the existing ids, and that number is its [id]
    unless the item brings an [id] of its own; after the fetch of [get] the
    operation has sent one read and one write, which carries the collection
    followed by the whole batch.  (The fetch itself writes when it has to
    create the file of the collection.)  With nothing pending,
    [bulkInsert] does return for items that pass validation. *)
Theorem bulkInsert_allocates (config : UniversalSDKConfig)
    (collection : string) (items : list record) (σ σ1 : state)
    (arr : list record) :
  UniversalSDK.get config collection σ = (σ1, Returned arr) →
  let path := UniversalSDK.collection_path config collection in
  let candidate := UniversalSDK.with_defaults config collection in
  (∀ σ' results,
     UniversalSDK.bulkInsert config collection items σ = (σ', Returned results) →
     ∃ ns o found,
       mapM id_or_zero arr = Some ns
       ∧ length results = length items
       ∧ (∀ i item, items !! i = Some item →
            ∃ r id,
              results !! i = Some r
              ∧ toString (Math_max0 ns + 1 + Z.of_nat i) = Some id
              ∧ r = UniversalSDK.new_item
                      (uuid_source σ1 (uuid_drawn σ1 + i)%nat) id
                      (candidate item)
              ∧ (candidate item !! "id" = None → r !! "id" = Some (VStr id)))
       ∧ trace σ'
         = trace σ1 ++ [CGet path o; CPut path (arr ++ results) o found true]
       ∧ writes (trace σ') = S (writes (trace σ1)))
  ∧ (∀ ns,
       mapM id_or_zero arr = Some ns →
       Forall (λ item, passes_validation config collection (candidate item))
         items →
       safe_integer (Math_max0 ns + 1 + Z.of_nat (length items)) = true →
       pending σ1 = [] →
       ∃ σ' results,
         UniversalSDK.bulkInsert config collection items σ
         = (σ', Returned results)).
Proof.
  intros Hget path candidate. split.
  - intros σ' results Hrun.
    destruct (bulkInsert_returned_inv config _ _ _ _ _ _ _ Hget Hrun)
      as (start & σl & Hstart & Hlen & Hres & Hrepo & Hsave).
    unfold next_id in Hstart.
    destruct (mapM id_or_zero arr) as [ns |] eqn:Hns; [| done].
    injection Hstart as <-.
    apply save_returned in Hsave as (o & found & Htrace & _ & _).
    destruct Hrepo as (_ & _ & _ & Hsame). rewrite Hsame in Htrace.
    exists ns, o, found. split_and!; [done | done | | done |].
    + intros i item Hitem.
      destruct (Hres i item Hitem) as (r & Hr & id & Hid & ->).
      exists (UniversalSDK.new_item (uuid_source σ1 (uuid_drawn σ1 + i)%nat) id
                (candidate item)), id.
      split_and!; [done | done | done | apply new_item_id].
    + rewrite Htrace. unfold writes. rewrite List.filter_app, length_app.
      simpl. lia.
  - intros ns Hns Hvalid Hsafe Hquiet.
    apply (bulkInsert_returns config collection items σ σ1 arr
             (Math_max0 ns + 1)); try done.
    unfold next_id. by rewrite Hns.
Qed.

Lemma bulkInsert_allocates_witness :
  let arr : list record := [ {[ "id" := VStr "7" ]} ] in
  let items : list record :=
    [ {[ "name" := VStr "Ada" ]}; {[ "name" := VStr "Bo" ]} ] in
  let σ := state_with "db/items.json" arr [] in
  let run := UniversalSDK.bulkInsert example_config "items" items σ in
  ∃ results,
    run.2 = Returned results
    ∧ length results = 2%nat
    ∧ (∀ i r, results !! i = Some r →
         ∃ id, toString (8 + Z.of_nat i) = Some id ∧ r !! "id" = Some (VStr id))
    ∧ writes (trace run.1) = 1%nat.
Proof.
  intros arr items σ run.
  assert (∃ results, run.2 = Returned results) as [results Hrun]
    by (eexists; vm_compute; reflexivity).
  destruct run as [σ' r] eqn:Hbulk. simpl in Hrun. subst r.
  destruct (proj1 (bulkInsert_allocates example_config "items" items σ
                     (UniversalSDK.get example_config "items" σ).1 arr
                     eq_refl) σ' results Hbulk)
    as (ns & o & found & Hns & Hlen & Hres & _ & Hwrites).
  vm_compute in Hns. injection Hns as <-.
  exists results. split_and!; [done | done | | done].
  intros i r Hr.
  destruct (items !! i) as [item |] eqn:Hitem.
  - destruct (Hres i item Hitem) as (r' & id & Hr' & Hid & _ & Hnew).
    rewrite Hr in Hr'. injection Hr' as <-. exists id. split; [done |].
    apply Hnew. destruct i as [| [| i]]; simpl in Hitem;
      [injection Hitem as <-; reflexivity ..| done].
  - apply lookup_lt_Some in Hr. apply lookup_ge_None in Hitem.
    rewrite Hlen in Hr. lia.
Defined.

(** On a collection that was never written [bulkInsert] writes twice, and
    an item that brings its own [id] keeps it. *)
Lemma bulkInsert_allocates_counterexample :
  ¬ bulkInsert_writes_once example_config new_state "items"
      [ {[ "id" := VStr "x" ]} ].
Proof.
  intros H.
  set (items := [ ({[ "id" := VStr "x" ]} : record) ]) in *.
  assert (writes (trace (UniversalSDK.bulkInsert example_config "items" items
                           new_state).1) = 2%nat) as Hwrites
    by (vm_compute; reflexivity).
  assert (∃ results,
            (UniversalSDK.bulkInsert example_config "items" items new_state).2
            = Returned results) as [results Hrun]
    by (eexists; vm_compute; reflexivity).
  destruct (UniversalSDK.bulkInsert example_config "items" items new_state)
    as [σ' r] eqn:Hbulk.
  simpl in Hwrites, Hrun. subst r.
  destruct (H σ' results Hbulk) as [_ Hone].
  rewrite Hwrites in Hone. done.
Qed.

(** * Identifiers that the caller supplies *)

(** C10: an [id] or a [uid] that the caller puts in the partial of [insert]
    or in an item of [bulkInsert] replaces the identifier that the store
    mints, in the record returned and in the record written (as JSON
    renders it); an [id] or a [uid] in the patch of [update] replaces that
    of the record.  With nothing pending the three operations do return,
    when the collection is not named like a member of [Object.prototype]
    (for such a name [insert] and [update] write and [_audit] then throws)
    and the numbers of the identifiers are integers below 2^53. *)
Theorem caller_identifiers_override (config : UniversalSDKConfig)
    (collection k : string) (σ σ1 : state) (arr : list record) :
  k = "id" ∨ k = "uid" →
  UniversalSDK.get config collection σ = (σ1, Returned arr) →
  let path := UniversalSDK.collection_path config collection in
  (∀ item v σ' newItem,
     item !! k = Some v →
     UniversalSDK.insert config collection item σ = (σ', Returned newItem) →
     newItem !! k = Some v
     ∧ ∃ b, remote σ' !! path = Some b
            ∧ content b !! length arr = Some (json_record newItem)
            ∧ json_record newItem !! k = json_field v)
  ∧ (∀ items i item v σ' results,
       items !! i = Some item → item !! k = Some v →
       UniversalSDK.bulkInsert config collection items σ
       = (σ', Returned results) →
       ∃ r, results !! i = Some r ∧ r !! k = Some v
            ∧ ∃ b, remote σ' !! path = Some b
                   ∧ content b !! (length arr + i)%nat = Some (json_record r)
                   ∧ json_record r !! k = json_field v)
  ∧ (∀ key updates v index old σ' r,
       findIndex key arr = Some index → arr !! index = Some old →
       updates !! k = Some v →
       UniversalSDK.update config collection key updates σ = (σ', Returned r) →
       ∃ merged, r = Some merged ∧ merged !! k = Some v
                 ∧ ∃ b, remote σ' !! path = Some b
                        ∧ content b !! index = Some (json_record merged)
                        ∧ json_record merged !! k = json_field v)
  ∧ (pending σ1 = [] → inherited collection = false →
       (∀ item n id,
          passes_validation config collection
            (UniversalSDK.with_defaults config collection item) →
          next_id arr = Some n → toString n = Some id →
          ∃ σ' newItem,
            UniversalSDK.insert config collection item σ
            = (σ', Returned newItem))
       ∧ (∀ items start,
            next_id arr = Some start →
            Forall (λ item,
                      passes_validation config collection
                        (UniversalSDK.with_defaults config collection item))
              items →
            safe_integer (start + Z.of_nat (length items)) = true →
            ∃ σ' results,
              UniversalSDK.bulkInsert config collection items σ
              = (σ', Returned results))
       ∧ (∀ key updates index old,
            findIndex key arr = Some index → arr !! index = Some old →
            ∃ σ' r,
              UniversalSDK.update config collection key updates σ
              = (σ', Returned r))).
Proof.
  intros _ Hget path. split_and!.
  - intros item v σ' newItem Hk Hrun.
    destruct (insert_returned_inv config _ _ _ _ _ _ _ Hget Hrun)
      as (n & id & σs & _ & _ & Hnew & Hsave & ->).
    assert (newItem !! k = Some v) as Hv.
    { rewrite Hnew. by apply new_item_caller. }
    split; [done |]. rewrite audit_remote.
    apply save_returned in Hsave as (o & found & _ & _ & Hfile).
    eexists. split; [exact Hfile |]. simpl. unfold json_records.
    rewrite list_lookup_fmap, lookup_app_r, Nat.sub_diag by done.
    split; [done |]. by rewrite json_record_lookup, Hv.
  - intros items i item v σ' results Hitem Hk Hrun.
    destruct (bulkInsert_returned_inv config _ _ _ _ _ _ _ Hget Hrun)
      as (start & σl & _ & _ & Hres & _ & Hsave).
    destruct (Hres i item Hitem) as (r & Hr & id & _ & Hnew).
    assert (r !! k = Some v) as Hv.
    { rewrite Hnew. by apply new_item_caller. }
    exists r. split_and!; [done | done |].
    apply save_returned in Hsave as (o & found & _ & _ & Hfile).
    eexists. split; [exact Hfile |]. simpl. unfold json_records.
    rewrite list_lookup_fmap, lookup_app_r by lia.
    replace (length arr + i - length arr)%nat with i by lia.
    rewrite Hr. split; [done |]. by rewrite json_record_lookup, Hv.
  - intros key updates v index old σ' r Hindex Hold Hk Hrun.
    destruct (update_returned_inv config _ _ _ _ _ _ _ _ _ _ Hget Hindex Hold
                Hrun) as (σs & -> & Hsave & ->).
    assert (spread old updates !! k = Some v) as Hv
      by by apply lookup_union_Some_l.
    eexists. split_and!; [done | done |]. rewrite audit_remote.
    apply save_returned in Hsave as (o & found & _ & _ & Hfile).
    eexists. split; [exact Hfile |]. simpl. unfold json_records.
    rewrite list_lookup_fmap, list_lookup_insert_eq
      by by eapply lookup_lt_Some.
    split; [done |]. by rewrite json_record_lookup, Hv.
  - intros Hquiet Hname.
    assert (audits σ1 collection) as Haudits by by right.
    split_and!.
    + intros item n id Hvalid Hn Hid.
      destruct (insert_returns config collection item σ σ1 arr n id)
        as (σ' & Hrun); eauto.
    + intros items start Hstart Hvalid Hsafe.
      by eapply bulkInsert_returns.
    + intros key updates index old Hindex Hold.
      destruct (update_returns config collection key updates σ σ1 arr index old)
        as (σ' & Hrun); eauto.
Qed.

Lemma caller_identifiers_override_witness :
  let σ := state_with "db/items.json" [ {[ "id" := VStr "1" ]} ] [] in
  let run := UniversalSDK.insert example_config "items"
               {[ "id" := VStr "mine"; "name" := VStr "Ada" ]} σ in
  ∃ newItem,
    run.2 = Returned newItem
    ∧ newItem !! "id" = Some (VStr "mine")
    ∧ ∃ b, remote run.1 !! "db/items.json" = Some b
           ∧ content b !! 1%nat = Some (json_record newItem)
           ∧ json_record newItem !! "id" = Some (VStr "mine").
Proof.
  intros σ run.
  assert (∃ newItem, run.2 = Returned newItem) as [newItem Hrun]
    by (eexists; vm_compute; reflexivity).
  destruct run as [σ' r] eqn:Hinsert. simpl in Hrun. subst r.
  exists newItem. split; [done |].
  refine (proj1 (caller_identifiers_override example_config "items" "id" σ
                   (UniversalSDK.get example_config "items" σ).1
                   [ {[ "id" := VStr "1" ]} ] _ _)
            {[ "id" := VStr "mine"; "name" := VStr "Ada" ]} (VStr "mine")
            σ' newItem _ Hinsert).
  - by left.
  - reflexivity.
  - reflexivity.
Defined.

(** * The write of a mutating operation *)

Section one_write.
Context (config : UniversalSDKConfig) (collection : string).
Abbreviation path_of := (UniversalSDK.collection_path config).
Abbreviation save := (UniversalSDK.save config).
Abbreviation get := (UniversalSDK.get config).

(** After [save] a method only records the change in its audit log. *)
Lemma save_then_audit {A} (data : list record) (entry : record)
    (action : string) (a : A) (σ1 σp σ' : state) (r : outcome A) :
  same_repository σ1 σp →
  (_ ← save collection data;
   _ ← UniversalSDK._audit collection entry action;
   mret a) σp = (σ', r) →
  one_save config collection σ1 σ' r.
Proof.
  intros Hrepo.
  intros [(σs & [] & Hsave & Hrest) | [(msg & Hsave & ->) | [Hsave ->]]]%bind_inv;
    right; exists data, σp.
  - exists σs, (Returned ()). split_and!; [done | done | |].
    + pose proof (audit_repository collection entry action σs) as Hsame.
      apply bind_inv in Hrest
        as [(σa & [] & Haudit & [= <- <-]) | [(msg & Haudit & ->) | [Haudit ->]]];
        by rewrite Haudit in Hsame.
    + apply bind_inv in Hrest
        as [(σa & [] & Haudit & [= <- <-]) | [(msg & Haudit & ->) | [Haudit ->]]];
        [by left | |].
      * apply audit_inv in Haudit as [[[=] _] | ([= ->] & _ & _ & Hname)].
        by right.
      * by apply audit_inv in Haudit as [[[=] _] | ([=] & _)].
  - exists σ', (Thrown msg). split_and!; [done | done | done | by left].
  - exists σ', Unmodelled. split_and!; [done | done | done | by left].
Qed.

Lemma insert_one_save (item : record) (σ σ1 σ' : state) (arr : list record)
    (r : outcome record) :
  get collection σ = (σ1, Returned arr) →
  UniversalSDK.insert config collection item σ = (σ', r) →
  one_save config collection σ1 σ' r.
Proof.
  intros Hget. unfold UniversalSDK.insert. rewrite (bind_run _ _ _ _ _ Hget).
  intros [(σv & [] & Hv & H) | [(msg & Hv & ->) | [Hv ->]]]%bind_inv;
    apply validateSchema_state in Hv as ->; [| by left ..].
  apply bind_inv in H as [(? & n & Hn & H) | [(msg & Hn & ->) | [Hn ->]]];
    apply decided_state in Hn as ->; [| by left ..].
  apply bind_inv in H as [(? & id & Hid & H) | [(msg & Hid & ->) | [Hid ->]]];
    apply decided_state in Hid as ->; [| by left ..].
  apply bind_inv in H as [(? & uid & [= <- <-] & H) | [(? & [=] & _) | [[=] _]]].
  eapply save_then_audit; [| exact H]. by repeat split.
Qed.

Lemma update_one_save (key : string) (updates : record) (σ σ1 σ' : state)
    (arr : list record) (r : outcome (option record)) :
  get collection σ = (σ1, Returned arr) →
  UniversalSDK.update config collection key updates σ = (σ', r) →
  one_save config collection σ1 σ' r.
Proof.
  intros Hget. unfold UniversalSDK.update. rewrite (bind_run _ _ _ _ _ Hget).
  destruct (findIndex key arr) as [index |].
  - apply save_then_audit. by repeat split.
  - intros [= <- <-]. left. by repeat split.
Qed.

Lemma delete_one_save (key : string) (σ σ1 σ' : state) (arr : list record)
    (r : outcome bool) :
  get collection σ = (σ1, Returned arr) →
  UniversalSDK.delete config collection key σ = (σ', r) →
  one_save config collection σ1 σ' r.
Proof.
  intros Hget. unfold UniversalSDK.delete. rewrite (bind_run _ _ _ _ _ Hget).
  destruct (findIndex key arr) as [index |].
  - apply save_then_audit. by repeat split.
  - intros [= <- <-]. left. by repeat split.
Qed.

Lemma bulkInsert_one_save (items : list record) (σ σ1 σ' : state)
    (arr : list record) (r : outcome (list record)) :
  get collection σ = (σ1, Returned arr) →
  UniversalSDK.bulkInsert config collection items σ = (σ', r) →
  one_save config collection σ1 σ' r.
Proof.
  intros Hget. unfold UniversalSDK.bulkInsert.
  rewrite (bind_run _ _ _ _ _ Hget).
  intros [(? & n & Hn & H) | [(msg & Hn & ->) | [Hn ->]]]%bind_inv;
    apply decided_state in Hn as ->; [| by left ..].
  apply bind_inv in H
    as [(σl & [arr' results] & Hloop & H) | [(msg & Hloop & ->) | [Hloop ->]]];
    apply bulkInsert_loop_repository in Hloop; [| by left ..].
  right. exists arr', σl.
  apply bind_inv in H as [(σs & [] & Hsave & [= <- <-]) | [(msg & Hsave & ->) | [Hsave ->]]].
  - exists σs, (Returned ()). split_and!; [done | done | done | by left].
  - exists σ', (Thrown msg). split_and!; [done | done | done | by left].
  - exists σ', Unmodelled. split_and!; [done | done | done | by left].
Qed.

Lemma mutate_one_save (m : mutation) (σ σ1 σ' : state) (arr : list record)
    (r : outcome ()) :
  get collection σ = (σ1, Returned arr) →
  mutate config collection m σ = (σ', r) →
  one_save config collection σ1 σ' r.
Proof.
  intros Hget. destruct m as [item | items | key updates | key];
    intros (r0 & Hrun & ->)%discard_inv; unfold one_save;
    change (@forget () (forget r0)) with (forget (forget r0)).
  - destruct (insert_one_save _ _ _ _ _ _ Hget Hrun) as [? | H]; [by left |].
    right. by destruct r0.
  - destruct (bulkInsert_one_save _ _ _ _ _ _ Hget Hrun) as [? | H]; [by left |].
    right. by destruct r0.
  - destruct (update_one_save _ _ _ _ _ _ _ Hget Hrun) as [? | H]; [by left |].
    right. by destruct r0.
  - destruct (delete_one_save _ _ _ _ _ _ Hget Hrun) as [? | H]; [by left |].
    right. by destruct r0.
Qed.
End one_write.

(** C1, as amended: once [get] has returned the collection, [insert],
    [bulkInsert], [update] and [delete] either send nothing more, or send
    through [save] one read followed by one write, and the version that the
    write names is the one that this read of [save] observed, not the one
    of the operation's first fetch.  If the file is not at that version when
    the write arrives the write is refused, the operation fails with the
    error of the repository (the conflict, unless the request itself
    failed) and the file stays as the write found it; an accepted write
    leaves the data in the file, and the operation then returns when the
    collection is not named like a member of [Object.prototype].  A change
    that lands between the first fetch and the read of [save] is therefore
    overwritten.  (Strings are made of characters up to U+00FF, which
    [btoa] encodes.) *)
Theorem write_names_version_of_save (config : UniversalSDKConfig)
    (collection : string) (m : mutation) (σ σ1 σ' : state)
    (arr : list record) (r : outcome ()) :
  UniversalSDK.get config collection σ = (σ1, Returned arr) →
  mutate config collection m σ = (σ', r) →
  let path := UniversalSDK.collection_path config collection in
  trace σ' = trace σ1
  ∨ ∃ data o found ok,
      trace σ' = trace σ1 ++ [CGet path o; CPut path data o found ok]
      ∧ (is_Some o → found ≠ o → ok = false)
      ∧ (ok = true →
           (∃ b, remote σ' !! path = Some b ∧ content b = json_records data)
           ∧ (inherited collection = false → r = Returned ()))
      ∧ (ok = false →
           (∃ msg, r = Thrown msg
                   ∧ (msg = conflict_text ∨ Fault msg ∈ pending σ1))
           ∧ sha <$> remote σ' !! path = found).
Proof.
  intros Hget Hrun path.
  destruct (mutate_one_save config collection m σ σ1 σ' arr r Hget Hrun)
    as [(_ & _ & _ & Htrace) | (data & σp & σs & rs & Hp & Hsave & Hs & Hends)];
    [by left | right].
  destruct Hp as (_ & _ & Hpending & Htrace).
  destruct Hs as (Hremote & _ & _ & Htrace').
  assert (forget r = r) as Hr by by destruct r as [[] | |].
  rewrite Hr in Hends.
  apply save_inv in Hsave as (o & found & ok & Hsent & _ & Hok & Hno).
  exists data, o, found, ok. rewrite Htrace', Hremote, Hsent, Htrace.
  split_and!; [done | | |].
  - intros [v ->] Hdiff. destruct ok; [| done].
    destruct (Hok eq_refl) as (_ & _ & Hsame). by rewrite (Hsame v eq_refl) in Hdiff.
  - intros Hyes. destruct (Hok Hyes) as (-> & Hfile & _). split; [eauto |].
    intros Hname. destruct Hends as [<- | (_ & Hinherited & _)]; [done |].
    by rewrite Hname in Hinherited.
  - intros Hrefused. destruct (Hno Hrefused) as [(msg & -> & Hmsg) Hfound].
    rewrite Hpending in Hmsg.
    destruct Hends as [<- | ([=] & _)]. eauto.
Qed.

(** Another client commits between the read of [save] and its write: the
    write names version 1, finds version 2 and is refused. *)
Lemma write_names_version_of_save_witness :
  let other : list record := [ {[ "id" := VStr "1"; "stock" := VNum 0 ]} ] in
  let σ := state_with "db/items.json" [ {[ "id" := VStr "1"; "stock" := VNum 5 ]} ]
             [Quiet; Quiet; Commit "db/items.json" other] in
  let m := Update "1" {[ "stock" := VNum 4 ]} in
  let run := mutate example_config "items" m σ in
  let σ1 := (UniversalSDK.get example_config "items" σ).1 in
  trace run.1 = trace σ1
  ∨ ∃ data o found ok,
      trace run.1
      = trace σ1 ++ [CGet "db/items.json" o; CPut "db/items.json" data o found ok]
      ∧ (is_Some o → found ≠ o → ok = false)
      ∧ (ok = true →
           (∃ b, remote run.1 !! "db/items.json" = Some b
                 ∧ content b = json_records data)
           ∧ (inherited "items" = false → run.2 = Returned ()))
      ∧ (ok = false →
           (∃ msg, run.2 = Thrown msg
                   ∧ (msg = conflict_text ∨ Fault msg ∈ pending σ1))
           ∧ sha <$> remote run.1 !! "db/items.json" = found).
Proof.
  intros other σ m run σ1.
  apply (write_names_version_of_save example_config "items" m σ σ1 run.1
           [ {[ "id" := VStr "1"; "stock" := VNum 5 ]} ] run.2).
  - reflexivity.
  - apply surjective_pairing.
Defined.

(** Another client commits between the operation's first fetch and the
    read of [save]: the write names the version of that commit, is
    accepted, and the record that the other client added is gone. *)
Lemma write_names_version_of_save_counterexample :
  ¬ write_names_initial_version example_config
      (state_with "db/items.json" [ {[ "id" := VStr "1"; "stock" := VNum 5 ]} ]
         [Quiet;
          Commit "db/items.json"
            [ {[ "id" := VStr "1"; "stock" := VNum 5 ]};
              {[ "id" := VStr "2"; "stock" := VNum 9 ]} ]])
      "items" (Update "1" {[ "stock" := VNum 4 ]}).
Proof.
  intros H.
  set (σ := state_with _ _ _) in H.
  set (m := Update _ _) in H.
  set (data := [ ({[ "id" := VStr "1"; "stock" := VNum 4 ]} : record) ]).
  assert (trace (mutate example_config "items" m σ).1
          = trace σ
            ++ CGet "db/items.json" (Some 1%nat)
               :: [CGet "db/items.json" (Some 2%nat);
                   CPut "db/items.json" data (Some 2%nat) (Some 2%nat) true])
    as Htrace by (vm_compute; reflexivity).
  destruct (H _ _ 1%nat _ (surjective_pairing _) Htrace
              data (Some 2%nat) (Some 2%nat) true) as [[=] _].
  right. left.
Qed.

(** The two races side by side.  When the commit of another client lands
    after the read of [save], the update fails with the conflict and the
    file keeps the commit; when it lands before that read, the update
    succeeds and the commit is lost. *)
Lemma update_races_with_a_commit :
  let mine : list record := [ {[ "id" := VStr "1"; "stock" := VNum 5 ]} ] in
  let theirs : list record := [ {[ "id" := VStr "1"; "stock" := VNum 0 ]} ] in
  let patch : record := {[ "stock" := VNum 4 ]} in
  let late := UniversalSDK.update example_config "items" "1" patch
                (state_with "db/items.json" mine
                   [Quiet; Quiet; Commit "db/items.json" theirs]) in
  let early := UniversalSDK.update example_config "items" "1" patch
                 (state_with "db/items.json" mine
                    [Quiet; Commit "db/items.json" theirs]) in
  late.2 = Thrown conflict_text
  ∧ stored_records late.1 "db/items.json" = theirs
  ∧ early.2 = Returned (Some {[ "id" := VStr "1"; "stock" := VNum 4 ]})
  ∧ stored_records early.1 "db/items.json"
    = [ {[ "id" := VStr "1"; "stock" := VNum 4 ]} ].
Proof. vm_compute. done. Qed.

(** A collection named like a member of [Object.prototype]: the record is
    written, then [_audit] finds that member where it looks for the log of
    the collection, and throws.  The same happens to [update] and
    [delete]; [bulkInsert], which keeps no log, returns. *)
Lemma audit_throws_after_the_write :
  let ada : record :=
    {[ "uid" := VStr "uuid-0"; "id" := VStr "1"; "name" := VStr "Ada" ]} in
  let inserted := UniversalSDK.insert example_config "constructor"
                    {[ "name" := VStr "Ada" ]} new_state in
  let updated := UniversalSDK.update example_config "constructor" "1"
                   {[ "name" := VStr "Bo" ]} inserted.1 in
  let deleted := UniversalSDK.delete example_config "constructor" "1"
                   updated.1 in
  let added := UniversalSDK.bulkInsert example_config "constructor"
                 [ {[ "name" := VStr "Cy" ]} ] deleted.1 in
  inserted.2 = Thrown not_a_function_text
  ∧ stored_records inserted.1 "db/constructor.json" = [ada]
  ∧ updated.2 = Thrown not_a_function_text
  ∧ stored_records updated.1 "db/constructor.json"
    = [ <["name" := VStr "Bo"]> ada ]
  ∧ deleted.2 = Thrown not_a_function_text
  ∧ stored_records deleted.1 "db/constructor.json" = []
  ∧ auditLog deleted.1 = ∅
  ∧ added.2
    = Returned [ {[ "uid" := VStr "uuid-1"; "id" := VStr "1";
                    "name" := VStr "Cy" ]} ].
Proof. vm_compute. done. Qed.

(** * Reading a collection that is not there *)

(** C6, as amended: when the read of the collection fails, [get] looks at
    the text of the error.  If it contains neither "404" nor "empty" the
    error reaches the caller.  If it contains one of them, as the reply for
    a file that does not exist does, [get] sends the read and the write of
    [save] with the empty collection and returns the empty sequence whether
    or not that write is accepted; when it is accepted the file holds the
    empty collection.  With nothing pending it is accepted. *)
Theorem get_of_missing_collection (config : UniversalSDKConfig)
    (collection : string) (σ σ1 : state) (msg : string) :
  let path := UniversalSDK.collection_path config collection in
  request path GET σ = (σ1, Thrown msg) →
  (treated_as_missing msg = false →
     UniversalSDK.get config collection σ = (σ1, Thrown msg))
  ∧ (treated_as_missing msg = true →
       ∃ σ' o found ok,
         UniversalSDK.get config collection σ = (σ', Returned [])
         ∧ trace σ' = trace σ1 ++ [CGet path o; CPut path [] o found ok]
         ∧ (ok = true → ∃ b, remote σ' !! path = Some b ∧ content b = []))
  ∧ treated_as_missing not_found_text = true
  ∧ (pending σ = [] →
       ∃ σ' b, UniversalSDK.get config collection σ = (σ', Returned [])
               ∧ remote σ' !! path = Some b ∧ content b = []).
Proof.
  intros path Hreq.
  pose proof (get_failed config collection σ σ1 msg Hreq) as Hget.
  split_and!.
  - intros Hno. by rewrite Hno in Hget.
  - intros Hyes. rewrite Hyes in Hget.
    destruct (UniversalSDK.save config collection [] σ1) as [σ' r] eqn:Hsave.
    apply save_inv in Hsave as (o & found & ok & Htrace & _ & Hok & _).
    exists σ', o, found, ok. split_and!; [done | done |].
    intros Haccepted. destruct (Hok Haccepted) as (_ & Hfile & _). eauto.
  - reflexivity.
  - intros Hquiet.
    pose proof Hreq as (o & -> & Ho)%request_GET_inv.
    rewrite (arrive_quiet σ Hquiet) in Ho, Hget. simpl in Ho, Hget.
    destruct Ho as [(b & [=] & _) | (msg' & [= <-] & -> & [[=] | (_ & -> & _)])].
    change (treated_as_missing not_found_text) with true in Hget.
    destruct (save_quiet config collection []
                (log_call (CGet path None) σ) Hquiet) as (σ' & Hsave & _).
    rewrite Hsave in Hget.
    apply save_returned in Hsave as (o' & found & _ & _ & Hfile).
    eauto.
Qed.

Lemma get_of_missing_collection_witness :
  let σ := new_state in
  let σ1 := (request "db/items.json" GET σ).1 in
  ∃ σ' b, UniversalSDK.get example_config "items" σ = (σ', Returned [])
          ∧ remote σ' !! "db/items.json" = Some b ∧ content b = [].
Proof.
  intros σ σ1.
  refine (proj2 (proj2 (proj2
            (get_of_missing_collection example_config "items" σ σ1
               not_found_text _))) _); reflexivity.
Defined.

(** Two ways in which the statement fails.  A read that fails with a text
    that contains "empty" while the file exists is taken for a missing
    collection: [get] returns the empty sequence and the write of the empty
    collection, which names the current version, replaces the records.  And
    when the write that creates a missing collection fails, [get] returns
    the empty sequence all the same and no file is left behind. *)
Lemma get_of_missing_collection_counterexample :
  ¬ get_creates_or_fails example_config
      (state_with "db/items.json" [ {[ "id" := VStr "1" ]} ]
         [Fault "empty reply from server"])
      "items"
  ∧ ¬ get_creates_or_fails example_config
        {| auditLog := ∅; builders := []; remote := ∅; revision := 0;
           pending := [Quiet; Quiet; Fault "503 Service Unavailable"];
           trace := []; uuid_source := λ _, "uuid"; uuid_drawn := 0;
           clock := 0 |}
        "items".
Proof.
  split.
  - intros [_ H]. set (σ := state_with _ _ _) in H.
    assert ((request "db/items.json" GET σ).2
            = Thrown "empty reply from server") as Hreq by reflexivity.
    assert ((UniversalSDK.get example_config "items" σ).2 = Returned []
            ∧ stored_records (UniversalSDK.get example_config "items" σ).1
                "db/items.json" = []) as [Hget _]
      by (vm_compute; done).
    destruct (request "db/items.json" GET σ) as [σ1 r] eqn:Hrun.
    simpl in Hreq. subst r.
    rewrite (H σ1 _ Hrun) in Hget; done.
  - intros [H _]. set (σ := {| pending := _ |}) in H.
    destruct H as (σ' & b & Hget & Hfile & _); [reflexivity |].
    assert (remote (UniversalSDK.get example_config "items" σ).1
              !! "db/items.json" = None) as Hnone
      by (vm_compute; reflexivity).
    rewrite Hget in Hnone. simpl in Hnone.
    change (remote σ' !! "db/items.json" = Some b) in Hfile.
    by rewrite Hfile in Hnone.
Qed.

(** * The query builder *)

Lemma sort_insert_permutation {A} (cmp : A → A → option Z) (x : A)
    (sorted l : list A) :
  sort_insert cmp x sorted = Some l → l ≡ₚ x :: sorted.
Proof.
  revert l. induction sorted as [| y rest IH]; intros l; simpl.
  { by intros [= <-]. }
  destruct (cmp y x) as [c |]; simpl; [| done].
  destruct (0 <? c); [by intros [= <-] |].
  destruct (sort_insert cmp x rest) as [l' |]; simpl; [| done].
  intros [= <-]. rewrite (IH l' eq_refl). apply Permutation_swap.
Qed.

Lemma Array_sort_permutation {A} (cmp : A → A → option Z) (l sorted : list A) :
  Array_sort cmp l = Some sorted → sorted ≡ₚ l.
Proof.
  unfold Array_sort.
  assert (∀ acc, foldl (λ (acc : option (list A)) x,
                          sorted ← acc; sort_insert cmp x sorted)
                   (Some acc) l = Some sorted → sorted ≡ₚ acc ++ l) as Hgen.
  { induction l as [| x l IH]; intros acc; simpl.
    - intros [= <-]. by rewrite app_nil_r.
    - destruct (sort_insert cmp x acc) as [acc' |] eqn:Hins.
      + intros ->%IH. rewrite (sort_insert_permutation _ _ _ _ Hins).
        simpl. apply Permutation_middle.
      + assert (foldl (λ (acc : option (list A)) x,
                         sorted ← acc; sort_insert cmp x sorted) None l
                = None) as -> by (clear; by induction l).
        done. }
  apply Hgen.
Qed.

(** A field that holds a number is read as that number. *)
Lemma member_of_number (x : record) (field : string) (n : Z) :
  prop x field = VNum n → member_of x field = Held (VNum n).
Proof.
  unfold prop, member_of. destruct (x !! field) as [v |]; simpl; [| done].
  by intros ->.
Qed.

Section ordered.
Context (field : string) (dir : direction).

Lemma compareFn_integers (x y : record) (m n : Z) :
  prop x field = VNum m → safe_integer m = true →
  prop y field = VNum n → safe_integer n = true →
  ∃ c, compareFn field dir x y = Some c
       ∧ (0 < c → in_order dir n m ∧ m ≠ n)
       ∧ (c ≤ 0 → in_order dir m n).
Proof.
  intros Hx Hm Hy Hn. unfold compareFn, member_lt, js_lt.
  rewrite (member_of_number _ _ _ Hx), (member_of_number _ _ _ Hy), Hm, Hn.
  simpl.
  destruct dir; simpl;
    destruct (Z.ltb_spec n m), (Z.ltb_spec m n);
    eexists; (split; [done |]); split; intros; lia.
Qed.

Lemma sort_insert_ordered (x : record) (sorted : list record) :
  integer_field field x → Forall (integer_field field) sorted →
  ordered_by field dir sorted →
  ∃ l, sort_insert (compareFn field dir) x sorted = Some l
       ∧ ordered_by field dir l ∧ Forall (integer_field field) l.
Proof.
  intros Hx Hall Hsorted.
  induction sorted as [| y rest IH]; simpl.
  { exists [x]. split_and!; [done | | by constructor].
    repeat constructor. }
  apply Forall_cons in Hall as [Hy Hrest].
  apply StronglySorted_inv in Hsorted as [Hsorted Hle].
  destruct Hx as (n & Hxn & Hn). destruct Hy as (m & Hym & Hm).
  destruct (compareFn_integers y x m n Hym Hm Hxn Hn) as (c & -> & Hpos & Hneg).
  simpl. destruct (Z.ltb_spec 0 c) as [Hc | Hc].
  - eexists. split; [done |]. split.
    + destruct (Hpos Hc) as [Horder _].
      constructor; [by constructor |].
      constructor; [by exists n, m |].
      eapply Forall_impl; [exact Hle |]. simpl.
      intros z (m' & k & Hm' & Hk & Hmk). exists n, k.
      rewrite Hym in Hm'. injection Hm' as <-.
      split_and!; [done | done |]. destruct dir; simpl in *; lia.
    + repeat constructor; [by exists n | by exists m | done].
  - destruct (IH Hrest Hsorted) as (l & Hins & Hl & Hints).
    rewrite Hins. simpl. eexists. split; [done |]. split.
    + constructor; [done |].
      rewrite (sort_insert_permutation _ _ _ _ Hins).
      constructor; [| done]. exists m, n. auto.
    + constructor; [by exists m | done].
Qed.

(** On records whose sort field holds integers the sort succeeds and puts
    them in the order of the direction. *)
Lemma Array_sort_ordered (l : list record) :
  Forall (integer_field field) l →
  ∃ sorted, Array_sort (compareFn field dir) l = Some sorted
            ∧ ordered_by field dir sorted.
Proof.
  unfold Array_sort.
  assert (∀ acc,
            Forall (integer_field field) acc → ordered_by field dir acc →
            Forall (integer_field field) l →
            ∃ sorted,
              foldl (λ (acc : option (list record)) x,
                       sorted ← acc; sort_insert (compareFn field dir) x sorted)
                (Some acc) l = Some sorted
              ∧ ordered_by field dir sorted) as Hgen.
  { induction l as [| x l IH]; intros acc Hacc Hsorted Hl; simpl.
    - by exists acc.
    - apply Forall_cons in Hl as [Hx Hl].
      destruct (sort_insert_ordered x acc Hx Hacc Hsorted)
        as (acc' & -> & Hsorted' & Hacc').
      by apply IH. }
  intros Hl. apply Hgen; [done | constructor | done].
Qed.
End ordered.

Section query.
Context (config : UniversalSDKConfig).
Abbreviation path_of := (UniversalSDK.collection_path config).
Abbreviation save := (UniversalSDK.save config).
Abbreviation get := (UniversalSDK.get config).

(** [get] starts with a read, and touches nothing of the client. *)
Lemma get_sends_read (collection : string) (σ σ1 : state)
    (r : outcome (list record)) :
  get collection σ = (σ1, r) →
  same_client σ σ1
  ∧ ∃ o rest, trace σ1 = trace σ ++ CGet (path_of collection) o :: rest.
Proof.
  destruct (request (path_of collection) GET σ) as [σg rg] eqn:Hreq.
  pose proof Hreq as (o & Hσg & Ho)%request_GET_inv.
  assert (same_client σ σg) as Hclient by (subst σg; apply arrive_client).
  assert (trace σg = trace σ ++ [CGet (path_of collection) o]) as Htrace.
  { subst σg. simpl. by rewrite arrive_trace. }
  destruct Ho as [(b & -> & _) | (msg & -> & _)].
  - rewrite (get_found _ _ _ _ _ Hreq). intros [= <- <-].
    split; [done |]. by exists o, [].
  - rewrite (get_failed _ _ _ _ _ Hreq).
    destruct (treated_as_missing msg).
    + destruct (save collection [] σg) as [σs rs] eqn:Hsave.
      apply save_inv in Hsave as (o' & found & ok & Hsent & Hclient' & _).
      intros [= <- <-]. split.
      * by eapply same_client_trans.
      * eexists o, _. rewrite Hsent, Htrace. by rewrite <- (assoc_L (++)).
    + intros [= <- <-]. split; [done |]. by exists o, [].
Qed.
End query.

(** C3, as amended: [queryBuilder] sends the fetch of the collection when
    the builder is created and the builder keeps the outcome; [exec] sends
    no request and leaves the repository alone, its result is determined by
    the builder, and the builder afterwards holds the same records (sorted,
    when [exec] sorted them in place) with the same filters, sort and
    projection.  So every [exec] on one builder works on the records that
    were fetched when the builder was created. *)
Theorem queryBuilder_fetches_at_creation (config : UniversalSDKConfig)
    (collection : string) :
  (∀ σ, ∃ σ1 o rest,
     UniversalSDK.queryBuilder config collection σ
     = (σ1, Returned (length (builders σ)))
     ∧ trace σ1
       = trace σ ++ CGet (UniversalSDK.collection_path config collection) o
                    :: rest
     ∧ builders σ1 !! length (builders σ)
       = Some (blank_builder collection
                 (UniversalSDK.get config collection σ).2))
  ∧ (∀ qb σ σ' r, UniversalSDK.exec qb σ = (σ', r) → same_repository σ σ')
  ∧ (∀ qb σa σb,
       builders σa !! qb = builders σb !! qb →
       (UniversalSDK.exec qb σa).2 = (UniversalSDK.exec qb σb).2)
  ∧ (∀ qb σ σ' r b,
       UniversalSDK.exec qb σ = (σ', r) → builders σ !! qb = Some b →
       ∃ b', builders σ' !! qb = Some b'
             ∧ same_records (query b) (query b')
             ∧ set_query (query b) b' = b).
Proof.
  split_and!.
  - intros σ. unfold UniversalSDK.queryBuilder.
    destruct (UniversalSDK.get config collection σ) as [σg q] eqn:Hget.
    apply get_sends_read in Hget as [(_ & Hbuilders & _) (o & rest & Htrace)].
    simpl. rewrite !Hbuilders. eexists _, o, rest.
    split_and!; [done | done |].
    simpl. by rewrite lookup_app_r, Nat.sub_diag.
  - intros qb σ σ' r. unfold UniversalSDK.exec.
    destruct (builders σ !! qb) as [b |]; [| by intros [= <- <-]].
    destruct (query b) as [fetched | msg |]; try by intros [= <- <-].
    destruct (truthy (sortField b)) as [field |]; [| by intros [= <- <-]].
    destruct (Array_sort _ _) as [sorted |]; [| by intros [= <- <-]].
    destruct (filters b); by intros [= <- <-].
  - intros qb σa σb Hsame. unfold UniversalSDK.exec. rewrite Hsame.
    destruct (builders σb !! qb) as [b |]; [| done].
    destruct (query b) as [fetched | msg |]; try done.
    destruct (truthy (sortField b)) as [field |]; [| done].
    by destruct (Array_sort _ _) as [sorted |].
  - intros qb σ σ' r b Hexec Hb. unfold UniversalSDK.exec in Hexec.
    rewrite Hb in Hexec.
    assert (same_records (query b) (query b) ∧ set_query (query b) b = b)
      as [Hrefl Hid].
    { split; [| by destruct b]. unfold same_records. by destruct (query b). }
    destruct (query b) as [fetched | msg |] eqn:Hq;
      try (injection Hexec as <- <-; exists b; by rewrite Hq).
    destruct (truthy (sortField b)) as [field |];
      [| injection Hexec as <- <-; exists b; by rewrite Hq].
    destruct (Array_sort _ _) as [sorted |] eqn:Hsort;
      [| injection Hexec as <- <-; exists b; by rewrite Hq].
    destruct (filters b) as [| fn fns] eqn:Hfilters;
      [| injection Hexec as <- <-; exists b; by rewrite Hq].
    injection Hexec as <- <-. simpl in Hsort.
    apply Array_sort_permutation in Hsort.
    exists (set_query (Returned sorted) b). simpl. split_and!.
    + apply list_lookup_insert_eq. by eapply lookup_lt_Some.
    + done.
    + destruct b; simpl in *. by subst.
Qed.

(** Creating the builder sends the fetch at once. *)
Lemma queryBuilder_fetches_at_creation_counterexample :
  ¬ fetch_waits_for_exec example_config
      (state_with "db/items.json" [ {[ "a" := VNum 3 ]} ] []) "items".
Proof.
  intros H. set (σ := state_with _ _ _) in H.
  assert (trace (UniversalSDK.queryBuilder example_config "items" σ).1
          = [CGet "db/items.json" (Some 1%nat)]
          ∧ (UniversalSDK.queryBuilder example_config "items" σ).2
            = Returned 0%nat) as [Htrace Hqb]
    by (vm_compute; done).
  destruct (UniversalSDK.queryBuilder example_config "items" σ) as [σ1 r] eqn:Hrun.
  simpl in Htrace, Hqb. subst r.
  destruct (H σ1 0%nat Hrun) as [Hnone _]. by rewrite Htrace in Hnone.
Qed.

(** A record is inserted between two calls of [exec] on one builder: both
    calls return the collection as it was when the builder was created. *)
Lemma exec_reads_the_creation_snapshot :
  let σ := state_with "db/items.json" [ {[ "a" := VNum 3 ]} ] [] in
  ((qb ← UniversalSDK.queryBuilder example_config "items";
    first ← UniversalSDK.exec qb;
    _ ← UniversalSDK.insert example_config "items" {[ "a" := VNum 9 ]};
    second ← UniversalSDK.exec qb;
    now ← UniversalSDK.get example_config "items";
    mret (first, second, length now)) σ).2
  = Returned (held <$> [ {[ "a" := VNum 3 ]} ],
              held <$> [ {[ "a" := VNum 3 ]} ], 2%nat).
Proof. vm_compute. reflexivity. Qed.

(** The builder that [where], [sort] and [project] return is a new one:
    it has fetched the collection again and has nothing recorded. *)
Lemma chain_returns_blank_builder (config : UniversalSDKConfig) (qb qb' : nat)
    (change : QueryBuilder → QueryBuilder) (σ σ' : state) :
  UniversalSDK.chain config qb change σ = (σ', Returned qb') →
  ∃ b q, builders σ !! qb = Some b
         ∧ builders σ' !! qb' = Some (blank_builder (collection_of b) q)
         ∧ builders σ' !! qb = Some (change b)
         ∧ qb' = length (builders σ).
Proof.
  unfold UniversalSDK.chain.
  destruct (builders σ !! qb) as [b |] eqn:Hb; [| done].
  unfold UniversalSDK.queryBuilder.
  destruct (UniversalSDK.get config (collection_of b) _) as [σg q] eqn:Hget.
  apply get_sends_read in Hget as [(_ & Hbuilders & _) _].
  simpl in Hbuilders. intros [= <- <-]. exists b, q. simpl.
  rewrite !Hbuilders, length_insert.
  split_and!; [done | | | done].
  - rewrite lookup_app_r by (by rewrite length_insert).
    by rewrite length_insert, Nat.sub_diag.
  - rewrite lookup_app_l by (rewrite length_insert; by eapply lookup_lt_Some).
    apply list_lookup_insert_eq. by eapply lookup_lt_Some.
Qed.

(** The chained calls lose what they record: [sort("a","asc").exec()]
    returns the records unsorted, and
    [where(r => r.a > 1).project(["a"]).exec()] returns all of them.  The
    same calls made one after the other on the builder that [queryBuilder]
    returned do filter, sort and project. *)
Lemma chained_query_loses_state :
  let σ := state_with "db/items.json" three_records [] in
  ((qb ← UniversalSDK.queryBuilder example_config "items";
    qb ← UniversalSDK.sort example_config qb "a" asc;
    UniversalSDK.exec qb) σ).2
  = Returned (held <$> three_records)
  ∧ ((qb ← UniversalSDK.queryBuilder example_config "items";
      qb ← UniversalSDK.where_ example_config qb a_above_1;
      qb ← UniversalSDK.project example_config qb ["a"];
      UniversalSDK.exec qb) σ).2
    = Returned (held <$> three_records)
  ∧ ((qb ← UniversalSDK.queryBuilder example_config "items";
      _ ← UniversalSDK.sort example_config qb "a" asc;
      UniversalSDK.exec qb) σ).2
    = Returned
        (held <$> [ {[ "a" := VNum 1 ]}; {[ "a" := VNum 2 ]}; {[ "a" := VNum 3 ]} ])
  ∧ ((qb ← UniversalSDK.queryBuilder example_config "items";
      _ ← UniversalSDK.where_ example_config qb a_above_1;
      _ ← UniversalSDK.project example_config qb ["a"];
      UniversalSDK.exec qb) σ).2
    = Returned (held <$> [ {[ "a" := VNum 3 ]}; {[ "a" := VNum 2 ]} ]).
Proof. vm_compute. done. Qed.

Lemma filter_filter {A} (p q : A → bool) (l : list A) :
  List.filter p (List.filter q l) = List.filter (λ x, q x && p x) l.
Proof.
  induction l as [| x l IH]; simpl; [done |].
  destruct (q x); simpl; [| done]. destruct (p x); by rewrite IH.
Qed.

(** Filtering by one predicate after the other keeps what all of them
    accept. *)
Lemma filters_conjoined {A} (fns : list (A → bool)) (l : list A) :
  foldl (λ rs fn, List.filter fn rs) l fns
  = List.filter (λ x, forallb (λ fn, fn x) fns) l.
Proof.
  revert l. induction fns as [| fn fns IH]; intros l; simpl.
  - induction l as [| x l IHl]; simpl; [done |]. by rewrite <- IHl.
  - by rewrite IH, filter_filter.
Qed.

Lemma assign_lookup_ne (field f : string) (v : member)
    (o : object * prototype) :
  f ≠ field → (assign field v o).1 !! f = o.1 !! f.
Proof.
  intros Hne. unfold assign.
  destruct (bool_decide (field = "__proto__") && reaches_accessor o.1 o.2);
    simpl; [done |].
  by apply lookup_insert_ne.
Qed.

Lemma assign_lookup_eq (field : string) (v : member)
    (o : object * prototype) :
  field ≠ "__proto__" → (assign field v o).1 !! field = Some v.
Proof.
  intros Hne. unfold assign. rewrite bool_decide_eq_false_2 by done.
  simpl. apply lookup_insert_eq.
Qed.

Lemma projected_fold_lookup (fields : list string) (item : record)
    (f : string) (acc : object * prototype) :
  let built :=
    (foldl (λ o field, assign field (member_of item field) o) acc fields).1 in
  (f ∉ fields → built !! f = acc.1 !! f)
  ∧ (f ∈ fields → f ≠ "__proto__" → built !! f = Some (member_of item f)).
Proof.
  revert acc. induction fields as [| g rest IH]; intros acc; cbn [foldl].
  - split; [done |]. by intros ?%elem_of_nil.
  - destruct (IH (assign g (member_of item g) acc)) as [Hout Hin]. split.
    + intros [Hne Hrest]%not_elem_of_cons.
      rewrite (Hout Hrest). by apply assign_lookup_ne.
    + intros Hf Hname. destruct (decide (f ∈ rest)) as [Hrest | Hrest].
      * by apply Hin.
      * apply elem_of_cons in Hf as [-> | Hf]; [| done].
        rewrite (Hout Hrest). by apply assign_lookup_eq.
Qed.

(** The object that a projection builds has the listed fields and no
    other; a listed field holds [item[field]], except that [__proto__] is
    assigned through the accessor where the assignment reaches it. *)
Lemma projected_lookup (fields : list string) (item : record) (f : string) :
  (f ∉ fields → projected fields item !! f = None)
  ∧ (f ∈ fields → f ≠ "__proto__" →
       projected fields item !! f = Some (member_of item f)).
Proof.
  unfold projected.
  destruct (projected_fold_lookup fields item f (∅, Object_prototype))
    as [Hout Hin].
  split; [| done]. intros Hf. by rewrite (Hout Hf).
Qed.

(** What a projection makes of names that [Object.prototype] defines: a
    member that the record lacks is copied from the prototype, one that it
    has is copied from the record, and [__proto__] makes no field. *)
Lemma projection_reads_inherited_members :
  let item : record := {[ "a" := VNum 1; "toString" := VStr "mine" ]} in
  projected ["a"; "b"; "constructor"; "toString"; "__proto__"] item
  = {[ "a" := Held (VNum 1); "b" := Held VUndefined;
       "constructor" := Builtin "constructor";
       "toString" := Held (VStr "mine") ]}.
Proof. vm_compute. reflexivity. Qed.

(** C2, as amended: [where], [sort] and [project] record the filter, the
    sort and the projection on the builder on which they are called, and
    [exec] works on what has been recorded on the builder on which it is
    called.  It keeps the fetched records that every recorded filter
    accepts, in the order of the collection; if a sort field is set it sorts
    them with the comparator of that field and direction, which permutes
    them and, when the field holds integers, puts them in the order of the
    direction; and if a projection is set it builds for every record a new
    object from the listed fields only: a field that is not listed is left
    out, and a listed field holds [item[field]], which for a field that the
    record lacks is the member of [Object.prototype] of that name or else
    [undefined].  (A listed [__proto__] is left out of this: where the
    assignment reaches the accessor of [Object.prototype] it makes no
    field.)  On the records [{a:3},{a:1},{a:2}], with [sort("a","asc")]
    recorded [exec] returns [{a:1},{a:2},{a:3}], and with
    [where(r => r.a > 1)] and [project(["a"])] recorded it returns
    [{a:3},{a:2}], in the order of the collection. *)
Theorem exec_filters_sorts_projects (qb : nat) (σ : state) (b : QueryBuilder)
    (fetched : list record) :
  builders σ !! qb = Some b →
  query b = Returned fetched →
  let kept := List.filter (λ x, forallb (λ fn, fn x) (filters b)) fetched in
  (truthy (sortField b) = None →
     (UniversalSDK.exec qb σ).2
     = Returned (apply_projection (projectionFields b) kept))
  ∧ (∀ field sorted,
       truthy (sortField b) = Some field →
       Array_sort (compareFn field (sortDir b)) kept = Some sorted →
       sorted ≡ₚ kept
       ∧ (UniversalSDK.exec qb σ).2
         = Returned (apply_projection (projectionFields b) sorted))
  ∧ (∀ field,
       truthy (sortField b) = Some field →
       Forall (integer_field field) kept →
       ∃ sorted,
         ordered_by field (sortDir b) sorted
         ∧ (UniversalSDK.exec qb σ).2
           = Returned (apply_projection (projectionFields b) sorted))
  ∧ (∀ fields results i item f,
       apply_projection (Some fields) results !! i = Some item →
       ∃ whole, results !! i = Some whole
                ∧ (f ∉ fields → item !! f = None)
                ∧ (f ∈ fields → f ≠ "__proto__" →
                     item !! f = Some (member_of whole f)))
  ∧ (∀ config change σ' qb',
       UniversalSDK.chain config qb change σ = (σ', Returned qb') →
       builders σ' !! qb = Some (change b))
  ∧ (let σ3 := state_with "db/items.json" three_records [] in
     ((qb ← UniversalSDK.queryBuilder example_config "items";
       _ ← UniversalSDK.sort example_config qb "a" asc;
       UniversalSDK.exec qb) σ3).2
     = Returned
         (held <$> [ {[ "a" := VNum 1 ]}; {[ "a" := VNum 2 ]};
                     {[ "a" := VNum 3 ]} ])
     ∧ ((qb ← UniversalSDK.queryBuilder example_config "items";
         _ ← UniversalSDK.where_ example_config qb a_above_1;
         _ ← UniversalSDK.project example_config qb ["a"];
         UniversalSDK.exec qb) σ3).2
       = Returned (held <$> [ {[ "a" := VNum 3 ]}; {[ "a" := VNum 2 ]} ])).
Proof.
  intros Hb Hq kept. split_and!.
  - intros Hnosort. unfold UniversalSDK.exec.
    by rewrite Hb, Hq, Hnosort, filters_conjoined.
  - intros field sorted Hfield Hsort. split.
    { by apply Array_sort_permutation in Hsort. }
    unfold UniversalSDK.exec.
    rewrite Hb, Hq, Hfield, filters_conjoined. fold kept. rewrite Hsort.
    by destruct (filters b).
  - intros field Hfield Hints.
    destruct (Array_sort_ordered field (sortDir b) kept Hints)
      as (sorted & Hsort & Hordered).
    exists sorted. split; [done |]. unfold UniversalSDK.exec.
    rewrite Hb, Hq, Hfield, filters_conjoined. fold kept. rewrite Hsort.
    by destruct (filters b).
  - intros fields results i item f. simpl. rewrite list_lookup_fmap.
    destruct (results !! i) as [whole |]; simpl; [| done].
    intros [= <-]. exists whole. split; [done |]. apply projected_lookup.
  - intros config change σ' qb' Hchain.
    apply chain_returns_blank_builder in Hchain
      as (b0 & q & Hb0 & _ & Hrecorded & _).
    rewrite Hb in Hb0. by injection Hb0 as <-.
  - vm_compute. done.
Qed.

Lemma exec_filters_sorts_projects_witness :
  let σ := ((qb ← UniversalSDK.queryBuilder example_config "items";
             _ ← UniversalSDK.where_ example_config qb a_above_1;
             UniversalSDK.project example_config qb ["a"])
              (state_with "db/items.json" three_records [])).1 in
  (UniversalSDK.exec 0 σ).2
  = Returned (apply_projection (Some ["a"])
                (List.filter (λ x, forallb (λ fn, fn x) [a_above_1])
                   three_records)).
Proof.
  intros σ.
  refine (proj1 (exec_filters_sorts_projects 0 σ
                   {| collection_of := "items"; query := Returned three_records;
                      filters := [a_above_1]; sortField := None; sortDir := asc;
                      projectionFields := Some ["a"] |}
                   three_records _ _) _); reflexivity.
Defined.

(** Neither of the two chained calls returns what the specification gives
    for it; the second would not even on one builder, since nothing sorts
    the records that the filter keeps. *)
Lemma exec_filters_sorts_projects_counterexample :
  ¬ chained_examples_hold example_config.
Proof.
  intros [_ H].
  apply (f_equal (λ r, match r with
                       | Returned l => length l
                       | _ => 0%nat
                       end)) in H.
  vm_compute in H. done.
Qed.

(** * Invariants of the methods *)

(** A relation on states that is reflexive and transitive is kept by the
    ways of putting methods together. *)
Section moving.
Context (R : relation state) (R_refl : Reflexive R) (R_trans : Transitive R).

Lemma ret_moves {A} (a : A) : moves_along R (mret a : M A).
Proof using R_refl R_trans. intros σ σ' r [= <- _]. reflexivity. Qed.

Lemma throw_moves {A} (message : string) : moves_along R (throw message : M A).
Proof using R_refl R_trans. intros σ σ' r [= <- _]. reflexivity. Qed.

Lemma decided_moves {A} (o : option A) : moves_along R (decided o).
Proof using R_refl R_trans. intros σ σ' r ->%decided_state. reflexivity. Qed.

Lemma bind_moves {A B} (m : M A) (k : A → M B) :
  moves_along R m → (∀ a, moves_along R (k a)) → moves_along R (m ≫= k).
Proof using R_refl R_trans.
  intros Hm Hk σ σ' r Hrun.
  apply bind_inv in Hrun as [(σ1 & a & H1 & H2) | [(msg & H1 & _) | [H1 _]]].
  - transitivity σ1; [by eapply Hm | by eapply Hk].
  - by eapply Hm.
  - by eapply Hm.
Qed.

Lemma try_catch_moves {A} (body : M A) (handler : string → M A) :
  moves_along R body → (∀ message, moves_along R (handler message)) →
  moves_along R (try_catch body handler).
Proof using R_refl R_trans.
  intros Hbody Hhandler σ σ' r. unfold try_catch.
  destruct (body σ) as [σ1 [a | message |]] eqn:Hrun.
  - intros [= <- <-]. by eapply Hbody.
  - intros Hcatch. transitivity σ1; [by eapply Hbody | by eapply Hhandler].
  - intros [= <- <-]. by eapply Hbody.
Qed.

Lemma for_each_moves {A} (l : list A) (f : A → M ()) :
  (∀ x, moves_along R (f x)) → moves_along R (for_each l f).
Proof using R_refl R_trans.
  intros Hf. induction l as [| x l IH]; simpl.
  - apply ret_moves.
  - apply bind_moves; [apply Hf | by intros _].
Qed.

Lemma Date_now_moves : moves_along R Date_now.
Proof using R_refl R_trans. intros σ σ' r [= <- _]. reflexivity. Qed.

Lemma validateSchema_moves (config : UniversalSDKConfig)
    (collection : string) (item : record) :
  moves_along R (UniversalSDK.validateSchema config collection item).
Proof using R_refl R_trans. intros σ σ' r ->%validateSchema_state. reflexivity. Qed.
End moving.

(** The methods of the store keep such a relation as soon as the requests
    for the files in [scope], the entries of their audit logs, the drawing
    of identifiers and the builders kept on the side do. *)
Section moving_methods.
Context (config : UniversalSDKConfig).
Context (R : relation state) (R_refl : Reflexive R) (R_trans : Transitive R).
Context (scope : string → Prop).
Hypothesis request_moves : ∀ collection method,
  scope collection →
  moves_along R (request (UniversalSDK.collection_path config collection) method).
Hypothesis audit_moves : ∀ collection data action,
  scope collection → moves_along R (UniversalSDK._audit collection data action).
Hypothesis uuid_moves : moves_along R randomUUID.
Hypothesis builders_move : ∀ bs σ, R σ (with_builders bs σ).
Hypothesis listing_moves :
  moves_along R (request_contents (UniversalSDK.this_basePath config)).

Lemma save_moves (collection : string) (data : list record) :
  scope collection → moves_along R (UniversalSDK.save config collection data).
Proof using request_moves R_refl R_trans.
  intros Hin. unfold UniversalSDK.save.
  apply bind_moves; [done.. | |].
  - apply try_catch_moves; [done.. | |].
    + apply bind_moves; [done.. | by apply request_moves |].
      intros b. by apply ret_moves.
    + intros _. by apply ret_moves.
  - intros o. apply bind_moves; [done.. | by apply request_moves |].
    intros _. by apply ret_moves.
Qed.

Lemma initializeCollection_moves (collection : string) :
  scope collection →
  moves_along R (UniversalSDK.initializeCollection config collection).
Proof using request_moves R_refl R_trans.
  intros Hin. apply try_catch_moves; [done.. | by apply save_moves |].
  intros _. by apply ret_moves.
Qed.

Lemma get_moves (collection : string) :
  scope collection → moves_along R (UniversalSDK.get config collection).
Proof using request_moves R_refl R_trans.
  intros Hin. apply try_catch_moves; [done.. | |].
  - apply bind_moves; [done.. | by apply request_moves |].
    intros b. by apply ret_moves.
  - intros message.
    destruct (includes "404" message || includes "empty" message).
    + apply bind_moves; [done.. | by apply initializeCollection_moves |].
      intros _. by apply ret_moves.
    + by apply throw_moves.
Qed.

Lemma getItem_moves (collection key : string) :
  scope collection → moves_along R (UniversalSDK.getItem config collection key).
Proof using request_moves R_refl R_trans.
  intros Hin. apply bind_moves; [done.. | by apply get_moves |].
  intros arr. by apply ret_moves.
Qed.

Lemma insert_moves (collection : string) (item : record) :
  scope collection → moves_along R (UniversalSDK.insert config collection item).
Proof using request_moves audit_moves uuid_moves R_refl R_trans.
  intros Hin. unfold UniversalSDK.insert.
  apply bind_moves; [done.. | by apply get_moves |]. intros arr.
  apply bind_moves; [done.. | by apply validateSchema_moves |]. intros _.
  apply bind_moves; [done.. | by apply decided_moves |]. intros n.
  apply bind_moves; [done.. | by apply decided_moves |]. intros id.
  apply bind_moves; [done.. | by apply uuid_moves |]. intros uid.
  apply bind_moves; [done.. | by apply save_moves |]. intros _.
  apply bind_moves; [done.. | by apply audit_moves |]. intros _.
  by apply ret_moves.
Qed.

Lemma bulkInsert_loop_moves (collection : string) (items : list record)
    (nextId : Z) (arr results : list record) :
  moves_along R
    (UniversalSDK.bulkInsert_loop config collection items nextId arr results).
Proof using uuid_moves R_refl R_trans.
  revert nextId arr results.
  induction items as [| item items IH]; intros nextId arr results; simpl.
  - by apply ret_moves.
  - apply bind_moves; [done.. | by apply validateSchema_moves |]. intros _.
    apply bind_moves; [done.. | by apply uuid_moves |]. intros uid.
    apply bind_moves; [done.. | by apply decided_moves |]. intros id.
    apply IH.
Qed.

Lemma bulkInsert_moves (collection : string) (items : list record) :
  scope collection →
  moves_along R (UniversalSDK.bulkInsert config collection items).
Proof using request_moves uuid_moves R_refl R_trans.
  intros Hin. unfold UniversalSDK.bulkInsert.
  apply bind_moves; [done.. | by apply get_moves |]. intros arr.
  apply bind_moves; [done.. | by apply decided_moves |]. intros nextId.
  apply bind_moves; [done.. | by apply bulkInsert_loop_moves |].
  intros [arr' results].
  apply bind_moves; [done.. | by apply save_moves |]. intros _.
  by apply ret_moves.
Qed.

Lemma update_moves (collection key : string) (updates : record) :
  scope collection →
  moves_along R (UniversalSDK.update config collection key updates).
Proof using request_moves audit_moves R_refl R_trans.
  intros Hin. unfold UniversalSDK.update.
  apply bind_moves; [done.. | by apply get_moves |]. intros arr.
  destruct (findIndex key arr) as [index |]; [| by apply ret_moves].
  apply bind_moves; [done.. | by apply save_moves |]. intros _.
  apply bind_moves; [done.. | by apply audit_moves |]. intros _.
  by apply ret_moves.
Qed.

Lemma delete_moves (collection key : string) :
  scope collection →
  moves_along R (UniversalSDK.delete config collection key).
Proof using request_moves audit_moves R_refl R_trans.
  intros Hin. unfold UniversalSDK.delete.
  apply bind_moves; [done.. | by apply get_moves |]. intros arr.
  destruct (findIndex key arr) as [index |]; [| by apply ret_moves].
  apply bind_moves; [done.. | by apply save_moves |]. intros _.
  apply bind_moves; [done.. | by apply audit_moves |]. intros _.
  by apply ret_moves.
Qed.

Lemma mutate_moves (collection : string) (m : mutation) :
  scope collection → moves_along R (mutate config collection m).
Proof using request_moves audit_moves uuid_moves R_refl R_trans.
  intros Hin.
  destruct m as [item | items | key updates | key]; simpl; unfold discard;
    (apply bind_moves; [done.. | | intros _; by apply ret_moves]).
  - by apply insert_moves.
  - by apply bulkInsert_moves.
  - by apply update_moves.
  - by apply delete_moves.
Qed.

Lemma queryBuilder_moves (collection : string) :
  scope collection →
  moves_along R (UniversalSDK.queryBuilder config collection).
Proof using request_moves builders_move R_refl R_trans.
  intros Hin σ σ' r. unfold UniversalSDK.queryBuilder.
  destruct (UniversalSDK.get config collection σ) as [σ1 q] eqn:Hget.
  intros [= <- _]. transitivity σ1; [| apply builders_move].
  by eapply get_moves.
Qed.

Lemma exec_moves (qb : nat) : moves_along R (UniversalSDK.exec qb).
Proof using builders_move R_refl.
  intros σ σ' r. unfold UniversalSDK.exec.
  destruct (builders σ !! qb) as [b |]; [| intros [= <- _]; reflexivity].
  destruct (query b) as [fetched | message |];
    [| intros [= <- _]; reflexivity..].
  destruct (truthy (sortField b)) as [field |];
    [| intros [= <- _]; reflexivity].
  destruct (Array_sort _ _) as [sorted |]; [| intros [= <- _]; reflexivity].
  intros [= <- _]. destruct (filters b); [apply builders_move | reflexivity].
Qed.

Lemma register_moves (userData : record) :
  scope "users" → moves_along R (UniversalSDK.register config userData).
Proof using request_moves audit_moves uuid_moves R_refl R_trans.
  intros Hin. unfold UniversalSDK.register.
  apply bind_moves; [done.. | by apply get_moves |]. intros users.
  destruct (List.find _ users); [by apply throw_moves | by apply insert_moves].
Qed.

Lemma login_moves (credentials : Credentials)
    (sessionStore : gmap string Session) :
  scope "users" →
  moves_along R (UniversalSDK.login config credentials sessionStore).
Proof using request_moves uuid_moves R_refl R_trans.
  intros Hin. unfold UniversalSDK.login.
  apply bind_moves; [done.. | by apply get_moves |]. intros users.
  destruct (List.find _ users); [| by apply throw_moves].
  apply bind_moves; [done.. | by apply uuid_moves |]. intros token.
  apply bind_moves; [done.. | by apply Date_now_moves |]. intros created.
  by apply ret_moves.
Qed.

Lemma getCurrentUser_moves :
  scope "users" → moves_along R (UniversalSDK.getCurrentUser config).
Proof using request_moves R_refl R_trans.
  intros Hin. apply bind_moves; [done.. | by apply get_moves |].
  intros users. by apply ret_moves.
Qed.

Lemma initializeSampleData_moves :
  (∀ collection, scope collection) →
  moves_along R (UniversalSDK.initializeSampleData config).
Proof using request_moves audit_moves uuid_moves R_refl R_trans.
  intros Hin. apply try_catch_moves; [done.. | | intros _; by apply ret_moves].
  apply bind_moves; [done.. | by apply insert_moves |]. intros _.
  apply bind_moves; [done.. | |].
  { apply for_each_moves; [done.. |]. intros x.
    apply bind_moves; [done.. | by apply insert_moves |].
    intros _. by apply ret_moves. }
  intros _. apply bind_moves; [done.. | |].
  { apply for_each_moves; [done.. |]. intros x.
    apply bind_moves; [done.. | by apply insert_moves |].
    intros _. by apply ret_moves. }
  intros _. by apply ret_moves.
Qed.

Lemma listCollections_moves :
  moves_along R (UniversalSDK.listCollections config).
Proof using listing_moves R_refl R_trans.
  apply try_catch_moves; [done.. | |].
  - apply bind_moves; [done.. | apply listing_moves |].
    intros [b | names]; by apply ret_moves.
  - intros message.
    destruct (includes "empty" message || includes "404" message);
      by apply throw_moves.
Qed.

Lemma init_moves :
  (∀ collection, scope collection) →
  moves_along R (UniversalSDK.init config).
Proof using All.
  intros Hin. apply try_catch_moves; [done.. | |].
  - apply bind_moves; [done.. | apply listCollections_moves |].
    intros _. by apply ret_moves.
  - intros message.
    destruct (includes "empty" message || includes "404" message);
      [| by apply throw_moves].
    apply bind_moves; [done.. | |].
    + apply for_each_moves; [done.. |]. intros collection.
      by apply initializeCollection_moves.
    + intros _. by apply initializeSampleData_moves.
Qed.
End moving_methods.

(** ** The relations *)

Lemma keeps_files_refl : Reflexive keeps_files.
Proof. by intros σ path. Qed.
#[local] Existing Instance keeps_files_refl.

Lemma keeps_files_trans : Transitive keeps_files.
Proof. intros σ1 σ2 σ3 H12 H23 path Hpath. by apply H23, H12. Qed.
#[local] Existing Instance keeps_files_trans.

Lemma log_grows_refl : Reflexive log_grows.
Proof. by intros σ collection. Qed.
#[local] Existing Instance log_grows_refl.

Lemma log_grows_trans : Transitive log_grows.
Proof.
  intros σ1 σ2 σ3 H12 H23 collection.
  by etransitivity; [apply H12 | apply H23].
Qed.
#[local] Existing Instance log_grows_trans.

Lemma sends_to_refl (path : string) : Reflexive (sends_to path).
Proof. intros σ. exists []. by rewrite app_nil_r. Qed.
#[local] Existing Instance sends_to_refl.

Lemma sends_to_trans (path : string) : Transitive (sends_to path).
Proof.
  intros σ1 σ2 σ3 (s12 & H12 & Hs12) (s23 & H23 & Hs23).
  exists (s12 ++ s23). split.
  - by rewrite H23, H12, (assoc_L (++)).
  - by apply Forall_app.
Qed.
#[local] Existing Instance sends_to_trans.

Lemma changes_only_refl (path : string) :
  Reflexive (changes_only path).
Proof. by intros σ Hquiet. Qed.
#[local] Existing Instance changes_only_refl.

Lemma changes_only_trans (path : string) :
  Transitive (changes_only path).
Proof.
  intros σ1 σ2 σ3 H12 H23 Hquiet.
  destruct (H12 Hquiet) as [Hquiet2 Hsame2].
  destruct (H23 Hquiet2) as [Hquiet3 Hsame3].
  split; [done |]. intros other Hother.
  by rewrite Hsame3, Hsame2.
Qed.
#[local] Existing Instance changes_only_trans.

(** ** Requests *)

Lemma request_client (path : string) (method : http_method) (σ σ' : state)
    (r : outcome blob) :
  request path method σ = (σ', r) → same_client σ σ'.
Proof.
  pose proof (arrive_client σ) as Hclient. unfold request.
  destruct (arrive σ) as [σ1 fault]. simpl in Hclient.
  destruct method as [| body].
  - destruct fault as [message |]; [by intros [= <- _] |].
    by destruct (remote σ1 !! path); intros [= <- _].
  - destruct fault as [message |]; [by intros [= <- _] |].
    by destruct (accepts _ _); intros [= <- _].
Qed.

Lemma request_contents_client (path : string) (σ σ' : state)
    (r : outcome contents) :
  request_contents path σ = (σ', r) → same_client σ σ'.
Proof.
  pose proof (arrive_client σ) as Hclient. unfold request_contents.
  destruct (arrive σ) as [σ1 fault]. simpl in Hclient.
  destruct fault as [message |]; [by intros [= <- _] |].
  destruct (remote σ1 !! path); [by intros [= <- _] |].
  by destruct (entries path (remote σ1)); intros [= <- _].
Qed.

Lemma arrive_keeps_files (σ : state) : keeps_files σ (arrive σ).1.
Proof.
  unfold arrive. destruct (pending σ) as [| [| message | path data] rest];
    simpl; try (by intros other Hother).
  intros other Hother. simpl.
  destruct (decide (path = other)) as [-> | Hne].
  - by rewrite lookup_insert_eq.
  - by rewrite lookup_insert_ne.
Qed.

Lemma request_keeps_files (path : string) (method : http_method) :
  moves_along keeps_files (request path method).
Proof.
  intros σ σ' r. pose proof (arrive_keeps_files σ) as Hkeeps. unfold request.
  destruct (arrive σ) as [σ1 fault]. simpl in Hkeeps.
  destruct method as [| body].
  - destruct fault as [message |]; [by intros [= <- _] |].
    by destruct (remote σ1 !! path); intros [= <- _].
  - destruct fault as [message |]; [by intros [= <- _] |].
    destruct (accepts _ _); intros [= <- _]; [| done].
    intros other Hother%Hkeeps. simpl.
    destruct (decide (path = other)) as [-> | Hne].
    + by rewrite lookup_insert_eq.
    + by rewrite lookup_insert_ne.
Qed.

Lemma request_contents_keeps_files (path : string) :
  moves_along keeps_files (request_contents path).
Proof.
  intros σ σ' r. pose proof (arrive_keeps_files σ) as Hkeeps.
  unfold request_contents.
  destruct (arrive σ) as [σ1 fault]. simpl in Hkeeps.
  destruct fault as [message |]; [by intros [= <- _] |].
  destruct (remote σ1 !! path); [by intros [= <- _] |].
  by destruct (entries path (remote σ1)); intros [= <- _].
Qed.

Lemma same_client_log_grows (σ σ' : state) : same_client σ σ' → log_grows σ σ'.
Proof. intros (Hlog & _) collection. unfold log_of. by rewrite Hlog. Qed.

Lemma audit_log_grows (collection : string) (data : record)
    (action : string) :
  moves_along log_grows (UniversalSDK._audit collection data action).
Proof.
  intros σ σ' r [(_ & _ & ->) | (_ & -> & _)]%audit_inv other; [| done].
  unfold log_of at 2. simpl.
  destruct (decide (collection = other)) as [-> | Hne].
  - rewrite lookup_insert_eq. simpl. by apply prefix_app_r.
  - rewrite lookup_insert_ne by done. done.
Qed.

Lemma request_sends_to (path : string) (method : http_method) :
  moves_along (sends_to path) (request path method).
Proof.
  intros σ σ' r. pose proof (arrive_trace σ) as Htrace. unfold request.
  destruct (arrive σ) as [σ1 fault]. simpl in Htrace.
  destruct method as [| body].
  - destruct fault as [message |];
      [| destruct (remote σ1 !! path)]; intros [= <- _];
      eexists [_]; simpl; rewrite Htrace; split; try done;
      by apply Forall_singleton.
  - destruct fault as [message |];
      [| destruct (accepts _ _)]; intros [= <- _];
      eexists [_]; simpl; rewrite Htrace; split; try done;
      by apply Forall_singleton.
Qed.

Lemma same_trace_sends_to (path : string) (σ σ' : state) :
  trace σ' = trace σ → sends_to path σ σ'.
Proof. intros Htrace. exists []. by rewrite app_nil_r. Qed.

Lemma request_changes_only (path : string) (method : http_method) :
  moves_along (changes_only path) (request path method).
Proof.
  intros σ σ' r Hrun Hquiet. unfold request in Hrun.
  rewrite (arrive_quiet σ Hquiet) in Hrun.
  destruct method as [| body].
  - by destruct (remote σ !! path); injection Hrun as <- _.
  - destruct (accepts _ _); injection Hrun as <- _; [| done].
    split; [done |]. intros other Hother. simpl.
    by rewrite lookup_insert_ne.
Qed.

Lemma request_contents_changes_only (directory path : string) :
  moves_along (changes_only path) (request_contents directory).
Proof.
  intros σ σ' r Hrun Hquiet. unfold request_contents in Hrun.
  rewrite (arrive_quiet σ Hquiet) in Hrun.
  destruct (remote σ !! directory); [by injection Hrun as <- _ |].
  by destruct (entries directory (remote σ)); injection Hrun as <- _.
Qed.

(** * With nothing pending *)

Lemma strict_eq_json_record (x : record) (field key : string) :
  strict_eq (prop (json_record x) field) key = strict_eq (prop x field) key.
Proof.
  unfold prop. rewrite json_record_lookup.
  destruct (x !! field) as [v |]; [| done]. by destruct v.
Qed.

Lemma matches_json_record (key : string) (x : record) :
  matches key (json_record x) = matches key x.
Proof. unfold matches. by rewrite !strict_eq_json_record. Qed.

Lemma json_records_app (l k : list record) :
  json_records (l ++ k) = json_records l ++ json_records k.
Proof. unfold json_records. by rewrite fmap_app. Qed.

Section quiet.
Context (config : UniversalSDKConfig).
Abbreviation path_of := (UniversalSDK.collection_path config).
Abbreviation save := (UniversalSDK.save config).
Abbreviation get := (UniversalSDK.get config).

Lemma collection_at_json (σ : state) (collection : string) :
  json_records (collection_at config σ collection)
  = collection_at config σ collection.
Proof. apply json_records_idempotent. Qed.

(** [save] with nothing pending: the read, then the write that names what
    the read saw, accepted. *)
Lemma save_quiet_run (collection : string) (data : list record) (σ : state) :
  pending σ = [] →
  let o := sha <$> remote σ !! path_of collection in
  save collection data σ
  = (log_call (CPut (path_of collection) data o o true)
       (store (path_of collection) data
          (log_call (CGet (path_of collection) o) σ)),
     Returned ()).
Proof.
  intros Hquiet.
  unfold UniversalSDK.save, try_catch, mbind, M_bind, mret, M_ret, request.
  rewrite (arrive_quiet σ Hquiet).
  destruct (remote σ !! path_of collection) as [b |] eqn:Hb.
  - rewrite arrive_quiet by done. simpl. rewrite Hb. simpl.
    by rewrite bool_decide_eq_true_2 by done.
  - rewrite arrive_quiet by done. simpl. by rewrite Hb.
Qed.

Lemma save_quiet_post (collection : string) (data : list record) (σ : state) :
  pending σ = [] →
  ∃ σ', save collection data σ = (σ', Returned ())
        ∧ pending σ' = [] ∧ same_client σ σ'
        ∧ collection_at config σ' collection = json_records data
        ∧ writes (trace σ') = S (writes (trace σ)).
Proof.
  intros Hquiet. eexists. split; [by apply save_quiet_run |].
  split_and!; [done | done | |].
  - unfold collection_at, stored_records. simpl. rewrite lookup_insert_eq.
    simpl. apply json_records_idempotent.
  - unfold writes. simpl. rewrite !List.filter_app, !length_app. simpl. lia.
Qed.

(** [get] with nothing pending returns the collection that the repository
    holds, after creating its file if there is none. *)
Lemma get_quiet (collection : string) (σ : state) :
  pending σ = [] →
  ∃ σ1, get collection σ = (σ1, Returned (collection_at config σ collection))
        ∧ pending σ1 = [] ∧ same_client σ σ1
        ∧ collection_at config σ1 collection
          = collection_at config σ collection
        ∧ is_Some (remote σ1 !! path_of collection)
        ∧ (∀ b, remote σ !! path_of collection = Some b →
             σ1 = log_call (CGet (path_of collection) (Some (sha b))) σ).
Proof.
  intros Hquiet. unfold collection_at, stored_records.
  destruct (remote σ !! path_of collection) as [b |] eqn:Hb.
  - assert (request (path_of collection) GET σ
            = (log_call (CGet (path_of collection) (Some (sha b))) σ,
               Returned b)) as Hreq.
    { unfold request. rewrite (arrive_quiet σ Hquiet). by rewrite Hb. }
    eexists. split; [by apply get_found |].
    split_and!; try done; try (simpl; by rewrite Hb).
    by intros b' [= <-].
  - assert (request (path_of collection) GET σ
            = (log_call (CGet (path_of collection) None) σ,
               Thrown not_found_text)) as Hreq.
    { unfold request. rewrite (arrive_quiet σ Hquiet). by rewrite Hb. }
    rewrite (get_failed _ _ _ _ _ Hreq).
    change (treated_as_missing not_found_text) with true. cbv iota.
    rewrite (save_quiet_run collection []
               (log_call (CGet (path_of collection) None) σ) Hquiet).
    eexists. split; [done |]. simpl. split_and!; try done.
    + unfold collection_at, stored_records. simpl.
      by rewrite lookup_insert_eq.
    + by rewrite lookup_insert_eq.
Qed.

Lemma randomUUID_run (σ : state) :
  randomUUID σ = (draw_uuid σ, Returned (uuid_source σ (uuid_drawn σ))).
Proof. done. Qed.

(** [insert] with nothing pending. *)
Lemma insert_quiet (collection : string) (item : record) (σ : state)
    (n : Z) (id : string) :
  pending σ = [] → audits σ collection →
  passes_validation config collection
    (UniversalSDK.with_defaults config collection item) →
  next_id (collection_at config σ collection) = Some n →
  toString n = Some id →
  let newItem := UniversalSDK.new_item (uuid_source σ (uuid_drawn σ)) id
                   (UniversalSDK.with_defaults config collection item) in
  ∃ σ', UniversalSDK.insert config collection item σ = (σ', Returned newItem)
        ∧ pending σ' = []
        ∧ collection_at config σ' collection
          = collection_at config σ collection ++ [json_record newItem]
        ∧ uuid_source σ' = uuid_source σ
        ∧ uuid_drawn σ' = S (uuid_drawn σ)
        ∧ clock σ' = clock σ
        ∧ audits σ' collection.
Proof.
  intros Hquiet Haudits Hvalid Hn Hid newItem.
  destruct (get_quiet collection σ Hquiet)
    as (σ1 & Hget & Hquiet1 & (Hlog & _ & Hsource & Hdrawn & Hclock) & _).
  destruct (save_quiet_post collection
              (collection_at config σ collection ++ [newItem]) (draw_uuid σ1))
    as (σs & Hsave & Hquiets & (Hlog' & _ & Hsource' & Hdrawn' & Hclock')
        & Hstored & _);
    [done |].
  assert (audits σs collection) as Hauditss.
  { eapply audits_same_log; [| exact Haudits]. by rewrite Hlog'. }
  eexists. unfold UniversalSDK.insert.
  rewrite (bind_run _ _ _ _ _ Hget), (bind_run _ _ _ _ _ (Hvalid σ1)).
  rewrite Hn, (bind_run (decided (Some n)) _ σ1 σ1 n eq_refl).
  rewrite Hid, (bind_run (decided (Some id)) _ σ1 σ1 id eq_refl).
  rewrite (bind_run _ _ _ _ _ (randomUUID_run σ1)).
  rewrite Hsource, Hdrawn. fold newItem.
  rewrite (bind_run _ _ _ _ _ Hsave).
  rewrite (bind_run _ _ _ _ _ (audit_run_returned _ _ _ σs Hauditss)).
  split; [reflexivity |].
  split_and!; try done.
  - transitivity (collection_at config σs collection); [done |].
    rewrite Hstored, json_records_app. f_equal. apply collection_at_json.
  - simpl in *. by rewrite Hsource', Hsource.
  - simpl in *. by rewrite Hdrawn', Hdrawn.
  - simpl in *. by rewrite Hclock', Hclock.
  - apply audits_after.
Qed.
End quiet.

(** * Round trips *)

Lemma list_find_last (key : string) (arr : list record) (x : record) :
  (∀ y, y ∈ arr → matches key y = false) →
  matches key x = true →
  list_find (λ x, Is_true (matches key x)) (arr ++ [x])
  = Some (length arr, x).
Proof.
  intros Hnone Hx. apply list_find_Some. split_and!.
  - rewrite lookup_app_r by lia. rewrite Nat.sub_diag. done.
  - by rewrite Hx.
  - intros j y Hy Hj. rewrite lookup_app_l in Hy by lia.
    apply list_elem_of_lookup_2, Hnone in Hy. rewrite Hy. by intros [].
Qed.

Lemma Math_max0_app (l k : list Z) :
  Math_max0 (l ++ k) = Z.max (Math_max0 l) (Math_max0 k).
Proof.
  pose proof (Math_max0_nonneg k) as Hk.
  unfold Math_max0 in *. induction l as [| n l IH]; simpl; lia.
Qed.

(** The number after the one that [next_id] gave to the record appended. *)
Lemma next_id_app (arr : list record) (x : record) (n : Z) (id : string) :
  next_id arr = Some n → toString n = Some id →
  x !! "id" = Some (VStr id) →
  next_id (arr ++ [x]) = Some (n + 1).
Proof.
  unfold next_id. intros Hn Hid Hx.
  destruct (mapM id_or_zero arr) as [ns |] eqn:Hns; [| done].
  injection Hn as <-.
  pose proof (Math_max0_nonneg ns) as Hpos.
  assert (mapM id_or_zero (arr ++ [x]) = Some (ns ++ [Math_max0 ns + 1]))
    as ->.
  { apply mapM_Some, Forall2_app; [by apply mapM_Some |].
    constructor; [| constructor].
    apply (id_or_zero_decimal _ _ id); [lia | done..]. }
  simpl. rewrite Math_max0_app. unfold Math_max0 at 2. simpl.
  f_equal. lia.
Qed.

Section round_trips.
Context (config : UniversalSDKConfig).
Abbreviation path_of := (UniversalSDK.collection_path config).
Abbreviation save := (UniversalSDK.save config).
Abbreviation get := (UniversalSDK.get config).

(** An [insert] that returned with nothing pending. *)
Lemma insert_quiet_inv (collection : string) (item newItem : record)
    (σ σ' : state) :
  pending σ = [] →
  UniversalSDK.insert config collection item σ = (σ', Returned newItem) →
  ∃ n id,
    next_id (collection_at config σ collection) = Some n
    ∧ toString n = Some id
    ∧ newItem = UniversalSDK.new_item (uuid_source σ (uuid_drawn σ)) id
                  (UniversalSDK.with_defaults config collection item)
    ∧ pending σ' = []
    ∧ collection_at config σ' collection
      = collection_at config σ collection ++ [json_record newItem]
    ∧ uuid_source σ' = uuid_source σ
    ∧ uuid_drawn σ' = S (uuid_drawn σ)
    ∧ clock σ' = clock σ
    ∧ audits σ' collection.
Proof.
  intros Hquiet Hrun.
  destruct (get_quiet config collection σ Hquiet)
    as (σ1 & Hget & Hquiet1 & (_ & _ & Hsource & Hdrawn & Hclock) & _).
  destruct (insert_returned_run config _ _ _ _ _ _ _ Hget Hrun)
    as (n & id & σs & Hn & Hid & Hnew & Hsave & Haudit).
  apply audit_inv in Haudit as [(_ & _ & ->) | ([=] & _)].
  destruct (save_quiet_post config collection
              (collection_at config σ collection ++ [newItem]) (draw_uuid σ1))
    as (σs' & Hsave' & Hquiets & (_ & _ & Hsource' & Hdrawn' & Hclock')
        & Hstored & _); [done |].
  rewrite Hsave in Hsave'. injection Hsave' as <-.
  exists n, id. rewrite Hsource, Hdrawn in Hnew.
  split_and!; try done.
  - transitivity (collection_at config σs collection); [done |].
    rewrite Hstored, json_records_app. f_equal. apply collection_at_json.
  - simpl in *. by rewrite Hsource', Hsource.
  - simpl in *. by rewrite Hdrawn', Hdrawn.
  - simpl in *. by rewrite Hclock', Hclock.
  - apply audits_after.
Qed.

(** X1: with nothing pending, what [get] reads back after [save] is the
    collection that was saved, as JSON renders it. *)
Theorem save_get_round_trip (collection : string) (data : list record)
    (σ : state) :
  pending σ = [] →
  ∃ σ', (_ ← save collection data; get collection) σ
        = (σ', Returned (json_records data)).
Proof.
  intros Hquiet.
  destruct (save_quiet_post config collection data σ Hquiet)
    as (σ1 & Hsave & Hquiet1 & _ & Hstored & _).
  destruct (get_quiet config collection σ1 Hquiet1) as (σ2 & Hget & _).
  exists σ2. by rewrite (bind_run _ _ _ _ _ Hsave), Hget, Hstored.
Qed.

(** X2: with nothing pending, the file of a collection is created at most
    once: after a first [get] a second one returns the same records, sends
    one read and leaves the repository as it is. *)
Theorem get_creates_once (collection : string) (σ : state) :
  pending σ = [] →
  ∃ σ1 σ2 arr v,
    get collection σ = (σ1, Returned arr)
    ∧ get collection σ1 = (σ2, Returned arr)
    ∧ trace σ2 = trace σ1 ++ [CGet (path_of collection) (Some v)]
    ∧ remote σ2 = remote σ1.
Proof.
  intros Hquiet.
  destruct (get_quiet config collection σ Hquiet)
    as (σ1 & Hget & Hquiet1 & _ & Hstored & [b Hb] & _).
  destruct (get_quiet config collection σ1 Hquiet1)
    as (σ2 & Hget2 & _ & _ & _ & _ & Hfile).
  exists σ1, σ2, (collection_at config σ collection), (sha b).
  pose proof (Hfile b Hb) as ->. by rewrite Hstored in Hget2.
Qed.
End round_trips.

(** * Lookup, insertion and deletion together *)

Lemma elem_of_list_delete {A} (l : list A) (i : nat) (x : A) :
  x ∈ base.delete i l → ∃ j, j ≠ i ∧ l !! j = Some x.
Proof.
  intros [j Hj]%list_elem_of_lookup.
  destruct (decide (j < i)%nat) as [Hlt | Hge].
  - rewrite list_lookup_delete_lt in Hj by done. exists j. split; [lia | done].
  - rewrite list_lookup_delete_ge in Hj by lia. exists (S j). split; [lia | done].
Qed.

Lemma delete_last {A} (l : list A) (x : A) :
  base.delete (length l) (l ++ [x]) = l.
Proof.
  rewrite delete_take_drop, take_app_length.
  rewrite drop_ge; [by rewrite app_nil_r |]. rewrite length_app. simpl. lia.
Qed.

Section lookups.
Context (config : UniversalSDKConfig).
Abbreviation path_of := (UniversalSDK.collection_path config).
Abbreviation save := (UniversalSDK.save config).
Abbreviation get := (UniversalSDK.get config).

Lemma getItem_run (collection key : string) (σ σ1 : state)
    (arr : list record) :
  get collection σ = (σ1, Returned arr) →
  UniversalSDK.getItem config collection key σ
  = (σ1, Returned (snd <$> list_find (λ x, Is_true (matches key x)) arr)).
Proof.
  intros Hget. unfold UniversalSDK.getItem.
  by rewrite (bind_run _ _ _ _ _ Hget).
Qed.

(** A [delete] that finds its record and returns has saved the rest and
    has entered the record in the audit log. *)
Lemma delete_returned_run (collection key : string) (σ σ1 σ' : state)
    (arr : list record) (index : nat) (old : record) (r : bool) :
  get collection σ = (σ1, Returned arr) →
  findIndex key arr = Some index → arr !! index = Some old →
  UniversalSDK.delete config collection key σ = (σ', Returned r) →
  ∃ σs,
    r = true
    ∧ save collection (base.delete index arr) σ1 = (σs, Returned ())
    ∧ UniversalSDK._audit collection old "delete" σs = (σ', Returned ()).
Proof.
  intros Hget Hindex Hold. unfold UniversalSDK.delete.
  rewrite (bind_run _ _ _ _ _ Hget), Hindex, Hold. simpl default.
  intros (σs & [] & Hsave & Hrest)%bind_returned_inv.
  apply bind_returned_inv in Hrest as (? & [] & Haudit & [= <- <-]).
  by exists σs.
Qed.

Lemma delete_returned_inv (collection key : string) (σ σ1 σ' : state)
    (arr : list record) (index : nat) (old : record) (r : bool) :
  get collection σ = (σ1, Returned arr) →
  findIndex key arr = Some index → arr !! index = Some old →
  UniversalSDK.delete config collection key σ = (σ', Returned r) →
  ∃ σs,
    r = true
    ∧ save collection (base.delete index arr) σ1 = (σs, Returned ())
    ∧ σ' = (UniversalSDK._audit collection old "delete" σs).1.
Proof.
  intros Hget Hindex Hold Hrun.
  destruct (delete_returned_run _ _ _ _ _ _ _ _ _ Hget Hindex Hold Hrun)
    as (σs & Hr & Hsave & Haudit).
  exists σs. by rewrite Haudit.
Qed.

(** [delete] with nothing pending. *)
Lemma delete_quiet (collection key : string) (σ : state) (index : nat) :
  pending σ = [] → audits σ collection →
  findIndex key (collection_at config σ collection) = Some index →
  ∃ σ', UniversalSDK.delete config collection key σ = (σ', Returned true)
        ∧ pending σ' = []
        ∧ collection_at config σ' collection
          = base.delete index (collection_at config σ collection)
        ∧ uuid_source σ' = uuid_source σ
        ∧ uuid_drawn σ' = uuid_drawn σ
        ∧ audits σ' collection.
Proof.
  intros Hquiet Haudits Hindex.
  destruct (get_quiet config collection σ Hquiet)
    as (σ1 & Hget & Hquiet1 & (Hlog & _ & Hsource & Hdrawn & _) & _).
  destruct (save_quiet_post config collection
              (base.delete index (collection_at config σ collection)) σ1
              Hquiet1)
    as (σs & Hsave & Hquiets & (Hlog' & _ & Hsource' & Hdrawn' & _) & Hstored & _).
  assert (audits σs collection) as Hauditss.
  { eapply audits_same_log; [| exact Haudits]. by rewrite Hlog'. }
  eexists. unfold UniversalSDK.delete.
  rewrite (bind_run _ _ _ _ _ Hget), Hindex.
  rewrite (bind_run _ _ _ _ _ Hsave).
  rewrite (bind_run _ _ _ _ _ (audit_run_returned _ _ _ σs Hauditss)).
  split; [reflexivity |]. split_and!; try done.
  - transitivity (collection_at config σs collection); [done |].
    rewrite Hstored. unfold json_records. rewrite list_fmap_delete.
    f_equal. apply collection_at_json.
  - simpl. by rewrite Hsource', Hsource.
  - simpl. by rewrite Hdrawn', Hdrawn.
  - apply audits_after.
Qed.

(** X3: with nothing pending, a record that [insert] has returned is found
    again by [getItem], under its [id] as under its [uid], as long as no
    record that was there before answers to that key; what is found is the
    record as JSON renders it. *)
Theorem insert_getItem_round_trip (collection key : string)
    (item newItem : record) (σ σ1 : state) :
  pending σ = [] →
  UniversalSDK.insert config collection item σ = (σ1, Returned newItem) →
  matches key newItem = true →
  (∀ x, x ∈ collection_at config σ collection → matches key x = false) →
  ∃ σ2, UniversalSDK.getItem config collection key σ1
        = (σ2, Returned (Some (json_record newItem))).
Proof.
  intros Hquiet Hinsert Hkey Hfresh.
  destruct (insert_quiet_inv config _ _ _ _ _ Hquiet Hinsert)
    as (n & id & _ & _ & _ & Hquiet1 & Hstored & _).
  destruct (get_quiet config collection σ1 Hquiet1) as (σ2 & Hget & _).
  exists σ2. rewrite (getItem_run _ _ _ _ _ Hget), Hstored.
  rewrite (list_find_last key _ (json_record newItem)); [done.. |].
  by rewrite matches_json_record.
Qed.


(** X5: with nothing pending, two inserts in a row that return hand out
    consecutive numbers, when neither candidate brings an [id] of its own
    and the numbers stay below 2^53, where [toString] renders them
    exactly. *)
Theorem consecutive_inserts_consecutive_ids (collection : string)
    (first second r1 r2 : record) (σ σ1 σ2 : state) :
  pending σ = [] →
  UniversalSDK.with_defaults config collection first !! "id" = None →
  UniversalSDK.with_defaults config collection second !! "id" = None →
  UniversalSDK.insert config collection first σ = (σ1, Returned r1) →
  UniversalSDK.insert config collection second σ1 = (σ2, Returned r2) →
  ∃ n id1 id2,
    toString n = Some id1 ∧ toString (n + 1) = Some id2
    ∧ r1 !! "id" = Some (VStr id1) ∧ r2 !! "id" = Some (VStr id2).
Proof.
  intros Hquiet Hfirst Hsecond Hrun1 Hrun2.
  destruct (insert_quiet_inv config _ _ _ _ _ Hquiet Hrun1)
    as (n & id1 & Hn & Hid1 & -> & Hquiet1 & Hstored & _).
  destruct (insert_quiet_inv config _ _ _ _ _ Hquiet1 Hrun2)
    as (n2 & id2 & Hn2 & Hid2 & -> & _).
  rewrite Hstored in Hn2.
  rewrite (next_id_app _ _ n id1 Hn Hid1) in Hn2.
  - injection Hn2 as <-. exists n, id1, id2.
    split_and!; [done | done | by apply new_item_id..].
  - rewrite json_record_lookup, new_item_id by done. done.
Qed.

(** X6: a [delete] that finds a record under the key takes out the first
    record that answers to it and nothing else: the collection that is
    written is the one read without that record, the others in their
    order.  With nothing pending the call does return [true], when the
    collection is not named like a member of [Object.prototype]. *)
Theorem delete_removes_first_match (collection key : string)
    (σ σ1 : state) (arr : list record) (index : nat) :
  get collection σ = (σ1, Returned arr) →
  findIndex key arr = Some index →
  (∀ σ' r,
     UniversalSDK.delete config collection key σ = (σ', Returned r) →
     r = true
     ∧ ∃ b, remote σ' !! path_of collection = Some b
            ∧ S (length (content b)) = length arr
            ∧ (∀ j, (j < index)%nat → content b !! j = arr !! j)
            ∧ (∀ j, (index ≤ j)%nat → content b !! j = arr !! S j))
  ∧ (pending σ1 = [] → inherited collection = false →
       ∃ σ', UniversalSDK.delete config collection key σ
             = (σ', Returned true)).
Proof.
  intros Hget Hindex.
  pose proof Hindex as (old & Hold & _)%findIndex_Some.
  assert (json_records (base.delete index arr) = base.delete index arr)
    as Hjson.
  { unfold json_records. rewrite list_fmap_delete. f_equal.
    apply (get_json config _ _ _ _ Hget). }
  split.
  - intros σ' r Hrun.
    destruct (delete_returned_inv _ _ _ _ _ _ _ _ _ Hget Hindex Hold Hrun)
      as (σs & -> & Hsave & ->).
    split; [done |]. rewrite audit_remote.
    apply save_returned in Hsave as (o & found & _ & _ & Hfile).
    eexists. split; [exact Hfile |]. simpl. rewrite Hjson.
    split_and!.
    + rewrite length_delete by done.
      apply lookup_lt_Some in Hold. lia.
    + intros j Hj. by apply list_lookup_delete_lt.
    + intros j Hj. by apply list_lookup_delete_ge.
  - intros Hquiet Hname.
    destruct (save_quiet config collection (base.delete index arr) σ1 Hquiet)
      as (σs & Hsave & _).
    assert (audits σs collection) as Haudits by by right.
    eexists. unfold UniversalSDK.delete.
    rewrite (bind_run _ _ _ _ _ Hget), Hindex.
    rewrite (bind_run _ _ _ _ _ Hsave).
    by rewrite (bind_run _ _ _ _ _ (audit_run_returned _ _ _ σs Haudits)).
Qed.

(** X7: with nothing pending and a collection that is not named like a
    member of [Object.prototype], once the only record that answers to a
    key is deleted, the key is gone: [getItem] returns [null] and a second
    [delete] returns [false]. *)
Theorem delete_then_absent (collection key : string) (σ : state)
    (index : nat) :
  pending σ = [] → inherited collection = false →
  findIndex key (collection_at config σ collection) = Some index →
  (∀ j y, collection_at config σ collection !! j = Some y → j ≠ index →
          matches key y = false) →
  ∃ σ1 σ2 σ3,
    UniversalSDK.delete config collection key σ = (σ1, Returned true)
    ∧ UniversalSDK.getItem config collection key σ1 = (σ2, Returned None)
    ∧ UniversalSDK.delete config collection key σ1 = (σ3, Returned false).
Proof.
  intros Hquiet Hname Hindex Hothers.
  destruct (delete_quiet collection key σ index Hquiet (or_intror Hname) Hindex)
    as (σ1 & Hdelete & Hquiet1 & Hstored & _).
  destruct (get_quiet config collection σ1 Hquiet1) as (σ2 & Hget & _).
  assert (findIndex key (collection_at config σ1 collection) = None)
    as Hnone.
  { apply findIndex_None. intros x Hx. rewrite Hstored in Hx.
    apply elem_of_list_delete in Hx as (j & Hj & Hx). by eapply Hothers. }
  exists σ1, σ2, σ2. split_and!; [done | |].
  - rewrite (getItem_run _ _ _ _ _ Hget). unfold findIndex in Hnone.
    by destruct (list_find _ _).
  - unfold UniversalSDK.delete. by rewrite (bind_run _ _ _ _ _ Hget), Hnone.
Qed.

(** X8: numbers are handed out again.  With nothing pending and a
    collection that is not named like a member of [Object.prototype], when
    the record that was numbered last (with a number below 2^53) is deleted
    under its [id], the next [insert] gives its record that very [id]. *)
Theorem insert_reuses_deleted_id (collection : string) (item x : record)
    (arr : list record) (n : Z) (id : string) (σ : state) :
  pending σ = [] → inherited collection = false →
  collection_at config σ collection = arr ++ [x] →
  next_id arr = Some n → toString n = Some id →
  x !! "id" = Some (VStr id) →
  (∀ y, y ∈ arr → matches id y = false) →
  passes_validation config collection
    (UniversalSDK.with_defaults config collection item) →
  UniversalSDK.with_defaults config collection item !! "id" = None →
  ∃ σ' newItem,
    (_ ← UniversalSDK.delete config collection id;
     UniversalSDK.insert config collection item) σ = (σ', Returned newItem)
    ∧ newItem !! "id" = Some (VStr id).
Proof.
  intros Hquiet Hname Hstored Hn Hid Hx Hfresh Hvalid Hown.
  assert (findIndex id (collection_at config σ collection)
          = Some (length arr)) as Hindex.
  { rewrite Hstored. unfold findIndex. rewrite (list_find_last id arr x).
    - done.
    - done.
    - unfold matches, prop. rewrite Hx. simpl.
      by rewrite bool_decide_eq_true_2. }
  destruct (delete_quiet collection id σ _ Hquiet (or_intror Hname) Hindex)
    as (σ1 & Hdelete & Hquiet1 & Hstored1 & Hsource & Hdrawn & Haudits).
  rewrite Hstored, delete_last in Hstored1.
  destruct (insert_quiet config collection item σ1 n id Hquiet1 Haudits Hvalid)
    as (σ2 & Hinsert & _); [by rewrite Hstored1 | done |].
  eexists _, _. rewrite (bind_run _ _ _ _ _ Hdelete). split; [exact Hinsert |].
  by apply new_item_id.
Qed.

(** X9: [bulkInsert] of no items still saves: the collection is written
    back as it was read, under a new version, and [[]] is returned. *)
Theorem bulkInsert_nothing_still_writes (collection : string)
    (σ σ1 : state) (arr : list record) (n : Z) :
  get collection σ = (σ1, Returned arr) →
  next_id arr = Some n →
  (∀ σ' r,
     UniversalSDK.bulkInsert config collection [] σ = (σ', r) →
     ∃ o found ok,
       trace σ' = trace σ1 ++ [CGet (path_of collection) o;
                               CPut (path_of collection) arr o found ok]
       ∧ (ok = true → r = Returned []))
  ∧ (pending σ1 = [] →
       ∃ σ', UniversalSDK.bulkInsert config collection [] σ
             = (σ', Returned [])
             ∧ writes (trace σ') = S (writes (trace σ1))
             ∧ revision σ' = S (revision σ1)).
Proof.
  intros Hget Hn. unfold UniversalSDK.bulkInsert.
  rewrite (bind_run _ _ _ _ _ Hget), Hn.
  rewrite (bind_run (decided (Some n)) _ σ1 σ1 n eq_refl).
  cbn [UniversalSDK.bulkInsert_loop].
  rewrite (bind_run (mret (arr, [])) _ σ1 σ1 (arr, []) eq_refl).
  split.
  - intros σ' r Hrun.
    destruct (save collection arr σ1) as [σs rs] eqn:Hsave.
    pose proof Hsave as (o & found & ok & Htrace & _ & Hok & _)%save_inv.
    exists o, found, ok.
    unfold mbind, M_bind, mret, M_ret in Hrun. rewrite Hsave in Hrun.
    split.
    + by destruct rs; injection Hrun as <- _.
    + intros Hyes. destruct (Hok Hyes) as (-> & _). by injection Hrun as _ <-.
  - intros Hquiet.
    rewrite (bind_run _ _ _ _ _ (save_quiet_run config collection arr σ1 Hquiet)).
    eexists. split; [reflexivity |]. split; [| done].
    unfold writes. simpl. rewrite !List.filter_app, !length_app. simpl. lia.
Qed.
End lookups.

(** * The audit log *)

Lemma same_log_refl : Reflexive same_log.
Proof. by intros σ. Qed.
#[local] Existing Instance same_log_refl.

Lemma same_log_trans : Transitive same_log.
Proof.
  intros σ1 σ2 σ3 [Hlog Hclock] [Hlog' Hclock']. unfold same_log.
  by rewrite Hlog', Hclock'.
Qed.
#[local] Existing Instance same_log_trans.

Lemma same_client_same_log (σ σ' : state) : same_client σ σ' → same_log σ σ'.
Proof. by intros (Hlog & _ & _ & _ & Hclock). Qed.

Lemma request_same_log (path : string) (method : http_method) :
  moves_along same_log (request path method).
Proof. intros σ σ' r Hrun. by eapply same_client_same_log, request_client. Qed.

Lemma randomUUID_same_log : moves_along same_log randomUUID.
Proof. by intros σ σ' r [= <- _]. Qed.

Lemma audit_run (collection : string) (data : record) (action : string)
    (σ σ0 σ' : state) (r : outcome ()) :
  same_log σ0 σ →
  UniversalSDK._audit collection data action σ = (σ', r) →
  (r = Returned ()
   ∧ auditLog σ'
     = <[collection := log_of σ0 collection ++ [audit_entry σ0 action data]]>
         (auditLog σ0))
  ∨ (r ≠ Returned () ∧ same_log σ0 σ').
Proof.
  intros [Hlog Hclock] [(-> & _ & ->) | (-> & -> & _)]%audit_inv.
  - left. split; [done |]. unfold log_of, audit_entry. simpl.
    by rewrite Hlog, Hclock.
  - right. by split.
Qed.

Section audit.
Context (config : UniversalSDKConfig) (collection : string).
Abbreviation path_of := (UniversalSDK.collection_path config).
Abbreviation save := (UniversalSDK.save config).
Abbreviation get := (UniversalSDK.get config).

Lemma get_same_log : moves_along same_log (get collection).
Proof.
  apply (get_moves config same_log _ _ (λ _, True)); [| done].
  intros c method _. apply request_same_log.
Qed.

Lemma save_same_log (data : list record) :
  moves_along same_log (save collection data).
Proof.
  apply (save_moves config same_log _ _ (λ _, True)); [| done].
  intros c method _. apply request_same_log.
Qed.

Lemma bulkInsert_same_log (items : list record) :
  moves_along same_log (UniversalSDK.bulkInsert config collection items).
Proof.
  apply (bulkInsert_moves config same_log _ _ (λ _, True)); [| | done].
  - intros c method _. apply request_same_log.
  - apply randomUUID_same_log.
Qed.

(** A method that ends in [save], [_audit] and [return]: unless all three
    are reached the log is as it was. *)
Lemma save_audit_unless_returned {A} (data : list record) (entry : record)
    (action : string) (a : A) (σ0 σ σ' : state) (r : outcome A) :
  same_log σ0 σ →
  (_ ← save collection data;
   _ ← UniversalSDK._audit collection entry action;
   mret a) σ = (σ', r) →
  (r = Returned a
   ∧ auditLog σ'
     = <[collection := log_of σ0 collection ++ [audit_entry σ0 action entry]]>
         (auditLog σ0))
  ∨ ((∀ x, r ≠ Returned x) ∧ same_log σ0 σ').
Proof.
  intros Hlog.
  intros [(σs & [] & Hsave & Hrest) | [(msg & Hsave & ->) | [Hsave ->]]]%bind_inv.
  - apply save_same_log in Hsave.
    assert (same_log σ0 σs) as Hlogs by by transitivity σ.
    apply bind_inv in Hrest
      as [(σa & [] & Haudit & [= <- <-]) | [(msg & Haudit & ->) | [Haudit ->]]];
      destruct (audit_run _ _ _ _ _ _ _ Hlogs Haudit) as [[Hr Hnew] | [Hr Hsame]];
      try done.
    + by left.
    + by right.
    + by right.
  - right. split; [done |]. apply save_same_log in Hsave. by transitivity σ.
  - right. split; [done |]. apply save_same_log in Hsave. by transitivity σ.
Qed.

Lemma insert_log (item : record) (σ σ' : state) (r : outcome record) :
  UniversalSDK.insert config collection item σ = (σ', r) →
  (∃ newItem,
     r = Returned newItem
     ∧ auditLog σ'
       = <[collection := log_of σ collection
                         ++ [audit_entry σ "insert" newItem]]> (auditLog σ))
  ∨ ((∀ x, r ≠ Returned x) ∧ same_log σ σ').
Proof.
  unfold UniversalSDK.insert.
  intros [(σ1 & arr & Hget & H) | [(msg & Hget & ->) | [Hget ->]]]%bind_inv;
    apply get_same_log in Hget; [| by right..].
  apply bind_inv in H as [(σv & [] & Hv & H) | [(msg & Hv & ->) | [Hv ->]]];
    apply validateSchema_state in Hv as ->; [| by right..].
  apply bind_inv in H as [(? & n & Hn & H) | [(msg & Hn & ->) | [Hn ->]]];
    apply decided_state in Hn as ->; [| by right..].
  apply bind_inv in H as [(? & id & Hid & H) | [(msg & Hid & ->) | [Hid ->]]];
    apply decided_state in Hid as ->; [| by right..].
  apply bind_inv in H as [(? & uid & [= <- <-] & H) | [(? & [=] & _) | [[=] _]]].
  eapply (save_audit_unless_returned _ _ _ _ σ) in H as [[-> Hlog] | Hno].
  - left. eauto.
  - by right.
  - done.
Qed.

Lemma update_log (key : string) (updates : record) (σ σ' : state)
    (r : outcome (option record)) :
  UniversalSDK.update config collection key updates σ = (σ', r) →
  (∃ merged,
     r = Returned (Some merged)
     ∧ auditLog σ'
       = <[collection := log_of σ collection
                         ++ [audit_entry σ "update" merged]]> (auditLog σ))
  ∨ (r ≠ Returned None → ∀ x, r ≠ Returned x) ∧ same_log σ σ'.
Proof.
  unfold UniversalSDK.update.
  intros [(σ1 & arr & Hget & H) | [(msg & Hget & ->) | [Hget ->]]]%bind_inv;
    apply get_same_log in Hget; [| by right..].
  destruct (findIndex key arr) as [index |].
  - eapply (save_audit_unless_returned _ _ _ _ σ) in H as [[-> Hlog] | [Hno ?]].
    + left. eauto.
    + right. by split.
    + done.
  - injection H as <- <-. right. by split.
Qed.

Lemma delete_log (key : string) (σ σ1 σ' : state) (arr : list record)
    (r : outcome bool) :
  get collection σ = (σ1, Returned arr) →
  UniversalSDK.delete config collection key σ = (σ', r) →
  (∃ index old,
     findIndex key arr = Some index ∧ arr !! index = Some old
     ∧ r = Returned true
     ∧ auditLog σ'
       = <[collection := log_of σ collection
                         ++ [audit_entry σ "delete" old]]> (auditLog σ))
  ∨ (r ≠ Returned false → ∀ x, r ≠ Returned x) ∧ same_log σ σ'.
Proof.
  intros Hget. unfold UniversalSDK.delete. rewrite (bind_run _ _ _ _ _ Hget).
  apply get_same_log in Hget.
  destruct (findIndex key arr) as [index |] eqn:Hindex.
  - pose proof Hindex as (old & Hold & _)%findIndex_Some.
    rewrite Hold. simpl default. intros H.
    eapply (save_audit_unless_returned _ _ _ _ σ) in H as [[-> Hlog] | [Hno ?]].
    + left. eauto 10.
    + right. by split.
    + done.
  - intros [= <- <-]. right. by split.
Qed.

(** X10: the audit log records each change.  An [insert], an [update] or a
    [delete] that returns its record, its merge or [true] has appended one
    entry to the log of its collection, with the action, the record that was
    inserted, merged or removed, and the time; the logs of the other
    collections are as they were. *)
Theorem audit_records_the_change (σ σ' : state) :
  let appended action data :=
    auditLog σ'
    = <[collection := log_of σ collection ++ [audit_entry σ action data]]>
        (auditLog σ) in
  (∀ item newItem,
     UniversalSDK.insert config collection item σ = (σ', Returned newItem) →
     appended "insert" newItem)
  ∧ (∀ key updates merged,
       UniversalSDK.update config collection key updates σ
       = (σ', Returned (Some merged)) →
       appended "update" merged)
  ∧ (∀ key σ1 arr index old,
       get collection σ = (σ1, Returned arr) →
       findIndex key arr = Some index → arr !! index = Some old →
       UniversalSDK.delete config collection key σ = (σ', Returned true) →
       appended "delete" old).
Proof.
  intros appended. unfold appended. split_and!.
  - intros item newItem
      [(x & [= <-] & Hlog) | [Hno _]]%insert_log; [done |].
    by destruct (Hno newItem).
  - intros key updates merged
      [(x & [= <-] & Hlog) | [Hno _]]%update_log; [done |].
    by destruct (Hno ltac:(done) (Some merged)).
  - intros key σ1 arr index old Hget Hindex Hold Hrun.
    destruct (delete_log _ _ _ _ _ _ Hget Hrun)
      as [(i & x & Hi & Hx & _ & Hlog) | [Hno _]].
    + rewrite Hindex in Hi. injection Hi as <-.
      rewrite Hold in Hx. by injection Hx as <-.
    + by destruct (Hno ltac:(done) true).
Qed.

(** X11: nothing else is logged.  A mutating operation that does not
    return leaves the audit log as it was, and so do an [update] that
    returns [null], a [delete] that returns [false], [bulkInsert] however it
    ends, and the reads [get] and [getItem]. *)
Theorem audit_log_unchanged_otherwise (σ σ' : state) :
  (∀ m r, mutate config collection m σ = (σ', r) → r ≠ Returned () →
          auditLog σ' = auditLog σ)
  ∧ (∀ items r, UniversalSDK.bulkInsert config collection items σ = (σ', r) →
                auditLog σ' = auditLog σ)
  ∧ (∀ key updates,
       UniversalSDK.update config collection key updates σ
       = (σ', Returned None) →
       auditLog σ' = auditLog σ)
  ∧ (∀ key, UniversalSDK.delete config collection key σ
            = (σ', Returned false) →
            auditLog σ' = auditLog σ)
  ∧ (∀ key r, UniversalSDK.getItem config collection key σ = (σ', r) →
              auditLog σ' = auditLog σ).
Proof.
  split_and!.
  - intros m r Hrun Hr.
    destruct m as [item | items | key updates | key]; simpl in Hrun;
      apply discard_inv in Hrun as (r0 & Hrun & ->).
    + apply insert_log in Hrun as [(x & -> & _) | [_ [Hlog _]]]; done.
    + by apply bulkInsert_same_log in Hrun as [Hlog _].
    + apply update_log in Hrun as [(x & -> & _) | [Hno [Hlog _]]]; [done.. |].
      done.
    + destruct (get collection σ) as [σ1 [arr | msg |]] eqn:Hget.
      * destruct (delete_log _ _ _ _ _ _ Hget Hrun)
          as [(i & x & _ & _ & -> & _) | [_ [Hlog _]]]; done.
      * unfold UniversalSDK.delete in Hrun.
        rewrite (bind_thrown _ _ _ _ _ Hget) in Hrun. injection Hrun as <- _.
        by apply get_same_log in Hget as [Hlog _].
      * unfold UniversalSDK.delete in Hrun.
        rewrite (bind_unmodelled _ _ _ _ Hget) in Hrun. injection Hrun as <- _.
        by apply get_same_log in Hget as [Hlog _].
  - intros items r Hrun. by apply bulkInsert_same_log in Hrun as [Hlog _].
  - intros key updates
      [(x & [=] & _) | [_ [Hlog _]]]%update_log; done.
  - intros key Hrun.
    destruct (get collection σ) as [σ1 [arr | msg |]] eqn:Hget.
    + destruct (delete_log _ _ _ _ _ _ Hget Hrun)
        as [(i & x & _ & _ & [=] & _) | [_ [Hlog _]]]; done.
    + unfold UniversalSDK.delete in Hrun.
      by rewrite (bind_thrown _ _ _ _ _ Hget) in Hrun.
    + unfold UniversalSDK.delete in Hrun.
      by rewrite (bind_unmodelled _ _ _ _ Hget) in Hrun.
  - intros key r Hrun.
    assert (same_log σ σ') as [Hlog _]; [| done].
    eapply (getItem_moves config same_log _ _ (λ _, True)); [| done | done].
    intros c method _. apply request_same_log.
Qed.
End audit.

(** X12: the audit log only grows.  Whatever a method of the store does,
    and however it ends, the log of every collection afterwards starts with
    the log as it was. *)
Theorem audit_log_only_grows (config : UniversalSDKConfig) :
  (∀ collection m, moves_along log_grows (mutate config collection m))
  ∧ (∀ collection key,
       moves_along log_grows (UniversalSDK.getItem config collection key))
  ∧ (∀ collection,
       moves_along log_grows (UniversalSDK.queryBuilder config collection))
  ∧ (∀ qb, moves_along log_grows (UniversalSDK.exec qb))
  ∧ (∀ userData, moves_along log_grows (UniversalSDK.register config userData))
  ∧ (∀ credentials sessionStore,
       moves_along log_grows
         (UniversalSDK.login config credentials sessionStore))
  ∧ moves_along log_grows (UniversalSDK.init config).
Proof.
  assert (∀ c method,
            moves_along log_grows
              (request (UniversalSDK.collection_path config c) method))
    as Hrequest.
  { intros c method σ σ' r Hrun.
    by eapply same_client_log_grows, request_client. }
  assert (moves_along log_grows randomUUID) as Huuid.
  { by intros σ σ' r [= <- _] c. }
  assert (∀ bs σ, log_grows σ (with_builders bs σ)) as Hbuilders.
  { by intros bs σ c. }
  assert (moves_along log_grows
            (request_contents (UniversalSDK.this_basePath config)))
    as Hlisting.
  { intros σ σ' r Hrun.
    by eapply same_client_log_grows, request_contents_client. }
  split_and!.
  - intros collection m.
    apply (mutate_moves config log_grows _ _ (λ _, True)); try done.
    intros c data action _. apply audit_log_grows.
  - intros collection key.
    by apply (getItem_moves config log_grows _ _ (λ _, True)).
  - intros collection.
    by apply (queryBuilder_moves config log_grows _ _ (λ _, True)).
  - intros qb. by apply (exec_moves log_grows _).
  - intros userData.
    apply (register_moves config log_grows _ _ (λ _, True)); try done.
    intros c data action _. apply audit_log_grows.
  - intros credentials sessionStore.
    by apply (login_moves config log_grows _ _ (λ _, True)).
  - apply (init_moves config log_grows _ _ (λ _, True)); try done.
    intros c data action _. apply audit_log_grows.
Qed.

(** * One collection, one file *)

Lemma length_append (a t : string) :
  String.length (a +:+ t) = (String.length a + String.length t)%nat.
Proof. induction a as [| c a IH]; simpl; [done | by rewrite IH]. Qed.

Lemma append_inj_r (a b t : string) : a +:+ t = b +:+ t → a = b.
Proof.
  revert b. induction a as [| c a IH]; intros [| d b] H; simpl in *.
  - done.
  - apply (f_equal String.length) in H.
    rewrite !length_append in H. simpl in H. lia.
  - apply (f_equal String.length) in H.
    rewrite !length_append in H. simpl in H. lia.
  - injection H as -> H. f_equal. by apply IH.
Qed.

(** Two collections never share a file. *)
Lemma collection_path_inj (config : UniversalSDKConfig) (c c' : string) :
  UniversalSDK.collection_path config c = UniversalSDK.collection_path config c' →
  c = c'.
Proof.
  unfold UniversalSDK.collection_path. intros H.
  apply (inj (String.app _)) in H. apply (inj (String.app _)) in H.
  by apply append_inj_r in H.
Qed.

(** X13: a mutating operation on a collection sends requests for the file
    of that collection only, and with nothing pending the files of all the
    other collections are afterwards as they were. *)
Theorem other_collections_untouched (config : UniversalSDKConfig)
    (collection : string) (m : mutation) (σ σ' : state) (r : outcome ()) :
  mutate config collection m σ = (σ', r) →
  sends_to (UniversalSDK.collection_path config collection) σ σ'
  ∧ (pending σ = [] →
     ∀ other, other ≠ collection →
       remote σ' !! UniversalSDK.collection_path config other
       = remote σ !! UniversalSDK.collection_path config other).
Proof.
  intros Hrun. split.
  - eapply (mutate_moves config (sends_to _) _ _ (λ c, c = collection));
      [| | | done | exact Hrun].
    + intros c method ->. apply request_sends_to.
    + intros c data action _ σ1 σ2 r' (_ & _ & _ & Htrace)%audit_run_repository.
      by apply same_trace_sends_to.
    + intros σ1 σ2 r' [= <- _]. by apply same_trace_sends_to.
  - intros Hquiet other Hother.
    assert (changes_only (UniversalSDK.collection_path config collection) σ σ')
      as Hchanges.
    { eapply (mutate_moves config (changes_only _) _ _ (λ c, c = collection));
        [| | | done | exact Hrun].
      - intros c method ->. apply request_changes_only.
      - intros c data action _ σ1 σ2 r'
          (Hremote & _ & Hpending & _)%audit_run_repository Hq.
        by rewrite Hpending, Hremote.
      - by intros σ1 σ2 r' [= <- _]. }
    destruct (Hchanges Hquiet) as [_ Hsame]. apply Hsame.
    intros Hpath. by apply collection_path_inj in Hpath.
Qed.

(** * Validation and defaults *)

Lemma find_first {A} (f : A → bool) (pre post : list A) (x : A) :
  Forall (λ y, f y = false) pre → f x = true →
  List.find f (pre ++ x :: post) = Some x.
Proof.
  intros Hpre Hx. induction Hpre as [| y pre Hy _ IH]; simpl.
  - by rewrite Hx.
  - by rewrite Hy.
Qed.

Lemma find_nothing {A} (f : A → bool) (l : list A) :
  Forall (λ y, f y = false) l → List.find f l = None.
Proof.
  intros Hl. induction Hl as [| y l Hy _ IH]; simpl; [done |]. by rewrite Hy.
Qed.

(** X14: [validateSchema] goes through the required fields in the order of
    the schema.  It lets the candidate through when none of them is
    missing, and otherwise throws the error that names the first one that
    is.  A field is missing when the candidate holds [undefined] or [null]
    in it, or when [in] does not find it: the candidate does not have it,
    and it is not a name that every object inherits from
    [Object.prototype]. *)
Theorem validateSchema_names_first_missing (config : UniversalSDKConfig)
    (collection : string) (schema : SchemaDefinition) (fields : list string)
    (item : record) (σ : state) :
  UniversalSDK.this_schemas config !! collection = Some schema →
  required schema = Some fields →
  (Forall (λ f, is_missing f item = false) fields →
   UniversalSDK.validateSchema config collection item σ = (σ, Returned ()))
  ∧ (∀ pre f post,
       fields = pre ++ f :: post →
       Forall (λ g, is_missing g item = false) pre →
       is_missing f item = true →
       UniversalSDK.validateSchema config collection item σ
       = (σ, Thrown (required_message f collection)))
  ∧ (∀ f,
       is_missing f item = true
       ↔ (item !! f = None ∧ inherited f = false)
         ∨ item !! f = Some VUndefined ∨ item !! f = Some VNull).
Proof.
  intros Hschema Hrequired. unfold UniversalSDK.validateSchema.
  rewrite Hschema, Hrequired, check_required_run. split_and!.
  - intros Hall. by rewrite find_nothing.
  - intros pre f post -> Hpre Hf. by rewrite (find_first _ pre post f).
  - intros f. apply is_missing_true.
Qed.

(** X15: the defaults of a schema fill in only what the partial does not
    hold.  A field that the partial holds keeps its value; one that it does
    not hold takes the default.  So a [null] or [undefined] that the caller
    passes for a field stands, and the field counts as missing although
    the schema has a default for it. *)
Theorem defaults_fill_absent_fields (config : UniversalSDKConfig)
    (collection : string) (schema : SchemaDefinition) (d item : record) :
  UniversalSDK.this_schemas config !! collection = Some schema →
  defaults schema = Some d →
  let candidate := UniversalSDK.with_defaults config collection item in
  (∀ f v, item !! f = Some v → candidate !! f = Some v)
  ∧ (∀ f, item !! f = None → candidate !! f = d !! f)
  ∧ (∀ f, item !! f = Some VNull ∨ item !! f = Some VUndefined →
          is_missing f candidate = true)
  ∧ (∀ f v, item !! f = None → d !! f = Some v →
            v ≠ VNull → v ≠ VUndefined → is_missing f candidate = false).
Proof.
  intros Hschema Hdefaults candidate.
  assert (candidate = item ∪ d) as ->.
  { unfold candidate, UniversalSDK.with_defaults. rewrite Hschema. simpl.
    by rewrite Hdefaults. }
  split_and!.
  - intros f v Hf. by apply lookup_union_Some_l.
  - intros f Hf. by apply lookup_union_r.
  - intros f Hf. unfold is_missing, member_of.
    destruct Hf as [Hf | Hf]; rewrite (lookup_union_Some_l _ _ _ _ Hf); simpl;
      by rewrite orb_true_r.
  - intros f v Hf Hd Hnull Hundef. unfold is_missing, has_field, member_of.
    rewrite (lookup_union_r _ _ _ Hf), Hd. simpl. by destruct v.
Qed.

(** * Users and sessions *)

Lemma strict_equals_VStr (v : value) (s : string) :
  strict_equals v (VStr s) = strict_eq v s.
Proof. by destruct v. Qed.


Lemma find_None_Forall {A} (f : A → bool) (l : list A) :
  List.find f l = None → Forall (λ y, f y = false) l.
Proof.
  intros Hfind. apply Forall_forall. intros y Hy.
  apply list_elem_of_In in Hy. by apply (find_none _ _ Hfind).
Qed.

Section users.
Context (config : UniversalSDKConfig).
Abbreviation path_of := (UniversalSDK.collection_path config).
Abbreviation save := (UniversalSDK.save config).
Abbreviation get := (UniversalSDK.get config).

Lemma insert_returned_shape (collection : string) (item newItem : record)
    (σ σ' : state) :
  UniversalSDK.insert config collection item σ = (σ', Returned newItem) →
  ∃ uid id,
    newItem = UniversalSDK.new_item uid id
                (UniversalSDK.with_defaults config collection item).
Proof.
  intros Hrun. pose proof Hrun as (σ1 & arr & Hget & _)%bind_returned_inv.
  destruct (insert_returned_inv config _ _ _ _ _ _ _ Hget Hrun)
    as (n & id & σs & _ & _ & -> & _).
  eauto.
Qed.

Lemma register_run (userData : record) (σ σ1 : state) (users : list record) :
  get "users" σ = (σ1, Returned users) →
  UniversalSDK.register config userData σ
  = match List.find (λ u, strict_equals (prop u "email")
                            (prop userData "email")) users with
    | Some _ => (σ1, Thrown "User already exists")
    | None => UniversalSDK.insert config "users"
                (UniversalSDK.new_user userData) σ1
    end.
Proof.
  intros Hget. unfold UniversalSDK.register.
  rewrite (bind_run _ _ _ _ _ Hget). by destruct (List.find _ users).
Qed.

Lemma login_run (credentials : Credentials)
    (sessionStore : gmap string Session) (σ σ1 : state)
    (users : list record) :
  get "users" σ = (σ1, Returned users) →
  UniversalSDK.login config credentials sessionStore σ
  = match List.find (signs_in credentials) users with
    | None => (σ1, Thrown "Invalid credentials")
    | Some u =>
        let session := {| token := uuid_source σ1 (uuid_drawn σ1);
                          user := u; created := clock σ1 |} in
        (draw_uuid σ1,
         Returned (session, <[token session := session]> sessionStore))
    end.
Proof.
  intros Hget. unfold UniversalSDK.login.
  rewrite (bind_run _ _ _ _ _ Hget). fold (signs_in credentials).
  by destruct (List.find _ users).
Qed.

(** A [login] that returned. *)
Lemma login_returned_inv (credentials : Credentials)
    (sessionStore sessionStore' : gmap string Session) (session : Session)
    (σ σ' : state) :
  UniversalSDK.login config credentials sessionStore σ
  = (σ', Returned (session, sessionStore')) →
  ∃ σ1 users,
    get "users" σ = (σ1, Returned users)
    ∧ List.find (signs_in credentials) users = Some (user session)
    ∧ token session = uuid_source σ (uuid_drawn σ)
    ∧ created session = clock σ
    ∧ sessionStore' = <[token session := session]> sessionStore
    ∧ σ' = draw_uuid σ1
    ∧ uuid_source σ' = uuid_source σ
    ∧ uuid_drawn σ' = S (uuid_drawn σ).
Proof.
  intros Hrun. pose proof Hrun as (σ1 & users & Hget & _)%bind_returned_inv.
  rewrite (login_run _ _ _ _ _ Hget) in Hrun.
  pose proof (get_sends_read config _ _ _ _ Hget)
    as [(_ & _ & Hsource & Hdrawn & Hclock) _].
  destruct (List.find _ users) as [u |] eqn:Hfind; [| done].
  injection Hrun as <- <- <-. exists σ1, users. simpl.
  rewrite Hsource, Hdrawn, Hclock. by split_and!.
Qed.


(** X17: in the record that [register] stores the fields of the caller
    come last: whatever [userData] holds is stored as given, the password
    included, and [verified], [role], [roles] and [walletBalance] have
    their initial values only where [userData] does not name them. *)
Theorem register_caller_fields_win (userData newUser : record)
    (σ σ' : state) :
  UniversalSDK.register config userData σ = (σ', Returned newUser) →
  (∀ k v, userData !! k = Some v → newUser !! k = Some v)
  ∧ (userData !! "verified" = None →
     newUser !! "verified" = Some (VBool false))
  ∧ (userData !! "role" = None → newUser !! "role" = Some (VStr "customer"))
  ∧ (userData !! "roles" = None →
     newUser !! "roles"
     = Some (VArr [or_else (prop userData "role") (VStr "customer")]))
  ∧ (userData !! "walletBalance" = None →
     newUser !! "walletBalance" = Some (VNum 0)).
Proof.
  intros Hrun. pose proof Hrun as (σ1 & users & Hget & _)%bind_returned_inv.
  rewrite (register_run _ _ _ _ Hget) in Hrun.
  destruct (List.find _ users); [done |].
  apply insert_returned_shape in Hrun as (uid & id & ->).
  assert (∀ k v, UniversalSDK.new_user userData !! k = Some v →
                 UniversalSDK.new_item uid id
                   (UniversalSDK.with_defaults config "users"
                      (UniversalSDK.new_user userData)) !! k = Some v)
    as Hkept by (intros k v; apply new_item_caller).
  split_and!.
  - intros k v Hk. apply Hkept. by apply lookup_union_Some_l.
  - intros Hk. apply Hkept. unfold UniversalSDK.new_user, spread.
    by rewrite (lookup_union_r _ _ _ Hk).
  - intros Hk. apply Hkept. unfold UniversalSDK.new_user, spread, prop.
    by rewrite (lookup_union_r _ _ _ Hk), Hk.
  - intros Hk. apply Hkept. unfold UniversalSDK.new_user, spread.
    by rewrite (lookup_union_r _ _ _ Hk).
  - intros Hk. apply Hkept. unfold UniversalSDK.new_user, spread.
    by rewrite (lookup_union_r _ _ _ Hk).
Qed.

(** X18: with nothing pending, a user who has registered with an [email]
    and a [password] that are strings can log in with them: [login] returns
    a session for the record that [register] stored, and keeps it under its
    token. *)
Theorem register_then_login (userData newUser : record) (e p : string)
    (sessionStore : gmap string Session) (σ σ1 : state) :
  pending σ = [] →
  UniversalSDK.register config userData σ = (σ1, Returned newUser) →
  userData !! "email" = Some (VStr e) →
  userData !! "password" = Some (VStr p) →
  ∃ σ2 session,
    UniversalSDK.login config {| email := e; password := p |} sessionStore σ1
    = (σ2, Returned (session, <[token session := session]> sessionStore))
    ∧ user session = json_record newUser.
Proof.
  intros Hquiet Hrun He Hp.
  destruct (get_quiet config "users" σ Hquiet)
    as (σg & Hget & Hquietg & _ & Hstored & _).
  rewrite (register_run _ _ _ _ Hget) in Hrun.
  destruct (List.find _ _) eqn:Hfind; [done |].
  apply find_None_Forall in Hfind.
  destruct (insert_quiet_inv config _ _ _ _ _ Hquietg Hrun)
    as (n & id & _ & _ & Hnew & Hquiet1 & Hstored1 & _).
  assert (newUser !! "email" = Some (VStr e)
          ∧ newUser !! "password" = Some (VStr p)) as [He' Hp'].
  { rewrite Hnew.
    split; apply new_item_caller; by apply lookup_union_Some_l. }
  destruct (get_quiet config "users" σ1 Hquiet1) as (σ2 & Hget1 & _).
  eexists _, _. rewrite (login_run _ _ _ _ _ Hget1), Hstored1, Hstored.
  rewrite (find_first _ _ [] (json_record newUser)).
  - split; reflexivity.
  - eapply Forall_impl; [exact Hfind |]. intros u Hu. simpl in *.
    unfold signs_in. simpl. unfold prop at 2 in Hu. rewrite He in Hu.
    simpl in Hu. rewrite strict_equals_VStr in Hu. by rewrite Hu.
  - unfold signs_in. simpl. rewrite !strict_eq_json_record. unfold prop.
    rewrite He', Hp'. simpl. by rewrite !bool_decide_eq_true_2.
Qed.


(** X20: every [login] that returns adds a session under a token of its
    own and leaves the sessions that were there: after two logins, whose
    tokens differ, both sessions are kept, and no other token has
    changed. *)
Theorem logins_keep_earlier_sessions (c1 c2 : Credentials)
    (store store1 store2 : gmap string Session) (s1 s2 : Session)
    (σ σ1 σ2 : state) :
  UniversalSDK.login config c1 store σ = (σ1, Returned (s1, store1)) →
  UniversalSDK.login config c2 store1 σ1 = (σ2, Returned (s2, store2)) →
  uuid_source σ (uuid_drawn σ) ≠ uuid_source σ (S (uuid_drawn σ)) →
  store2 !! token s1 = Some s1
  ∧ store2 !! token s2 = Some s2
  ∧ ∀ t, t ≠ token s1 → t ≠ token s2 → store2 !! t = store !! t.
Proof.
  intros H1 H2 Hdiffer.
  apply login_returned_inv in H1
    as (? & ? & _ & _ & Ht1 & _ & -> & _ & Hsource & Hdrawn).
  apply login_returned_inv in H2
    as (? & ? & _ & _ & Ht2 & _ & -> & _).
  rewrite Hsource, Hdrawn in Ht2.
  assert (token s1 ≠ token s2) as Hne by (by rewrite Ht1, Ht2).
  split_and!.
  - rewrite lookup_insert_ne by done. apply lookup_insert_eq.
  - apply lookup_insert_eq.
  - intros t Hn1 Hn2. by rewrite !lookup_insert_ne.
Qed.

(** X21: [destroySession] undoes a [login]: when the token that [login]
    drew was not in use, destroying the session gives back the session
    store as it was; and destroying a token that is not in the store
    changes nothing. *)
Theorem destroySession_undoes_login (credentials : Credentials)
    (store store1 : gmap string Session) (session : Session)
    (σ σ1 : state) :
  UniversalSDK.login config credentials store σ
  = (σ1, Returned (session, store1)) →
  store !! token session = None →
  UniversalSDK.destroySession (token session) store1 = store
  ∧ UniversalSDK.destroySession (token session) store = store.
Proof.
  intros Hrun Hfresh.
  apply login_returned_inv in Hrun as (? & ? & _ & _ & _ & _ & -> & _).
  unfold UniversalSDK.destroySession. split.
  - by apply delete_insert_id.
  - by apply delete_id.
Qed.

(** X22: [getCurrentUser] does not look at the sessions.  With nothing
    pending it returns the first user of the collection, whoever has just
    logged in, and [null] when there is no user. *)
Theorem getCurrentUser_is_first_user (credentials : Credentials)
    (store : gmap string Session) (σ σ1 : state)
    (r : outcome (Session * gmap string Session)) :
  pending σ = [] →
  UniversalSDK.login config credentials store σ = (σ1, r) →
  ∃ σ2, UniversalSDK.getCurrentUser config σ1
        = (σ2, Returned (head (collection_at config σ "users"))).
Proof.
  intros Hquiet Hrun.
  destruct (get_quiet config "users" σ Hquiet)
    as (σg & Hget & Hquietg & _ & Hstored & _).
  rewrite (login_run _ _ _ _ _ Hget) in Hrun.
  assert (pending σ1 = []
          ∧ collection_at config σ1 "users" = collection_at config σ "users")
    as [Hquiet1 Hstored1].
  { destruct (List.find _ _); by injection Hrun as <- _. }
  destruct (get_quiet config "users" σ1 Hquiet1) as (σ2 & Hget1 & _).
  exists σ2. unfold UniversalSDK.getCurrentUser.
  by rewrite (bind_run _ _ _ _ _ Hget1), Hstored1.
Qed.
End users.

(** * Listing and initialisation *)

Lemma strip_prefix_app (p s : string) : strip_prefix p (p +:+ s) = Some s.
Proof.
  induction p as [| a p IH]; simpl; [by destruct s |].
  by rewrite Ascii.eqb_refl.
Qed.

Lemma append_assoc (a b c : string) : (a +:+ b) +:+ c = a +:+ b +:+ c.
Proof.
  induction a as [| x a IH]; [reflexivity |].
  change (String x ((a +:+ b) +:+ c) = String x (a +:+ b +:+ c)).
  by rewrite IH.
Qed.

Lemma append_empty (a : string) : a +:+ "" = a.
Proof.
  induction a as [| x a IH]; [reflexivity |].
  change (String x (a +:+ "") = String x a). by rewrite IH.
Qed.

Lemma endsWith_app (suffix name : string) :
  endsWith suffix (name +:+ suffix) = true.
Proof.
  induction name as [| a name IH].
  - change ("" +:+ suffix) with suffix. destruct suffix; simpl; [done |].
    by rewrite bool_decide_eq_true_2.
  - simpl. rewrite IH. apply orb_true_r.
Qed.

Lemma first_segment_plain (name rest : string) :
  plain_name name = true →
  first_segment (name +:+ rest) = name +:+ first_segment rest.
Proof.
  unfold plain_name. induction name as [| a name IH]; simpl; [done |].
  intros [Ha Hname]%andb_true_iff.
  apply negb_true_iff, orb_false_iff in Ha as [_ Hslash].
  rewrite Hslash.
  change (String a (first_segment (name +:+ rest))
          = String a (name +:+ first_segment rest)).
  f_equal. by apply IH.
Qed.

Lemma replace_first_cons (pattern rest : string) (c : ascii) :
  strip_prefix pattern (String c rest) = None →
  replace_first pattern (String c rest)
  = String c (replace_first pattern rest).
Proof.
  intros H.
  change (replace_first pattern (String c rest))
    with (match strip_prefix pattern (String c rest) with
          | Some r => r
          | None => String c (replace_first pattern rest)
          end).
  by rewrite H.
Qed.

Lemma strip_prefix_head (p s : string) (a c : ascii) :
  Ascii.eqb a c = false → strip_prefix (String a p) (String c s) = None.
Proof.
  intros H.
  change (strip_prefix (String a p) (String c s))
    with (if Ascii.eqb a c then strip_prefix p s else None).
  by rewrite H.
Qed.

(** [replace] takes out the first [.json] of a name. *)
Lemma replace_first_plain (name rest : string) :
  plain_name name = true →
  replace_first ".json" (name +:+ ".json" +:+ rest) = name +:+ rest.
Proof.
  unfold plain_name. induction name as [| a name IH].
  - intros _. reflexivity.
  - intros [Ha Hname]%andb_true_iff.
    apply negb_true_iff, orb_false_iff in Ha as [Hdot _].
    change (String a name +:+ ".json" +:+ rest)
      with (String a (name +:+ ".json" +:+ rest)).
    rewrite replace_first_cons.
    + change (String a name +:+ rest) with (String a (name +:+ rest)).
      f_equal. by apply IH.
    + apply strip_prefix_head. by rewrite Ascii.eqb_sym.
Qed.

Lemma entries_elem_of (directory rest : string) (files : gmap string blob) :
  is_Some (files !! (directory +:+ "/" +:+ rest)) →
  first_segment rest ∈ entries directory files.
Proof.
  intros [b Hb]. unfold entries.
  apply elem_of_remove_dups, list_elem_of_omap.
  exists (directory +:+ "/" +:+ rest). split.
  - apply list_elem_of_fmap. exists (directory +:+ "/" +:+ rest, b).
    split; [done |]. by apply elem_of_map_to_list.
  - by rewrite <- append_assoc, strip_prefix_app.
Qed.

Section initialisation.
Context (config : UniversalSDKConfig).
Abbreviation path_of := (UniversalSDK.collection_path config).
Abbreviation save := (UniversalSDK.save config).
Abbreviation get := (UniversalSDK.get config).
Abbreviation base := (UniversalSDK.this_basePath config).

Lemma request_contents_quiet (σ : state) :
  pending σ = [] →
  request_contents base σ
  = match remote σ !! base with
    | Some b => (log_call (CGet base (Some (sha b))) σ, Returned (File b))
    | None =>
        match entries base (remote σ) with
        | [] => (log_call (CGet base None) σ, Thrown not_found_text)
        | names => (log_call (CGet base None) σ, Returned (Directory names))
        end
    end.
Proof.
  intros Hquiet. unfold request_contents. rewrite (arrive_quiet σ Hquiet).
  by destruct (remote σ !! base).
Qed.

Lemma base_not_collection (collection : string) : base ≠ path_of collection.
Proof.
  unfold UniversalSDK.collection_path. intros H.
  apply (f_equal String.length) in H. rewrite !length_append in H.
  simpl in H. lia.
Qed.

Lemma listCollections_listed (σ σ1 : state) (names : list string) :
  request_contents base σ = (σ1, Returned (Directory names)) →
  UniversalSDK.listCollections config σ
  = (σ1, Returned (replace_first ".json"
                     <$> List.filter (endsWith ".json") names)).
Proof.
  intros Hreq. unfold UniversalSDK.listCollections, try_catch.
  by rewrite (bind_run _ _ _ _ _ Hreq).
Qed.

(** X23: with nothing pending, a collection that has been saved is listed
    under its name, when the name has neither a dot nor a slash and the base
    path is not itself a file. *)
Theorem saved_collection_is_listed (collection : string)
    (data : list record) (σ : state) :
  pending σ = [] →
  plain_name collection = true →
  remote σ !! base = None →
  ∃ σ' names,
    (_ ← save collection data; UniversalSDK.listCollections config) σ
    = (σ', Returned names)
    ∧ collection ∈ names.
Proof.
  intros Hquiet Hplain Hbase.
  pose proof (save_quiet_run config collection data σ Hquiet) as Hsave.
  simpl in Hsave. rewrite (bind_run _ _ _ _ _ Hsave).
  match goal with |- context [UniversalSDK.listCollections config ?s] =>
    set (σ1 := s) end.
  assert (pending σ1 = []) as Hquiet1 by done.
  assert (remote σ1 !! base = None) as Hbase1.
  { unfold σ1. simpl. rewrite lookup_insert_ne; [done |].
    intros H. symmetry in H. by apply base_not_collection in H. }
  assert (collection +:+ ".json" ∈ entries base (remote σ1)) as Hentry.
  { replace (collection +:+ ".json")
      with (first_segment (collection +:+ ".json")).
    - apply entries_elem_of. unfold σ1. simpl.
      fold (path_of collection). by rewrite lookup_insert_eq.
    - by rewrite first_segment_plain. }
  pose proof (request_contents_quiet σ1 Hquiet1) as Hreq.
  rewrite Hbase1 in Hreq.
  destruct (entries base (remote σ1)) as [| name names] eqn:Hnames.
  { by apply elem_of_nil in Hentry. }
  rewrite (listCollections_listed _ _ _ Hreq). eexists _, _.
  split; [done |].
  apply list_elem_of_fmap. exists (collection +:+ ".json"). split.
  - pose proof (replace_first_plain collection "" Hplain) as Hcut.
    change (".json" +:+ "") with ".json" in Hcut.
    by rewrite Hcut, append_empty.
  - apply list_elem_of_In, filter_In. split.
    + by apply list_elem_of_In.
    + apply endsWith_app.
Qed.
End initialisation.

Lemma stays_quiet_refl : Reflexive stays_quiet.
Proof. by intros σ Hquiet. Qed.
#[local] Existing Instance stays_quiet_refl.

Lemma stays_quiet_trans : Transitive stays_quiet.
Proof. intros σ1 σ2 σ3 H12 H23 Hquiet. by apply H23, H12. Qed.
#[local] Existing Instance stays_quiet_trans.

Lemma request_stays_quiet (path : string) (method : http_method) :
  moves_along stays_quiet (request path method).
Proof.
  intros σ σ' r Hrun Hquiet.
  apply (request_changes_only path method σ σ' r Hrun Hquiet).
Qed.

Section initialising.
Context (config : UniversalSDKConfig).
Abbreviation path_of := (UniversalSDK.collection_path config).
Abbreviation save := (UniversalSDK.save config).
Abbreviation get := (UniversalSDK.get config).
Abbreviation base := (UniversalSDK.this_basePath config).

Lemma init_listed (σ σ1 : state) (res : contents) :
  request_contents base σ = (σ1, Returned res) →
  UniversalSDK.init config σ = (σ1, Returned ()).
Proof.
  intros Hreq.
  assert (∃ names, UniversalSDK.listCollections config σ
                   = (σ1, Returned names)) as [names Hlist].
  { unfold UniversalSDK.listCollections, try_catch.
    rewrite (bind_run _ _ _ _ _ Hreq). destruct res; eauto. }
  unfold UniversalSDK.init, try_catch.
  by rewrite (bind_run _ _ _ _ _ Hlist).
Qed.

Lemma init_failed (σ σ1 : state) (message : string) :
  request_contents base σ = (σ1, Thrown message) →
  UniversalSDK.init config σ
  = if treated_as_missing message
    then (_ ← for_each UniversalSDK.basicCollections
                (UniversalSDK.initializeCollection config);
          UniversalSDK.initializeSampleData config) σ1
    else (σ1, Thrown message).
Proof.
  intros Hreq.
  assert (UniversalSDK.listCollections config σ
          = (σ1, Thrown (if treated_as_missing message
                         then "Repository is empty" else message)))
    as Hlist.
  { unfold UniversalSDK.listCollections, try_catch.
    rewrite (bind_thrown _ _ _ _ _ Hreq). unfold treated_as_missing.
    rewrite (orb_comm (includes "404" message)).
    by destruct (includes "empty" message || includes "404" message). }
  unfold UniversalSDK.init, try_catch.
  rewrite (bind_thrown _ _ _ _ _ Hlist). unfold treated_as_missing in *.
  rewrite (orb_comm (includes "404" message)).
  destruct (includes "empty" message || includes "404" message) eqn:Hmsg.
  - by change (includes "empty" "Repository is empty"
               || includes "404" "Repository is empty") with true.
  - by rewrite Hmsg.
Qed.

(** With nothing pending the loop of [init] creates the file of every
    collection of its list. *)
Lemma for_each_initializeCollection (l : list string) (σ : state) :
  pending σ = [] →
  ∃ σ', for_each l (UniversalSDK.initializeCollection config) σ
        = (σ', Returned ())
        ∧ pending σ' = [] ∧ keeps_files σ σ'
        ∧ ∀ c, c ∈ l → is_Some (remote σ' !! path_of c).
Proof.
  revert σ. induction l as [| c l IH]; intros σ Hquiet.
  - exists σ. split_and!; [done | done | done |].
    intros c Hc. by apply elem_of_nil in Hc.
  - pose proof (initializeCollection_run config c σ) as Hrun.
    rewrite (save_quiet_run config c [] σ Hquiet) in Hrun. simpl in Hrun.
    match type of Hrun with _ = (?s, _) => set (σ1 := s) in * end.
    destruct (IH σ1) as (σ' & Hloop & Hquiet' & Hkeeps & Hall); [done |].
    exists σ'. cbn [for_each]. rewrite (bind_run _ _ _ _ _ Hrun).
    assert (is_Some (remote σ1 !! path_of c)) as Hc.
    { unfold σ1. simpl. by rewrite lookup_insert_eq. }
    split_and!; [done | done | |].
    + intros path Hpath. apply Hkeeps. unfold σ1. simpl.
      destruct (decide (path_of c = path)) as [<- | Hne].
      * by rewrite lookup_insert_eq.
      * by rewrite lookup_insert_ne.
    + intros c' [-> | Hc']%elem_of_cons; [by apply Hkeeps | by apply Hall].
Qed.

Lemma initializeSampleData_never_throws (σ σ' : state) (r : outcome ()) :
  UniversalSDK.initializeSampleData config σ = (σ', r) →
  ∀ message, r ≠ Thrown message.
Proof.
  unfold UniversalSDK.initializeSampleData, try_catch.
  match goal with |- context [match ?body σ with _ => _ end] =>
    destruct (body σ) as [σ1 [[] | msg |]]
  end; by intros [= <- <-].
Qed.

(** With nothing pending and the file of some collection there, [init]
    only lists. *)
Lemma init_populated (σ : state) (collection : string) :
  pending σ = [] →
  is_Some (remote σ !! path_of collection) →
  ∃ σ', UniversalSDK.init config σ = (σ', Returned ())
        ∧ remote σ' = remote σ ∧ pending σ' = []
        ∧ writes (trace σ') = writes (trace σ).
Proof.
  intros Hquiet Hfile.
  pose proof (request_contents_quiet config σ Hquiet) as Hreq.
  assert (∀ o, writes (trace (log_call (CGet base o) σ)) = writes (trace σ))
    as Hwrites.
  { intros o. unfold writes. simpl. rewrite List.filter_app, length_app.
    simpl. lia. }
  destruct (remote σ !! base) as [b |].
  { eexists. split; [by eapply init_listed |]. by split_and!. }
  pose proof (entries_elem_of base (collection +:+ ".json") (remote σ) Hfile)
    as Hentry.
  destruct (entries base (remote σ)) as [| name names].
  { by apply elem_of_nil in Hentry. }
  eexists. split; [by eapply init_listed |]. by split_and!.
Qed.

(** X24: [init] writes only into an empty repository.  When the listing of
    the base directory comes back, [init] returns without another
    request, and when it fails for another reason than a missing
    directory the error is the caller's.  So with nothing pending, [init]
    on a repository that holds the file of some collection changes
    nothing: a basic collection that is not there is not created. *)
Theorem init_leaves_populated_repository (σ : state) :
  (∀ σ1 res, request_contents base σ = (σ1, Returned res) →
             UniversalSDK.init config σ = (σ1, Returned ()))
  ∧ (∀ σ1 message,
       request_contents base σ = (σ1, Thrown message) →
       treated_as_missing message = false →
       UniversalSDK.init config σ = (σ1, Thrown message))
  ∧ (pending σ = [] →
     ∀ collection, is_Some (remote σ !! path_of collection) →
       ∃ σ', UniversalSDK.init config σ = (σ', Returned ())
             ∧ remote σ' = remote σ ∧ pending σ' = []
             ∧ writes (trace σ') = writes (trace σ)).
Proof.
  split_and!.
  - intros σ1 res. apply init_listed.
  - intros σ1 message Hreq Hother. by rewrite (init_failed _ _ _ Hreq), Hother.
  - intros Hquiet collection. by apply init_populated.
Qed.

(** X25: with nothing pending, [init] on a repository without anything
    under the base path creates the file of every basic collection and does
    not throw; a second [init] then changes nothing. *)
Theorem init_creates_basic_collections (σ σ' : state) (r : outcome ()) :
  pending σ = [] →
  remote σ !! base = None →
  entries base (remote σ) = [] →
  UniversalSDK.init config σ = (σ', r) →
  (∀ message, r ≠ Thrown message)
  ∧ (∀ collection, collection ∈ UniversalSDK.basicCollections →
       is_Some (remote σ' !! path_of collection))
  ∧ ∃ σ'', UniversalSDK.init config σ' = (σ'', Returned ())
           ∧ remote σ'' = remote σ'.
Proof.
  intros Hquiet Hbase Hempty Hrun.
  pose proof (request_contents_quiet config σ Hquiet) as Hreq.
  rewrite Hbase, Hempty in Hreq.
  rewrite (init_failed _ _ _ Hreq) in Hrun.
  change (treated_as_missing not_found_text) with true in Hrun. cbv iota in Hrun.
  destruct (for_each_initializeCollection UniversalSDK.basicCollections
              (log_call (CGet base None) σ) Hquiet)
    as (σ1 & Hloop & Hquiet1 & _ & Hall).
  rewrite (bind_run _ _ _ _ _ Hloop) in Hrun.
  assert (keeps_files σ1 σ') as Hkeeps.
  { eapply (initializeSampleData_moves config keeps_files _ _ (λ _, True));
      [| | | done | exact Hrun].
    - intros c method _. apply request_keeps_files.
    - intros c data action _ σa σb r'
        (Hremote & _)%audit_run_repository path Hpath.
      by rewrite Hremote.
    - by intros σa σb r' [= <- _] path Hpath. }
  assert (pending σ' = []) as Hquiet'.
  { eapply (initializeSampleData_moves config stays_quiet _ _ (λ _, True));
      [| | | done | exact Hrun | done].
    - intros c method _. apply request_stays_quiet.
    - intros c data action _ σa σb r'
        (_ & _ & Hpending & _)%audit_run_repository Hq.
      by rewrite Hpending.
    - by intros σa σb r' [= <- _] Hq. }
  split_and!.
  - by eapply initializeSampleData_never_throws.
  - intros collection Hc. by apply Hkeeps, Hall.
  - destruct (init_populated σ' "users" Hquiet') as (σ'' & Hinit & Hremote & _).
    + apply Hkeeps, Hall. by left.
    + by exists σ''.
Qed.
End initialising.

(** * More round trips *)

Section more_round_trips.
Context (config : UniversalSDKConfig).
Abbreviation path_of := (UniversalSDK.collection_path config).
Abbreviation save := (UniversalSDK.save config).
Abbreviation get := (UniversalSDK.get config).

(** [update] with nothing pending. *)
Lemma update_quiet (collection key : string) (updates old : record)
    (σ : state) (index : nat) :
  pending σ = [] → audits σ collection →
  findIndex key (collection_at config σ collection) = Some index →
  collection_at config σ collection !! index = Some old →
  ∃ σ', UniversalSDK.update config collection key updates σ
        = (σ', Returned (Some (spread old updates)))
        ∧ pending σ' = []
        ∧ collection_at config σ' collection
          = <[index := json_record (spread old updates)]>
              (collection_at config σ collection).
Proof.
  intros Hquiet Haudits Hindex Hold.
  destruct (get_quiet config collection σ Hquiet)
    as (σ1 & Hget & Hquiet1 & (Hlog & _) & _).
  destruct (save_quiet_post config collection
              (<[index := spread old updates]>
                 (collection_at config σ collection)) σ1 Hquiet1)
    as (σs & Hsave & Hquiets & (Hlog' & _) & Hstored & _).
  assert (audits σs collection) as Hauditss.
  { eapply audits_same_log; [| exact Haudits]. by rewrite Hlog'. }
  eexists. unfold UniversalSDK.update.
  rewrite (bind_run _ _ _ _ _ Hget), Hindex, Hold. simpl default.
  rewrite (bind_run _ _ _ _ _ Hsave).
  rewrite (bind_run _ _ _ _ _ (audit_run_returned _ _ _ σs Hauditss)).
  split; [reflexivity |]. split; [done |].
  transitivity (collection_at config σs collection); [done |].
  rewrite Hstored. unfold json_records. rewrite list_fmap_insert.
  f_equal. apply collection_at_json.
Qed.

(** X26: with nothing pending and a collection that is not named like a
    member of [Object.prototype], an [update] is read back by [getItem]:
    under the key of the update it returns the merge, as JSON renders it,
    as long as the merge still answers to that key. *)
Theorem update_getItem_round_trip (collection key : string)
    (updates old : record) (σ : state) (index : nat) :
  pending σ = [] → inherited collection = false →
  findIndex key (collection_at config σ collection) = Some index →
  collection_at config σ collection !! index = Some old →
  matches key (spread old updates) = true →
  ∃ σ1 σ2,
    UniversalSDK.update config collection key updates σ
    = (σ1, Returned (Some (spread old updates)))
    ∧ UniversalSDK.getItem config collection key σ1
      = (σ2, Returned (Some (json_record (spread old updates)))).
Proof.
  intros Hquiet Hname Hindex Hold Hstill.
  destruct (update_quiet collection key updates old σ index Hquiet
              (or_intror Hname) Hindex Hold)
    as (σ1 & Hupdate & Hquiet1 & Hstored).
  destruct (get_quiet config collection σ1 Hquiet1) as (σ2 & Hget & _).
  exists σ1, σ2. split; [done |].
  rewrite (getItem_run _ _ _ _ _ _ Hget), Hstored.
  apply findIndex_Some in Hindex as (x & Hx & _ & Hfirst).
  assert (list_find (λ x, Is_true (matches key x))
            (<[index := json_record (spread old updates)]>
               (collection_at config σ collection))
          = Some (index, json_record (spread old updates))) as ->; [| done].
  apply list_find_Some. split_and!.
  - apply list_lookup_insert_eq. by eapply lookup_lt_Some.
  - by rewrite matches_json_record, Hstill.
  - intros j y Hy Hj. rewrite list_lookup_insert_ne in Hy by lia.
    rewrite (Hfirst j y Hy Hj). by intros [].
Qed.

(** X27: with nothing pending, deleting a record that [insert] has just
    returned, under its [id], gives back the collection as it was before
    the insert, as long as no earlier record answers to that [id]. *)
Theorem insert_then_delete (collection id : string) (item newItem : record)
    (σ σ1 : state) :
  pending σ = [] →
  UniversalSDK.insert config collection item σ = (σ1, Returned newItem) →
  newItem !! "id" = Some (VStr id) →
  (∀ x, x ∈ collection_at config σ collection → matches id x = false) →
  ∃ σ2, UniversalSDK.delete config collection id σ1 = (σ2, Returned true)
        ∧ collection_at config σ2 collection
          = collection_at config σ collection.
Proof.
  intros Hquiet Hinsert Hid Hfresh.
  destruct (insert_quiet_inv config _ _ _ _ _ Hquiet Hinsert)
    as (n & id' & _ & _ & _ & Hquiet1 & Hstored & _ & _ & _ & Haudits).
  assert (findIndex id (collection_at config σ1 collection)
          = Some (length (collection_at config σ collection))) as Hindex.
  { rewrite Hstored. unfold findIndex.
    rewrite (list_find_last id _ (json_record newItem)); [done | done |].
    rewrite matches_json_record. unfold matches, prop. rewrite Hid. simpl.
    by rewrite bool_decide_eq_true_2. }
  destruct (delete_quiet config collection id σ1 _ Hquiet1 Haudits Hindex)
    as (σ2 & Hdelete & _ & Hstored2 & _).
  exists σ2. split; [done |]. by rewrite Hstored2, Hstored, delete_last.
Qed.

(** X28: [bulkInsert] draws one identifier for every item, and the records
    it returns carry them in the order of the items: when the candidates
    bring no [uid] of their own and the identifiers drawn are distinct, no
    two of the records share a [uid]. *)
Theorem bulkInsert_distinct_uids (collection : string)
    (items results : list record) (σ σ' : state) :
  UniversalSDK.bulkInsert config collection items σ = (σ', Returned results) →
  (∀ item, item ∈ items →
     UniversalSDK.with_defaults config collection item !! "uid" = None) →
  (∀ i j, (i < j < length items)%nat →
     uuid_source σ (uuid_drawn σ + i)%nat
     ≠ uuid_source σ (uuid_drawn σ + j)%nat) →
  (∀ i r, results !! i = Some r →
     r !! "uid" = Some (VStr (uuid_source σ (uuid_drawn σ + i)%nat)))
  ∧ NoDup (record_uids results)
  ∧ uuid_drawn σ' = (uuid_drawn σ + length items)%nat.
Proof.
  intros Hrun Hown Hdistinct.
  pose proof Hrun as (σ1 & arr & Hget & Hrest)%bind_returned_inv.
  destruct (bulkInsert_returned_inv config _ _ _ _ _ _ _ Hget Hrun)
    as (start & σl & _ & Hlen & Hnumbered & _ & Hsave).
  pose proof (get_sends_read config _ _ _ _ Hget)
    as [(_ & _ & Hsource & Hdrawn & _) _].
  assert (∀ i r, results !! i = Some r →
            r !! "uid" = Some (VStr (uuid_source σ (uuid_drawn σ + i)%nat)))
    as Huids.
  { intros i r Hr.
    destruct (lookup_lt_is_Some_2 items i) as [item Hitem].
    { rewrite <- Hlen. by eapply lookup_lt_Some. }
    destruct (Hnumbered i item Hitem) as (r' & Hr' & id & _ & ->).
    rewrite Hr in Hr'. injection Hr' as ->.
    rewrite Hsource, Hdrawn. apply new_item_uid, Hown.
    by eapply list_elem_of_lookup_2. }
  split_and!; [done | |].
  - apply NoDup_alt. intros i j u Hi Hj. unfold record_uids in *.
    rewrite list_lookup_fmap in Hi, Hj.
    destruct (results !! i) as [ri |] eqn:Hri; [| done].
    destruct (results !! j) as [rj |] eqn:Hrj; [| done].
    simpl in Hi, Hj. rewrite (Huids i ri Hri) in Hi.
    rewrite (Huids j rj Hrj) in Hj. rewrite <- Hi in Hj.
    injection Hj as Hsame.
    apply lookup_lt_Some in Hri, Hrj. rewrite Hlen in Hri, Hrj.
    destruct (Nat.lt_trichotomy i j) as [Hlt | [-> | Hgt]]; [| done |].
    + by destruct (Hdistinct i j ltac:(lia)).
    + by destruct (Hdistinct j i ltac:(lia)).
  - unfold UniversalSDK.bulkInsert in Hrun.
    rewrite (bind_run _ _ _ _ _ Hget) in Hrun.
    apply bind_returned_inv in Hrun
      as (? & n & [_ ->]%decided_returned_inv & Hrun).
    apply bind_returned_inv in Hrun as (σl' & [arr' results'] & Hloop & Hrun).
    apply bind_returned_inv in Hrun as (σs & [] & Hsave' & [= <- <-]).
    apply save_returned in Hsave' as (_ & _ & _ & (_ & _ & _ & Hd & _) & _).
    rewrite Hd, <- Hdrawn. clear -Hloop.
    revert n arr σ1 Hloop. generalize (@nil record).
    induction items as [| item items IH]; intros acc n arr σ1 Hloop.
    + injection Hloop as <- _ _. simpl. lia.
    + cbn [UniversalSDK.bulkInsert_loop] in Hloop.
      apply bind_returned_inv in Hloop as (σv & [] & Hv & Hloop).
      apply validateSchema_state in Hv as ->.
      apply bind_returned_inv in Hloop as (? & uid & [= <- <-] & Hloop).
      apply bind_returned_inv in Hloop
        as (? & id & [_ ->]%decided_returned_inv & Hloop).
      apply IH in Hloop. rewrite Hloop. simpl. lia.
Qed.
End more_round_trips.

(** * Running a query twice *)

Lemma sort_insert_last {A} (cmp : A → A → option Z) (x : A) (acc : list A) :
  Forall (λ y, ∃ c, cmp y x = Some c ∧ c ≤ 0) acc →
  sort_insert cmp x acc = Some (acc ++ [x]).
Proof.
  induction 1 as [| y acc (c & Hc & Hle) _ IH]; simpl; [done |].
  rewrite Hc. simpl. destruct (Z.ltb_spec 0 c); [lia |]. by rewrite IH.
Qed.

(** A list that is in order already comes back as it is. *)
Lemma Array_sort_in_order {A} (cmp : A → A → option Z) (l : list A) :
  StronglySorted (λ y x, ∃ c, cmp y x = Some c ∧ c ≤ 0) l →
  Array_sort cmp l = Some l.
Proof.
  unfold Array_sort. intros Hsorted.
  assert (∀ acc,
            Forall (λ y, Forall (λ x, ∃ c, cmp y x = Some c ∧ c ≤ 0) l) acc →
            foldl (λ (acc : option (list A)) x,
                     sorted ← acc; sort_insert cmp x sorted)
              (Some acc) l = Some (acc ++ l)) as Hgen.
  { induction Hsorted as [| x l Hsorted IH Hx]; intros acc Hacc; simpl.
    - by rewrite app_nil_r.
    - rewrite sort_insert_last.
      + rewrite IH; [by rewrite <- (assoc_L (++)) |].
        apply Forall_app. split.
        * eapply Forall_impl; [exact Hacc |]. intros y Hy.
          by apply Forall_cons in Hy as [_ Hy].
        * by constructor.
      + eapply Forall_impl; [exact Hacc |]. intros y Hy.
        by apply Forall_cons in Hy as [Hy _]. }
  apply (Hgen []). constructor.
Qed.

Lemma ordered_by_in_order (field : string) (dir : direction)
    (l : list record) :
  Forall (integer_field field) l → ordered_by field dir l →
  StronglySorted (λ y x, ∃ c, compareFn field dir y x = Some c ∧ c ≤ 0) l.
Proof.
  intros Hints Hordered.
  induction Hordered as [| y l Hordered IH Hy]; [constructor |].
  apply Forall_cons in Hints as [(m & Hm & Hsafe) Hints].
  constructor; [by apply IH |].
  apply Forall_forall. intros x Hx.
  pose proof (proj1 (Forall_forall _ _) Hy x Hx)
    as (m' & n & Hm' & Hn & Horder).
  pose proof (proj1 (Forall_forall _ _) Hints x Hx) as (n' & Hn' & Hsafe').
  rewrite Hm in Hm'. injection Hm' as <-.
  rewrite Hn in Hn'. injection Hn' as <-.
  destruct (compareFn_integers field dir y x m n Hm Hsafe Hn Hsafe')
    as (c & Hc & Hpos & _).
  exists c. split; [done |].
  destruct (Z.le_gt_cases c 0) as [Hle | Hgt]; [done |].
  destruct (Hpos ltac:(lia)) as [Hback Hne].
  destruct dir; simpl in *; lia.
Qed.

Lemma exec_sorted (qb : nat) (σ : state) (b : QueryBuilder)
    (fetched sorted : list record) (field : string) :
  builders σ !! qb = Some b →
  query b = Returned fetched →
  truthy (sortField b) = Some field →
  Array_sort (compareFn field (sortDir b))
    (List.filter (λ x, forallb (λ fn, fn x) (filters b)) fetched)
  = Some sorted →
  UniversalSDK.exec qb σ
  = (match filters b with
     | [] => with_builders
               (<[qb := set_query (Returned sorted) b]> (builders σ)) σ
     | _ => σ
     end,
     Returned (apply_projection (projectionFields b) sorted)).
Proof.
  intros Hb Hq Hfield Hsort. unfold UniversalSDK.exec.
  rewrite Hb, Hq, Hfield, filters_conjoined, Hsort. by destruct (filters b).
Qed.

(** X29: [exec] can be repeated.  On a builder whose fetch has returned
    records that hold integers in the sort field, if one is set, a second
    [exec] returns what the first returned, although the first has sorted
    the fetched records in place. *)
Theorem exec_is_repeatable (qb : nat) (σ : state) (b : QueryBuilder)
    (fetched : list record) :
  builders σ !! qb = Some b →
  query b = Returned fetched →
  (∀ field, truthy (sortField b) = Some field →
            Forall (integer_field field) fetched) →
  ∃ σ1 results,
    UniversalSDK.exec qb σ = (σ1, Returned results)
    ∧ (UniversalSDK.exec qb σ1).2 = Returned results.
Proof.
  intros Hb Hq Hints.
  destruct (truthy (sortField b)) as [field |] eqn:Hfield.
  - set (kept := List.filter (λ x, forallb (λ fn, fn x) (filters b)) fetched).
    assert (Forall (integer_field field) kept) as Hkept.
    { apply Forall_forall. intros x Hx.
      apply list_elem_of_In, filter_In in Hx as [Hx _].
      apply list_elem_of_In in Hx.
      by apply (proj1 (Forall_forall _ _) (Hints field eq_refl)). }
    destruct (Array_sort_ordered field (sortDir b) kept Hkept)
      as (sorted & Hsort & Hordered).
    pose proof (exec_sorted qb σ b fetched sorted field Hb Hq Hfield Hsort)
      as Hexec.
    eexists _, _. split; [exact Hexec |].
    destruct (filters b) as [| fn fns] eqn:Hfilters.
    + assert (Forall (integer_field field) sorted) as Hsorted.
      { by rewrite (Array_sort_permutation _ _ _ Hsort). }
      rewrite (exec_sorted qb _ (set_query (Returned sorted) b) sorted sorted
                 field).
      * done.
      * simpl. apply list_lookup_insert_eq. by eapply lookup_lt_Some.
      * done.
      * done.
      * simpl. rewrite Hfilters. simpl.
        replace (List.filter (λ _, true) sorted) with sorted.
        -- by apply Array_sort_in_order, ordered_by_in_order.
        -- clear. induction sorted as [| x l IH]; simpl; [done |].
           by rewrite <- IH.
    + by rewrite Hexec.
  - eexists σ, _. unfold UniversalSDK.exec. rewrite Hb, Hq, Hfield.
    split; reflexivity.
Qed.

(** * The first record of a collection *)

(** X30: with nothing pending, an [insert] into a collection that has no
    file yet and is not named like a member of [Object.prototype] creates
    the collection and gives its first record the [id] ["1"], when the
    candidate passes validation and brings no [id] of its own; afterwards
    the collection holds that record alone.  (Strings are made of
    characters up to U+00FF, which [btoa] encodes.) *)
Theorem insert_into_new_collection (config : UniversalSDKConfig)
    (collection : string) (item : record) (σ : state) :
  pending σ = [] → inherited collection = false →
  remote σ !! UniversalSDK.collection_path config collection = None →
  passes_validation config collection
    (UniversalSDK.with_defaults config collection item) →
  UniversalSDK.with_defaults config collection item !! "id" = None →
  ∃ σ' newItem,
    UniversalSDK.insert config collection item σ = (σ', Returned newItem)
    ∧ newItem !! "id" = Some (VStr "1")
    ∧ collection_at config σ' collection = [json_record newItem].
Proof.
  intros Hquiet Hname Hnone Hvalid Hown.
  assert (collection_at config σ collection = []) as Hempty.
  { unfold collection_at, stored_records. by rewrite Hnone. }
  destruct (insert_quiet config collection item σ 1 "1" Hquiet
              (or_intror Hname) Hvalid)
    as (σ' & Hinsert & _ & Hstored & _).
  - by rewrite Hempty.
  - reflexivity.
  - eexists _, _. split; [exact Hinsert |].
    split; [by apply new_item_id |]. by rewrite Hstored, Hempty.
Qed.

(** * The theorems at work *)

Lemma run_outcome {A} (m : M A) (σ : state) (r : outcome A) :
  (m σ).2 = r → m σ = ((m σ).1, r).
Proof. intros <-. apply surjective_pairing. Qed.

Lemma save_get_round_trip_witness :
  let data : list record := [ {[ "a" := VNum 1; "b" := VUndefined ]} ] in
  ∃ σ', (_ ← UniversalSDK.save example_config "items" data;
         UniversalSDK.get example_config "items") new_state
        = (σ', Returned (json_records data)).
Proof.
  intros data. apply (save_get_round_trip example_config "items" data new_state).
  reflexivity.
Defined.

Lemma get_creates_once_witness :
  ∃ σ1 σ2 arr v,
    UniversalSDK.get example_config "items" new_state = (σ1, Returned arr)
    ∧ UniversalSDK.get example_config "items" σ1 = (σ2, Returned arr)
    ∧ trace σ2
      = trace σ1
        ++ [CGet (UniversalSDK.collection_path example_config "items") (Some v)]
    ∧ remote σ2 = remote σ1.
Proof. apply (get_creates_once example_config "items" new_state). reflexivity. Defined.

Lemma insert_getItem_round_trip_witness :
  let σ := state_with "db/items.json"
             [ {[ "id" := VStr "1"; "uid" := VStr "u1" ]} ] [] in
  let newItem : record :=
    {[ "uid" := VStr "uuid-0"; "id" := VStr "2"; "name" := VStr "Ada" ]} in
  let run := UniversalSDK.insert example_config "items"
               {[ "name" := VStr "Ada" ]} σ in
  ∃ σ2, UniversalSDK.getItem example_config "items" "uuid-0" run.1
        = (σ2, Returned (Some (json_record newItem))).
Proof.
  intros σ newItem run.
  apply (insert_getItem_round_trip example_config "items" "uuid-0"
           {[ "name" := VStr "Ada" ]} newItem σ run.1).
  - reflexivity.
  - apply run_outcome. vm_compute. reflexivity.
  - vm_compute. reflexivity.
  - intros x Hx. apply list_elem_of_In in Hx. vm_compute in Hx.
    destruct Hx as [<- | []]. vm_compute. reflexivity.
Defined.


Lemma consecutive_inserts_consecutive_ids_witness :
  let σ := state_with "db/items.json" [ {[ "id" := VStr "4" ]} ] [] in
  let r1 : record :=
    {[ "uid" := VStr "uuid-0"; "id" := VStr "5"; "name" := VStr "Ada" ]} in
  let r2 : record :=
    {[ "uid" := VStr "uuid-1"; "id" := VStr "6"; "name" := VStr "Bo" ]} in
  ∃ n id1 id2,
    toString n = Some id1 ∧ toString (n + 1) = Some id2
    ∧ r1 !! "id" = Some (VStr id1) ∧ r2 !! "id" = Some (VStr id2).
Proof.
  intros σ r1 r2.
  pose (run1 := UniversalSDK.insert example_config "items"
                  {[ "name" := VStr "Ada" ]} σ).
  pose (run2 := UniversalSDK.insert example_config "items"
                  {[ "name" := VStr "Bo" ]} run1.1).
  apply (consecutive_inserts_consecutive_ids example_config "items"
           {[ "name" := VStr "Ada" ]} {[ "name" := VStr "Bo" ]} r1 r2
           σ run1.1 run2.1).
  - reflexivity.
  - vm_compute. reflexivity.
  - vm_compute. reflexivity.
  - apply run_outcome. vm_compute. reflexivity.
  - apply run_outcome. vm_compute. reflexivity.
Defined.

Lemma delete_removes_first_match_witness :
  let σ := state_with "db/items.json"
             [ {[ "id" := VStr "1" ]}; {[ "id" := VStr "2" ]} ] [] in
  ∃ σ', UniversalSDK.delete example_config "items" "1" σ = (σ', Returned true).
Proof.
  intros σ.
  refine (proj2 (delete_removes_first_match example_config "items" "1" σ
                   (UniversalSDK.get example_config "items" σ).1
                   [ {[ "id" := VStr "1" ]}; {[ "id" := VStr "2" ]} ] 0 _ _)
            _ _);
    reflexivity.
Defined.

Lemma delete_then_absent_witness :
  let σ := state_with "db/items.json"
             [ {[ "id" := VStr "1" ]}; {[ "id" := VStr "2" ]} ] [] in
  ∃ σ1 σ2 σ3,
    UniversalSDK.delete example_config "items" "2" σ = (σ1, Returned true)
    ∧ UniversalSDK.getItem example_config "items" "2" σ1 = (σ2, Returned None)
    ∧ UniversalSDK.delete example_config "items" "2" σ1 = (σ3, Returned false).
Proof.
  intros σ. apply (delete_then_absent example_config "items" "2" σ 1).
  - reflexivity.
  - reflexivity.
  - vm_compute. reflexivity.
  - assert (collection_at example_config σ "items"
            = [ {[ "id" := VStr "1" ]}; {[ "id" := VStr "2" ]} ]) as ->
      by (vm_compute; reflexivity).
    intros [| [| j]] y Hy Hj; simpl in Hy.
    + injection Hy as <-. vm_compute. reflexivity.
    + by destruct Hj.
    + discriminate Hy.
Defined.

Lemma insert_reuses_deleted_id_witness :
  let σ := state_with "db/items.json"
             [ {[ "id" := VStr "1" ]}; {[ "id" := VStr "2" ]} ] [] in
  ∃ σ' newItem,
    (_ ← UniversalSDK.delete example_config "items" "2";
     UniversalSDK.insert example_config "items" {[ "name" := VStr "Ada" ]}) σ
    = (σ', Returned newItem)
    ∧ newItem !! "id" = Some (VStr "2").
Proof.
  intros σ.
  apply (insert_reuses_deleted_id example_config "items"
           {[ "name" := VStr "Ada" ]} {[ "id" := VStr "2" ]}
           [ {[ "id" := VStr "1" ]} ] 2 "2" σ).
  - reflexivity.
  - reflexivity.
  - vm_compute. reflexivity.
  - vm_compute. reflexivity.
  - vm_compute. reflexivity.
  - reflexivity.
  - intros y Hy. apply list_elem_of_In in Hy. vm_compute in Hy.
    destruct Hy as [<- | []]. vm_compute. reflexivity.
  - intros σ0. reflexivity.
  - vm_compute. reflexivity.
Defined.

Lemma bulkInsert_nothing_still_writes_witness :
  let σ := state_with "db/items.json" [ {[ "id" := VStr "1" ]} ] [] in
  let σ1 := (UniversalSDK.get example_config "items" σ).1 in
  ∃ σ', UniversalSDK.bulkInsert example_config "items" [] σ
        = (σ', Returned [])
        ∧ writes (trace σ') = S (writes (trace σ1))
        ∧ revision σ' = S (revision σ1).
Proof.
  intros σ σ1.
  refine (proj2 (bulkInsert_nothing_still_writes example_config "items" σ σ1
                   [ {[ "id" := VStr "1" ]} ] 2 _ _) _).
  - reflexivity.
  - vm_compute. reflexivity.
  - reflexivity.
Defined.

Lemma audit_records_the_change_witness :
  let σ := new_state in
  let newItem : record :=
    {[ "uid" := VStr "uuid-0"; "id" := VStr "1"; "name" := VStr "Ada" ]} in
  let run := UniversalSDK.insert example_config "items"
               {[ "name" := VStr "Ada" ]} σ in
  auditLog run.1
  = <["items" := log_of σ "items" ++ [audit_entry σ "insert" newItem]]>
      (auditLog σ).
Proof.
  intros σ newItem run.
  apply (proj1 (audit_records_the_change example_config "items" σ run.1)
           {[ "name" := VStr "Ada" ]} newItem).
  apply run_outcome. vm_compute. reflexivity.
Defined.

Lemma audit_log_unchanged_otherwise_witness :
  let run := mutate example_config "users" (Insert ∅) new_state in
  auditLog run.1 = auditLog new_state.
Proof.
  intros run.
  apply (proj1 (audit_log_unchanged_otherwise example_config "users"
                  new_state run.1) (Insert ∅) run.2).
  - apply surjective_pairing.
  - vm_compute. discriminate.
Defined.

Lemma other_collections_untouched_witness :
  let σ := state_with "db/users.json" [ {[ "id" := VStr "1" ]} ] [] in
  let run := mutate example_config "items" (Insert {[ "name" := VStr "Ada" ]}) σ in
  sends_to "db/items.json" σ run.1
  ∧ remote run.1 !! "db/users.json" = remote σ !! "db/users.json".
Proof.
  intros σ run.
  destruct (other_collections_untouched example_config "items"
              (Insert {[ "name" := VStr "Ada" ]}) σ run.1 run.2)
    as [Hsent Hframe].
  - apply surjective_pairing.
  - split; [exact Hsent |]. by apply (Hframe eq_refl "users").
Defined.

Lemma validateSchema_names_first_missing_witness :
  UniversalSDK.validateSchema example_config "users" ∅ new_state
  = (new_state, Thrown (required_message "email" "users")).
Proof.
  refine (proj1 (proj2 (validateSchema_names_first_missing example_config
                          "users"
                          {| required := Some ["email"]; types := None;
                             defaults := None |}
                          ["email"] ∅ new_state _ _)) [] "email" [] _ _ _).
  - reflexivity.
  - reflexivity.
  - reflexivity.
  - constructor.
  - reflexivity.
Defined.

Lemma defaults_fill_absent_fields_witness :
  let d : record := {[ "role" := VStr "customer"; "plan" := VStr "free" ]} in
  let schema := {| required := Some ["role"; "plan"]; types := None;
                   defaults := Some d |} in
  let config := {| basePath := None;
                   schemas := Some {[ "users" := schema ]} |} in
  let item : record := {[ "name" := VStr "Ada"; "role" := VNull ]} in
  let candidate := UniversalSDK.with_defaults config "users" item in
  (∀ f v, item !! f = Some v → candidate !! f = Some v)
  ∧ (∀ f, item !! f = None → candidate !! f = d !! f)
  ∧ (∀ f, item !! f = Some VNull ∨ item !! f = Some VUndefined →
          is_missing f candidate = true)
  ∧ (∀ f v, item !! f = None → d !! f = Some v →
            v ≠ VNull → v ≠ VUndefined → is_missing f candidate = false).
Proof.
  intros d schema config item.
  apply (defaults_fill_absent_fields config "users" schema d item);
    reflexivity.
Defined.


Lemma register_caller_fields_win_witness :
  let userData : record :=
    {[ "email" := VStr "eve@example.org"; "password" := VStr "pw";
       "role" := VStr "admin"; "verified" := VBool true ]} in
  let run := UniversalSDK.register example_config userData new_state in
  ∃ newUser,
    run.2 = Returned newUser
    ∧ newUser !! "role" = Some (VStr "admin")
    ∧ newUser !! "verified" = Some (VBool true)
    ∧ newUser !! "walletBalance" = Some (VNum 0).
Proof.
  intros userData run.
  assert (∃ newUser, run.2 = Returned newUser) as [newUser Hrun]
    by (vm_compute; eexists; reflexivity).
  destruct (register_caller_fields_win example_config userData newUser
              new_state run.1 (run_outcome _ _ _ Hrun))
    as (Hcaller & _ & _ & _ & Hwallet).
  exists newUser. split_and!; [done | | |].
  - by apply Hcaller.
  - by apply Hcaller.
  - by apply Hwallet.
Defined.

Lemma register_then_login_witness :
  let userData : record :=
    {[ "email" := VStr "ada@example.org"; "password" := VStr "pw" ]} in
  let run := UniversalSDK.register example_config userData new_state in
  ∃ σ2 session,
    UniversalSDK.login example_config
      {| email := "ada@example.org"; password := "pw" |} ∅ run.1
    = (σ2, Returned (session, <[token session := session]> ∅)).
Proof.
  intros userData run.
  assert (∃ newUser, run.2 = Returned newUser) as [newUser Hrun]
    by (vm_compute; eexists; reflexivity).
  destruct (register_then_login example_config userData newUser
              "ada@example.org" "pw" ∅ new_state run.1 eq_refl
              (run_outcome _ _ _ Hrun) eq_refl eq_refl)
    as (σ2 & session & Hlogin & _).
  by exists σ2, session.
Defined.


Lemma logins_keep_earlier_sessions_witness :
  let known : record :=
    {[ "email" := VStr "ada@example.org"; "password" := VStr "pw" ]} in
  let s1 := {| token := "uuid-0"; user := known; created := 0 |} in
  let s2 := {| token := "uuid-1"; user := known; created := 0 |} in
  let store2 : gmap string Session := <["uuid-1" := s2]> {[ "uuid-0" := s1 ]} in
  store2 !! token s1 = Some s1
  ∧ store2 !! token s2 = Some s2
  ∧ ∀ t, t ≠ token s1 → t ≠ token s2 → store2 !! t = (∅ : gmap string Session) !! t.
Proof.
  intros known s1 s2 store2.
  pose (σ := state_with "db/users.json" [known] []).
  pose (c := {| email := "ada@example.org"; password := "pw" |}).
  pose (run1 := UniversalSDK.login example_config c ∅ σ).
  pose (run2 := UniversalSDK.login example_config c {[ "uuid-0" := s1 ]} run1.1).
  apply (logins_keep_earlier_sessions example_config c c ∅
           {[ "uuid-0" := s1 ]} store2 s1 s2 σ run1.1 run2.1).
  - apply run_outcome. vm_compute. reflexivity.
  - apply run_outcome. vm_compute. reflexivity.
  - vm_compute. discriminate.
Defined.

Lemma destroySession_undoes_login_witness :
  let known : record :=
    {[ "email" := VStr "ada@example.org"; "password" := VStr "pw" ]} in
  let s1 := {| token := "uuid-0"; user := known; created := 0 |} in
  UniversalSDK.destroySession (token s1) {[ "uuid-0" := s1 ]} = ∅
  ∧ UniversalSDK.destroySession (token s1) (∅ : gmap string Session) = ∅.
Proof.
  intros known s1.
  pose (σ := state_with "db/users.json" [known] []).
  pose (c := {| email := "ada@example.org"; password := "pw" |}).
  apply (destroySession_undoes_login example_config c ∅ {[ "uuid-0" := s1 ]}
           s1 σ (UniversalSDK.login example_config c ∅ σ).1).
  - apply run_outcome. vm_compute. reflexivity.
  - reflexivity.
Defined.

Lemma getCurrentUser_is_first_user_witness :
  let first : record :=
    {[ "email" := VStr "ada@example.org"; "password" := VStr "pw" ]} in
  let second : record :=
    {[ "email" := VStr "bo@example.org"; "password" := VStr "pw2" ]} in
  let σ := state_with "db/users.json" [first; second] [] in
  let run := UniversalSDK.login example_config
               {| email := "bo@example.org"; password := "pw2" |} ∅ σ in
  ∃ σ2, UniversalSDK.getCurrentUser example_config run.1
        = (σ2, Returned (head (collection_at example_config σ "users"))).
Proof.
  intros first second σ run.
  apply (getCurrentUser_is_first_user example_config
           {| email := "bo@example.org"; password := "pw2" |} ∅ σ run.1 run.2).
  - reflexivity.
  - apply surjective_pairing.
Defined.

Lemma saved_collection_is_listed_witness :
  ∃ σ' names,
    (_ ← UniversalSDK.save example_config "items" [];
     UniversalSDK.listCollections example_config) new_state
    = (σ', Returned names)
    ∧ "items" ∈ names.
Proof.
  apply (saved_collection_is_listed example_config "items" [] new_state);
    reflexivity.
Defined.

Lemma init_leaves_populated_repository_witness :
  let σ := state_with "db/items.json" [] [] in
  ∃ σ', UniversalSDK.init example_config σ = (σ', Returned ())
        ∧ remote σ' = remote σ ∧ pending σ' = []
        ∧ writes (trace σ') = writes (trace σ).
Proof.
  intros σ.
  apply (proj2 (proj2 (init_leaves_populated_repository example_config σ))
           eq_refl "items").
  eexists. reflexivity.
Defined.

Lemma init_creates_basic_collections_witness :
  let run := UniversalSDK.init example_config new_state in
  (∀ message, run.2 ≠ Thrown message)
  ∧ (∀ collection, collection ∈ UniversalSDK.basicCollections →
       is_Some (remote run.1
                  !! UniversalSDK.collection_path example_config collection))
  ∧ ∃ σ'', UniversalSDK.init example_config run.1 = (σ'', Returned ())
           ∧ remote σ'' = remote run.1.
Proof.
  intros run.
  apply (init_creates_basic_collections example_config new_state run.1 run.2).
  - reflexivity.
  - reflexivity.
  - vm_compute. reflexivity.
  - apply surjective_pairing.
Defined.

Lemma update_getItem_round_trip_witness :
  let old : record := {[ "id" := VStr "1"; "stock" := VNum 5 ]} in
  let patch : record := {[ "stock" := VNum 4 ]} in
  let σ := state_with "db/items.json" [old] [] in
  ∃ σ1 σ2,
    UniversalSDK.update example_config "items" "1" patch σ
    = (σ1, Returned (Some (spread old patch)))
    ∧ UniversalSDK.getItem example_config "items" "1" σ1
      = (σ2, Returned (Some (json_record (spread old patch)))).
Proof.
  intros old patch σ.
  apply (update_getItem_round_trip example_config "items" "1" patch old σ 0).
  - reflexivity.
  - reflexivity.
  - vm_compute. reflexivity.
  - vm_compute. reflexivity.
  - vm_compute. reflexivity.
Defined.

Lemma insert_then_delete_witness :
  let σ := state_with "db/items.json" [ {[ "id" := VStr "1" ]} ] [] in
  let run := UniversalSDK.insert example_config "items"
               {[ "name" := VStr "Ada" ]} σ in
  ∃ σ2, UniversalSDK.delete example_config "items" "2" run.1
        = (σ2, Returned true)
        ∧ collection_at example_config σ2 "items"
          = collection_at example_config σ "items".
Proof.
  intros σ run.
  apply (insert_then_delete example_config "items" "2"
           {[ "name" := VStr "Ada" ]}
           {[ "uid" := VStr "uuid-0"; "id" := VStr "2"; "name" := VStr "Ada" ]}
           σ run.1).
  - reflexivity.
  - apply run_outcome. vm_compute. reflexivity.
  - vm_compute. reflexivity.
  - intros x Hx. apply list_elem_of_In in Hx. vm_compute in Hx.
    destruct Hx as [<- | []]. vm_compute. reflexivity.
Defined.

Lemma bulkInsert_distinct_uids_witness :
  let items : list record :=
    [ {[ "name" := VStr "Ada" ]}; {[ "name" := VStr "Bo" ]} ] in
  let run := UniversalSDK.bulkInsert example_config "items" items new_state in
  ∃ results, run.2 = Returned results ∧ NoDup (record_uids results).
Proof.
  intros items run.
  assert (∃ results, run.2 = Returned results) as [results Hrun]
    by (vm_compute; eexists; reflexivity).
  exists results. split; [done |].
  refine (proj1 (proj2 (bulkInsert_distinct_uids example_config "items" items
                          results new_state run.1
                          (run_outcome _ _ _ Hrun) _ _))).
  - intros item Hitem. apply list_elem_of_In in Hitem.
    destruct Hitem as [<- | [<- | []]]; vm_compute; reflexivity.
  - intros i j [Hi Hj]. simpl in Hj.
    assert (i = 0%nat ∧ j = 1%nat) as [-> ->] by lia.
    vm_compute. discriminate.
Defined.

Lemma exec_is_repeatable_witness :
  let b := {| collection_of := "items"; query := Returned three_records;
              filters := []; sortField := Some "a"; sortDir := asc;
              projectionFields := None |} in
  let σ := with_builders [b] new_state in
  ∃ σ1 results,
    UniversalSDK.exec 0 σ = (σ1, Returned results)
    ∧ (UniversalSDK.exec 0 σ1).2 = Returned results.
Proof.
  intros b σ.
  apply (exec_is_repeatable 0 σ b three_records).
  - reflexivity.
  - reflexivity.
  - intros field Hfield. vm_compute in Hfield. injection Hfield as <-.
    constructor; [exists 3; split; reflexivity |].
    constructor; [exists 1; split; reflexivity |].
    constructor; [exists 2; split; reflexivity |].
    constructor.
Defined.

Lemma insert_into_new_collection_witness :
  ∃ σ' newItem,
    UniversalSDK.insert example_config "items" {[ "name" := VStr "Ada" ]}
      new_state
    = (σ', Returned newItem)
    ∧ newItem !! "id" = Some (VStr "1")
    ∧ collection_at example_config σ' "items" = [json_record newItem].
Proof.
  apply (insert_into_new_collection example_config "items"
           {[ "name" := VStr "Ada" ]} new_state).
  - reflexivity.
  - reflexivity.
  - reflexivity.
  - intros σ. reflexivity.
  - vm_compute. reflexivity.
Defined.
